(** * FinancePro: the utilities, the tables and the forms, embedded in Rocq

    The development follows the JavaScript sources:
      - [js/utils.js]     sanitizeNumber, calculatePercentage,
                          calculateCompoundInterest, calculateMonthlyPayment,
                          validateInput, isEmpty, capitalize, toTitleCase,
                          getRandomItem, shuffleArray, retry, calculateAge,
                          throttle, debounce
      - [js/constants.js] TAX_BRACKETS_2024, STATE_TAX_RATES, NO_TAX_STATES,
                          VALIDATION_RULES, ERROR_MESSAGES
      - [js/uiUtils.js]   handleIncomeSubmit, handleBudgetSubmit,
                          formatCategoryName, initializeTheme, toggleTheme

    Numbers.  A JavaScript number is modelled by [number]: NaN, the two
    infinities, or a finite value carried as an exact rational [Qc].
    Arithmetic on finite values is exact: the rounding that binary64
    performs after every operation and its overflow are not part of the
    model, and neither is the sign of zero (0 behaves as +0).  The special
    values are produced and propagated as IEEE 754 and ECMAScript
    prescribe.

    Strings.  A string is a [string] of code units, and the model is that
    of text below 128: white space is the white space below 128, and the
    letters that change case are a-z and A-Z ([ascii_only], where a
    statement on letter case or on a character class depends on it).  [toFixed] prints digits and [Number] and
    [parseFloat] read them back, as in the source.

    Calls.  A function that may throw returns a [completion].  What a
    handler does to the outside (messages, calls into the data manager) is
    the list of its effects, in order.

    The outside.  What the environment decides is an argument of the
    model: the numbers that [Math.random] returns, the outcome of each
    call of the function that [retry] is given, the parts of the two dates
    of [calculateAge], and for [throttle] and [debounce] the order in which
    calls arrive and timers run out.  A regular expression is a [regex],
    matched by derivatives. *)

From Stdlib Require Import ZArith QArith Qcanon Qcabs Qround Qabs String Ascii Lia Lqa.
From stdpp Require Import base decidable option numbers list strings gmap.

Set Default Proof Using "Type".
Local Open Scope Z_scope.
Local Open Scope Qc_scope.

(** ** JavaScript numbers *)

Inductive number : Type :=
| NaN
| PosInf
| NegInf
| Fin (q : Qc).

#[global] Instance number_eq_dec : EqDecision number.
Proof. solve_decision. Defined.

#[global] Instance number_inhabited : Inhabited number := populate NaN.

(** A decimal literal of the source, [n / d] in lowest terms. *)
Definition lit (n : Z) (d : positive) : number := Fin (Q2Qc (n # d)).

Definition of_Z (n : Z) : number := Fin (Qc_of_Z n).

Definition isNaN (x : number) : bool :=
  match x with NaN => true | _ => false end.

(** Sign of a value that is not NaN: -1, 0 or 1. *)
Definition Qc_sgn (q : Qc) : Z := Z.sgn (Qnum (this q)).

Definition sgn (x : number) : Z :=
  match x with
  | NaN => 0
  | PosInf => 1
  | NegInf => -1
  | Fin q => Qc_sgn q
  end.

(** The infinity of a given sign; a zero sign stands for an invalid
    operation (inf * 0 and the like) and gives NaN. *)
Definition inf_of_sign (s : Z) : number :=
  match s with
  | Z0 => NaN
  | Zpos _ => PosInf
  | Zneg _ => NegInf
  end.

Definition js_neg (x : number) : number :=
  match x with
  | NaN => NaN
  | PosInf => NegInf
  | NegInf => PosInf
  | Fin q => Fin (- q)
  end.

Definition js_add (x y : number) : number :=
  match x, y with
  | NaN, _ | _, NaN => NaN
  | PosInf, NegInf | NegInf, PosInf => NaN
  | PosInf, _ | _, PosInf => PosInf
  | NegInf, _ | _, NegInf => NegInf
  | Fin a, Fin b => Fin (a + b)
  end.

Definition js_sub (x y : number) : number := js_add x (js_neg y).

Definition js_mul (x y : number) : number :=
  match x, y with
  | NaN, _ | _, NaN => NaN
  | Fin a, Fin b => Fin (a * b)
  | _, _ => inf_of_sign (sgn x * sgn y)
  end.

(** Division.  A finite non-zero value over zero is the infinity with the
    sign of the numerator, 0 / 0 is NaN, a finite value over an infinity
    is 0, and an infinity over a finite value keeps or flips its sign with
    the sign of the divisor (zero counting as positive). *)
Definition js_div (x y : number) : number :=
  match x, y with
  | NaN, _ | _, NaN => NaN
  | Fin a, Fin b =>
      if decide (b = 0) then inf_of_sign (Qc_sgn a) else Fin (a / b)
  | Fin _, _ => Fin 0
  | _, Fin b => inf_of_sign (sgn x * (if decide (b < 0) then -1 else 1))
  | _, _ => NaN
  end.

(** [x === y] on numbers: NaN is different from everything. *)
Definition js_strict_eq (x y : number) : bool :=
  match x, y with
  | NaN, _ | _, NaN => false
  | _, _ => bool_decide (x = y)
  end.

(** [x <= y]: false as soon as one side is NaN. *)
Definition js_le (x y : number) : bool :=
  match x, y with
  | NaN, _ | _, NaN => false
  | NegInf, _ => true
  | _, PosInf => true
  | PosInf, _ => false
  | _, NegInf => false
  | Fin a, Fin b => bool_decide (a <= b)
  end.

(** [x > y]. *)
Definition js_gt (x y : number) : bool :=
  match x, y with
  | NaN, _ | _, NaN => false
  | _, _ => negb (js_le x y)
  end.

Declare Scope js_scope.
Delimit Scope js_scope with js.
Bind Scope js_scope with number.
Infix "+" := js_add : js_scope.
Infix "-" := js_sub : js_scope.
Infix "*" := js_mul : js_scope.
Infix "/" := js_div : js_scope.
Infix "===" := js_strict_eq (at level 70, no associativity) : js_scope.
Infix "<=?" := js_le : js_scope.

(** ** Math.pow *)

Definition is_integral (q : Qc) : bool := bool_decide (Qden (this q) = 1%positive).

Definition Qc_to_Z (q : Qc) : Z := Qnum (this q).

(** An integer power of a non-zero rational, exact. *)
Definition Qc_zpow (b : Qc) (n : Z) : Qc :=
  match n with
  | Z0 => 1
  | Zpos p => b ^ Pos.to_nat p
  | Zneg p => / (b ^ Pos.to_nat p)
  end.

Section MathPow.

(** [Math.pow] at a positive finite base other than 1 and a finite
    exponent that is not an integer.  The exact value is irrational in
    general; the engine's approximation of it is left abstract.  Integer
    powers and powers of 1 are exact, as the rest of the arithmetic. *)
Variable pow_real : Qc -> Qc -> number.

(** Number::exponentiate of ECMAScript, case by case. *)
Definition Math_pow (base exponent : number) : number :=
  match exponent with
  | NaN => NaN
  | Fin e =>
      if decide (e = 0) then Fin 1 else
      match base with
      | NaN => NaN
      | PosInf => if decide (0 < e) then PosInf else Fin 0
      | NegInf =>
          if decide (0 < e)
          then (if is_integral e && Z.odd (Qc_to_Z e) then NegInf else PosInf)
          else Fin 0
      | Fin b =>
          if decide (b = 0) then (if decide (0 < e) then Fin 0 else PosInf)
          else if is_integral e then Fin (Qc_zpow b (Qc_to_Z e))
          else if decide (b < 0) then NaN
          else if decide (b = 1) then Fin 1
          else pow_real b e
      end
  | PosInf =>
      match base with
      | NaN => NaN
      | PosInf => PosInf
      | NegInf => PosInf
      | Fin b =>
          if decide (b = 0) then Fin 0
          else if decide (1 < Qcabs b) then PosInf
          else if decide (Qcabs b = 1) then NaN
          else Fin 0
      end
  | NegInf =>
      match base with
      | NaN => NaN
      | PosInf => Fin 0
      | NegInf => Fin 0
      | Fin b =>
          if decide (b = 0) then PosInf
          else if decide (1 < Qcabs b) then Fin 0
          else if decide (Qcabs b = 1) then NaN
          else PosInf
      end
  end.

End MathPow.

(** ** Completions: a call returns a value or throws *)

Inductive error : Type :=
| RangeError.

Inductive completion (A : Type) : Type :=
| Normal (a : A)
| Throw (e : error).

Arguments Normal {A} a.
Arguments Throw {A} e.

#[global] Instance completion_ret : MRet completion := fun A a => Normal a.

#[global] Instance completion_bind : MBind completion := fun A B k c =>
  match c with
  | Normal a => k a
  | Throw e => Throw e
  end.

Definition throws {A : Type} (c : completion A) : Prop :=
  exists e, c = Throw e.

(** ** Strings of digits *)

Local Open Scope string_scope.

Definition is_digit (c : ascii) : bool := bool_decide (is_Some (Ascii.is_nat c)).

Definition digit_val (c : ascii) : Z := Z.of_nat (default 0%nat (Ascii.is_nat c)).

Definition digit_char (d : Z) : ascii := ascii_of_N (Z.to_N (48 + d)).

(** The decimal representation of a natural number, most significant digit
    first, "0" for zero.  [fuel] bounds the digits still to come. *)
Fixpoint digits_go (fuel : nat) (n : Z) (acc : string) : string :=
  let acc' := String (digit_char (n mod 10)) acc in
  match fuel with
  | O => acc'
  | S k => if decide (n / 10 = 0)%Z then acc' else digits_go k (n / 10) acc'
  end.

Definition decimal_digits (n : Z) : string :=
  digits_go (Z.to_nat (Z.log2 n)) n "".

(** The value of a string of decimal digits read after [acc]. *)
Fixpoint digits_value (acc : Z) (s : string) : Z :=
  match s with
  | "" => acc
  | String c r => digits_value (10 * acc + digit_val c) r
  end.

(** The longest prefix of digits, and what follows it. *)
Fixpoint take_digits (s : string) : string * string :=
  match s with
  | "" => ("", "")
  | String c r =>
      if is_digit c
      then let '(d, r') := take_digits r in (String c d, r')
      else ("", s)
  end.

Fixpoint repeat_char (c : ascii) (n : nat) : string :=
  match n with
  | O => ""
  | S k => String c (repeat_char c k)
  end.

(** The first [n] code units of a string, and the others. *)
Fixpoint str_take (n : nat) (s : string) : string :=
  match n, s with
  | S k, String c r => String c (str_take k r)
  | _, _ => ""
  end.

Fixpoint str_drop (n : nat) (s : string) : string :=
  match n, s with
  | S k, String c r => str_drop k r
  | _, _ => s
  end.

Fixpoint trim_start (s : string) : string :=
  match s with
  | String c r => if Ascii.is_space c then trim_start r else s
  | "" => ""
  end.

Fixpoint trim_end (s : string) : string :=
  match s with
  | String c r =>
      let r' := trim_end r in
      if decide (r' = "") then (if Ascii.is_space c then "" else String c "")
      else String c r'
  | "" => ""
  end.

(** [s.trim()], for the white space that fits in one code unit below 128. *)
Definition trim (s : string) : string := trim_end (trim_start s).

(** [s.replace(/,/g, '')]. *)
Fixpoint remove_commas (s : string) : string :=
  match s with
  | "" => ""
  | String c r => if decide (c = ","%char) then remove_commas r else String c (remove_commas r)
  end.

(** [Some r] when [s] is [p] followed by [r]. *)
Fixpoint str_strip_prefix (p s : string) : option string :=
  match p, s with
  | "", _ => Some s
  | String a p', String b s' => if decide (a = b) then str_strip_prefix p' s' else None
  | String _ _, "" => None
  end.

(** ** Number.prototype.toFixed *)

(** ToIntegerOrInfinity: NaN becomes 0, the infinities stay, a finite value
    is truncated towards zero. *)
Definition ToIntegerOrInfinity (x : number) : number :=
  match x with
  | NaN => Fin 0
  | Fin q => Fin (Qc_of_Z (Qnum (this q) ÷ Z.pos (Qden (this q))))
  | _ => x
  end.

Definition pow10 (f : Z) : Qc := Qc_zpow (Qc_of_Z 10) f.

(** The largest integer not above a rational. *)
Definition Qc_floor (x : Qc) : Z := Qfloor (this x).

(** Number::toString on the values that have no digits. *)
Definition special_toString (x : number) : string :=
  match x with
  | PosInf => "Infinity"
  | NegInf => "-Infinity"
  | _ => "NaN"
  end.

(** [x.toFixed(fractionDigits)].

    For a finite [x] the integer [n] is the one for which [n / 10^f - |x|]
    is closest to zero, the larger one when two are as close; it is printed
    with [f] digits after the point, padded with zeros on the left up to
    [f + 1] digits.  ECMAScript sends [|x| >= 10^21] to Number::toString
    instead; a binary64 value that large is an integer which
    Number::toString names exactly, so that [Number] reads the same value
    back from either numeral, and the model prints all finite values in the
    fixed notation. *)
Definition toFixed (x : number) (fractionDigits : number) : completion string :=
  match ToIntegerOrInfinity fractionDigits with
  | Fin fq =>
      let f := Qc_to_Z fq in
      if decide (f < 0 ∨ 100 < f)%Z then Throw RangeError else
      match x with
      | Fin q =>
          let s := if decide (q < 0) then "-" else "" in
          let a := Qcabs q in
          let n := Qc_floor (a * pow10 f + Q2Qc (1 # 2)) in
          let m := decimal_digits n in
          let m :=
            if decide (f = 0)%Z then m else
            let fd := Z.to_nat f in
            let k := String.length m in
            let m := if decide (k ≤ fd)%nat
                     then repeat_char "0" (fd + 1 - k) +:+ m else m in
            let k := String.length m in
            let a := str_take (k - fd) m in
            let b := str_drop (k - fd) m in
            a +:+ "." +:+ b in
          Normal (s +:+ m)
      | _ => Normal (special_toString x)
      end
  | _ => Throw RangeError
  end.

(** ** Reading numbers: parseFloat and Number *)

(** ExponentPart: [e] or [E], an optional sign, at least one digit.  When
    it is absent or cut short nothing is consumed. *)
Definition scan_exponent (s : string) : Z * string :=
  match s with
  | String c r =>
      if decide (c = "e"%char ∨ c = "E"%char) then
        let '(sg, r1) :=
          match r with
          | String c' r' =>
              if decide (c' = "+"%char) then (1%Z, r')
              else if decide (c' = "-"%char) then ((-1)%Z, r')
              else (1%Z, r)
          | "" => (1%Z, r)
          end in
        let '(d, r2) := take_digits r1 in
        if decide (d = "") then (0%Z, s) else ((sg * digits_value 0 d)%Z, r2)
      else (0%Z, s)
  | "" => (0%Z, s)
  end.

(** The longest prefix that is a StrUnsignedDecimalLiteral:
      Infinity
      DecimalDigits . DecimalDigits(opt) ExponentPart(opt)
      . DecimalDigits ExponentPart(opt)
      DecimalDigits ExponentPart(opt)
    with its exact value and the rest of the string. *)
Definition scan_unsigned (s : string) : option (number * string) :=
  match str_strip_prefix "Infinity" s with
  | Some r => Some (PosInf, r)
  | None =>
      let '(ip, r1) := take_digits s in
      let without_point :=
        if decide (ip = "") then None else
        let '(e, r4) := scan_exponent r1 in
        Some (Fin (Qc_of_Z (digits_value 0 ip) * pow10 e), r4) in
      match r1 with
      | String c r2 =>
          if decide (c = "."%char) then
            let '(fp, r3) := take_digits r2 in
            if decide (ip = "" ∧ fp = "") then None else
            let '(e, r4) := scan_exponent r3 in
            Some (Fin (Qc_of_Z (digits_value 0 (ip +:+ fp))
                       * pow10 (e - Z.of_nat (String.length fp))), r4)
          else without_point
      | "" => without_point
      end
  end.

(** StrDecimalLiteral: an optional sign before the unsigned literal. *)
Definition scan_decimal (s : string) : option (number * string) :=
  match s with
  | String c r =>
      if decide (c = "+"%char) then scan_unsigned r
      else if decide (c = "-"%char) then prod_map js_neg id <$> scan_unsigned r
      else scan_unsigned s
  | "" => None
  end.

(** [parseFloat(s)]: skip leading white space, read the longest decimal
    literal, ignore what follows; NaN when there is none. *)
Definition parseFloat (s : string) : number :=
  match scan_decimal (trim_start s) with
  | Some (v, _) => v
  | None => NaN
  end.

(** The value of a digit in a radix up to 16, if it is one. *)
Definition radix_digit (radix : Z) (c : ascii) : option Z :=
  let n := Z.of_N (N_of_ascii c) in
  let v :=
    if decide (48 ≤ n ≤ 57)%Z then Some (n - 48)%Z
    else if decide (97 ≤ n ≤ 102)%Z then Some (n - 87)%Z
    else if decide (65 ≤ n ≤ 70)%Z then Some (n - 55)%Z
    else None in
  v ≫= λ d, if decide (d < radix)%Z then Some d else None.

Fixpoint radix_value (radix acc : Z) (s : string) : option Z :=
  match s with
  | "" => Some acc
  | String c r => radix_digit radix c ≫= λ d, radix_value radix (radix * acc + d) r
  end.

(** NonDecimalIntegerLiteral: 0x, 0o or 0b and at least one digit. *)
Definition non_decimal (s : string) : number :=
  match s with
  | String "0" (String p r) =>
      let radix :=
        if decide (p = "x"%char ∨ p = "X"%char) then Some 16%Z
        else if decide (p = "o"%char ∨ p = "O"%char) then Some 8%Z
        else if decide (p = "b"%char ∨ p = "B"%char) then Some 2%Z
        else None in
      match radix, r with
      | Some b, String _ _ => from_option (λ v, Fin (Qc_of_Z v)) NaN (radix_value b 0 r)
      | _, _ => NaN
      end
  | _ => NaN
  end.

(** [Number(s)] on a string (StringToNumber): white space is trimmed at both
    ends, the empty string is 0, and otherwise the whole of what is left
    has to be one numeric literal. *)
Definition Number_ (s : string) : number :=
  let t := trim s in
  if decide (t = "") then Fin 0 else
  match scan_decimal t with
  | Some (v, "") => v
  | _ => non_decimal t
  end.

(** ** js/utils.js *)

(** What a form field or an omitted argument supplies. *)
Inductive jsvalue : Type :=
| JNull
| JUndefined
| JString (s : string).

#[global] Instance jsvalue_eq_dec : EqDecision jsvalue.
Proof. solve_decision. Defined.

(** [String(value)]. *)
Definition String_ (value : jsvalue) : string :=
  match value with
  | JNull => "null"
  | JUndefined => "undefined"
  | JString s => s
  end.

(** An optional trailing argument is [None] when the caller leaves it out,
    and the default of the parameter list is used. *)
Definition sanitizeNumber (value : jsvalue) (defaultValue : option number) : number :=
  let defaultValue := default (of_Z 0) defaultValue in
  if decide (value = JNull ∨ value = JUndefined ∨ value = JString "") then
    defaultValue
  else
    let num := parseFloat (remove_commas (String_ value)) in
    if isNaN num then defaultValue else num.

Definition calculatePercentage (value total : number) (decimals : option number)
  : completion number :=
  let decimals := default (of_Z 2) decimals in
  if (total === of_Z 0)%js then mret (of_Z 0) else
  s ← toFixed ((value / total) * of_Z 100)%js decimals;
  mret (Number_ s).

Section Growth.

Variable pow_real : Qc -> Qc -> number.

Definition calculateCompoundInterest (principal rate time : number)
    (frequency : option number) : completion number :=
  let frequency := default (of_Z 1) frequency in
  let amount := (principal * Math_pow pow_real (of_Z 1 + (rate / frequency)) (frequency * time))%js in
  s ← toFixed amount (of_Z 2);
  mret (Number_ s).

Definition calculateMonthlyPayment (principal rate months : number)
  : completion number :=
  if (rate === of_Z 0)%js then mret (principal / months)%js else
  let monthlyRate := (rate / of_Z 12)%js in
  let payment :=
    (principal * (monthlyRate * Math_pow pow_real (of_Z 1 + monthlyRate) months) /
     (Math_pow pow_real (of_Z 1 + monthlyRate) months - of_Z 1))%js in
  s ← toFixed payment (of_Z 2);
  mret (Number_ s).

End Growth.

(** An engine for the worked examples: they only take whole powers, so the
    answer at the other exponents does not matter. *)
Definition pow_real_NaN : Qc -> Qc -> number := fun _ _ => NaN.

(** ** js/constants.js *)

Record bracket : Type := Bracket {
  min : number;
  max : number;
  rate : number
}.

Definition TAX_BRACKETS_2024 : list bracket := [
  Bracket (of_Z 0) (of_Z 11000) (lit 10 100);
  Bracket (of_Z 11000) (of_Z 44725) (lit 12 100);
  Bracket (of_Z 44725) (of_Z 95375) (lit 22 100);
  Bracket (of_Z 95375) (of_Z 182050) (lit 24 100);
  Bracket (of_Z 182050) (of_Z 231250) (lit 32 100);
  Bracket (of_Z 231250) (of_Z 578125) (lit 35 100);
  Bracket (of_Z 578125) PosInf (lit 37 100)
].

Definition STATE_TAX_RATES : gmap string number := list_to_map [
  ("AL", lit 5 100); ("AR", lit 49 1000); ("AZ", lit 25 1000); ("CA", lit 7 100);
  ("CO", lit 44 1000);
  ("CT", lit 5 100); ("DC", lit 6 100); ("DE", lit 52 1000); ("GA", lit 47 1000);
  ("HI", lit 7 100);
  ("IA", lit 5 100); ("ID", lit 56 1000); ("IL", lit 495 10000); ("IN", lit 315 10000);
  ("KS", lit 52 1000);
  ("KY", lit 45 1000); ("LA", lit 45 1000); ("MA", lit 5 100); ("MD", lit 55 1000);
  ("ME", lit 58 1000);
  ("MI", lit 425 10000); ("MN", lit 58 1000); ("MO", lit 48 1000); ("MS", lit 5 100);
  ("MT", lit 55 1000);
  ("NC", lit 475 10000); ("ND", lit 2 100); ("NE", lit 5 100); ("NJ", lit 55 1000);
  ("NM", lit 49 1000);
  ("NY", lit 58 1000); ("OH", lit 275 10000); ("OK", lit 475 10000); ("OR", lit 75 1000);
  ("PA", lit 307 10000);
  ("RI", lit 5 100); ("SC", lit 53 1000); ("UT", lit 465 10000); ("VA", lit 5 100);
  ("VT", lit 6 100);
  ("WI", lit 53 1000); ("WV", lit 5 100)
].

Definition NO_TAX_STATES : gset string :=
  list_to_set ["AK"; "FL"; "NV"; "NH"; "SD"; "TN"; "TX"; "WA"; "WY"].

(** ** js/uiUtils.js: the income form *)

(** The fields of a submitted form, by name.  [FormData.get] gives the
    value of a field, or null when the form has no such field. *)
Definition FormData_get (formData : gmap string string) (name : string) : jsvalue :=
  match formData !! name with
  | Some s => JString s
  | None => JNull
  end.

Fixpoint all_digits (s : string) : bool :=
  match s with
  | "" => true
  | String c r => is_digit c && all_digits r
  end.

(** [/^\d{5}(-\d{4})?$/.test(s)]. *)
Definition zip_regex_test (s : string) : bool :=
  let d5 := str_take 5 s in
  let r := str_drop 5 s in
  bool_decide (String.length d5 = 5%nat) && all_digits d5 &&
  match r with
  | "" => true
  | String "-" d4 => bool_decide (String.length d4 = 4%nat) && all_digits d4
  | _ => false
  end.

(** [x || d] on numbers: 0 and NaN are falsy. *)
Definition js_or (x d : number) : number :=
  if decide (x = NaN ∨ x = of_Z 0) then d else x.

(** The object stored under the data store's 'income' section. *)
Record income_section : Type := IncomeSection {
  payAmount : number;
  payFrequency : jsvalue;
  hoursPerDay : number;
  daysPerWeek : number;
  weeksPerYear : number;
  zipcode : string;
  monthlyNetIncome : number;
  annualGrossIncome : number;
  calculatedDate : string
}.

Section IncomeForm.

(** The data manager lives in [js/dataManager.js]; the handler only
    calls into it.  Its two calculations, the shape of the tax data and
    the clock are parameters of the handler. *)
Variable taxData : Type.
Variable netIncome : taxData -> number.
Variable calculateAnnualIncome :
  number -> jsvalue -> number -> number -> number -> number.
Variable calculateAllTaxes : number -> string -> taxData.
Variable now : string.

(** What the handler does to the outside, in order. *)
Inductive effect : Type :=
| PreventDefault
| ShowError (message : string)
| CallCalculateAnnualIncome (payAmount : number) (frequency : jsvalue)
    (hoursPerDay daysPerWeek weeksPerYear : number)
| CallCalculateAllTaxes (annualIncome : number) (zipcode : string)
| UpdateSection (section : string) (data : income_section)
| RenderIncomeResults (data : taxData) (annualIncome : number).

Definition handleIncomeSubmit (formData : gmap string string) : list effect :=
  let payAmount := sanitizeNumber (FormData_get formData "payAmount") None in
  let frequency := FormData_get formData "payFrequency" in
  let hoursPerDay := sanitizeNumber (FormData_get formData "hoursPerDay") None in
  let daysPerWeek := sanitizeNumber (FormData_get formData "daysPerWeek") None in
  let weeksPerYear := sanitizeNumber (FormData_get formData "weeksPerYear") None in
  (* formData.get('zipcode')?.trim(); undefined is [None] *)
  let zipcode := trim <$> formData !! "zipcode" in
  PreventDefault ::
  if (payAmount <=? of_Z 0)%js then
    [ShowError "Please enter a valid pay amount."]
  else
    match zipcode with
    | Some zipcode =>
        if bool_decide (zipcode = "") || negb (zip_regex_test zipcode) then
          [ShowError "Please enter a valid 5-digit ZIP code."]
        else
          let annualIncome :=
            calculateAnnualIncome payAmount frequency hoursPerDay daysPerWeek weeksPerYear in
          let data := calculateAllTaxes annualIncome zipcode in
          [ CallCalculateAnnualIncome payAmount frequency hoursPerDay daysPerWeek weeksPerYear;
            CallCalculateAllTaxes annualIncome zipcode;
            UpdateSection "income" {|
              payAmount := payAmount;
              payFrequency := frequency;
              hoursPerDay := js_or hoursPerDay (of_Z 8);
              daysPerWeek := js_or daysPerWeek (of_Z 5);
              weeksPerYear := js_or weeksPerYear (of_Z 52);
              zipcode := zipcode;
              monthlyNetIncome := (netIncome data / of_Z 12)%js;
              annualGrossIncome := annualIncome;
              calculatedDate := now
            |};
            RenderIncomeResults data annualIncome ]
    | None => [ShowError "Please enter a valid 5-digit ZIP code."]
    end.

(** The handler reached the tax computation. *)
Definition invokes_tax_computation (trace : list effect) : Prop :=
  ∃ e, e ∈ trace ∧
    match e with
    | CallCalculateAnnualIncome _ _ _ _ _ | CallCalculateAllTaxes _ _ => True
    | _ => False
    end.

(** The handler stopped at a validation message. *)
Definition rejected (trace : list effect) : Prop :=
  ∃ message, trace = [PreventDefault; ShowError message].

End IncomeForm.

(** ** Rounding, in the words of the specification *)

(** [y] is [x] rounded to [d] decimal places: a whole number of units
    [10^-d], at most half a unit away from [x]. *)
Definition rounds_to (d : Z) (x y : Qc) : Prop :=
  (∃ n : Z, y = Qc_of_Z n * pow10 (- d)) ∧
  Qcabs (y - x) <= pow10 (- d) / 2.

(** Round-half-away-from-zero: of two candidates that are as close, the
    one with the larger magnitude. *)
Definition rounds_half_away (d : Z) (x y : Qc) : Prop :=
  rounds_to d x y ∧
  (Qcabs (y - x) = pow10 (- d) / 2 → Qcabs x < Qcabs y).

(** The same for a JavaScript number: NaN and the infinities have no
    decimals and stay as they are. *)
Definition rounds_number (d : Z) (x y : number) : Prop :=
  match x with
  | Fin q => ∃ r, y = Fin r ∧ rounds_half_away d q r
  | _ => y = x
  end.

(** ** The bracket invariant, in the words of the specification *)

Definition num_le (x y : number) : Prop := js_le x y = true.

Definition num_lt (x y : number) : Prop := js_gt y x = true.

(** lowerBound >= 0, upperBound > lowerBound, marginalRate in [0,1]. *)
Definition bracket_wf (b : bracket) : Prop :=
  num_le (of_Z 0) (min b) ∧ num_lt (min b) (max b) ∧
  num_le (of_Z 0) (rate b) ∧ num_le (rate b) (of_Z 1).

(** Sorted ascending and contiguous from [lo] on: every bracket starts
    where the one before it ends, and the last one has no upper bound. *)
Fixpoint contiguous_from (lo : number) (bs : list bracket) : Prop :=
  match bs with
  | [] => lo = PosInf
  | b :: bs' => min b = lo ∧ contiguous_from (max b) bs'
  end.

(** The income [x] falls in the bracket: lowerBound <= x < upperBound. *)
Definition in_bracket (x : Qc) (b : bracket) : Prop :=
  num_le (min b) (Fin x) ∧ num_lt (Fin x) (max b).

(** ** Pay amounts, in the words of the specification *)

(** The text of the field is not a number: the field is missing, or
    [Number(text)] is NaN. *)
Definition non_numeric (v : jsvalue) : Prop :=
  match v with
  | JString s => isNaN (Number_ s) = true
  | _ => True
  end.

(** The text of the field starts with a negative number. *)
Definition negative_amount (v : jsvalue) : Prop :=
  ∃ s, v = JString s ∧ num_lt (parseFloat (remove_commas s)) (of_Z 0).

(** The text of the field does not even start with a number: what
    [sanitizeNumber] replaces by its default. *)
Definition unparsable (v : jsvalue) : Prop :=
  v = JNull ∨ v = JUndefined ∨ v = JString "" ∨
  isNaN (parseFloat (remove_commas (String_ v))) = true.

(** The value that [Number(x.toFixed(f))] denotes for a finite [x]. *)
Definition fixed_value (f : Z) (q : Qc) : Qc :=
  let n := Qc_of_Z (Qc_floor (Qcabs q * pow10 f + Q2Qc (1 # 2))) in
  (if decide (q < 0) then - n else n) * pow10 (- f).

Definition round_number (f : Z) (x : number) : number :=
  match x with
  | Fin q => Fin (fixed_value f q)
  | _ => x
  end.

(** ** Auxiliary predicates on strings *)

(** A string of digits is a whole token for [take_digits] when what follows
    does not go on with a digit. *)
Definition stops_digits (r : string) : Prop :=
  match r with
  | String c _ => is_digit c = false
  | "" => True
  end.

Fixpoint no_space (s : string) : bool :=
  match s with
  | "" => true
  | String c r => negb (Ascii.is_space c) && no_space r
  end.

(** * More of js/uiUtils.js *)

(** ** The budget form *)

(** The object stored under the data store's 'budget' section.  The
    expenses object is kept as the list of its entries, in the order in
    which the handler writes them. *)
Record budget_section (analysis : Type) : Type := BudgetSection {
  budget_monthlyIncome : number;
  budget_expenses : list (string * number);
  budget_totalExpenses : number;
  budget_analysis : analysis;
  budget_lastUpdated : string
}.

Arguments BudgetSection {analysis}.
Arguments budget_monthlyIncome {analysis}.
Arguments budget_expenses {analysis}.
Arguments budget_totalExpenses {analysis}.
Arguments budget_analysis {analysis}.
Arguments budget_lastUpdated {analysis}.

Definition expenseFields : list string :=
  ["rentMortgage"; "utilities"; "groceries"; "transportation";
   "insurance"; "debtPayments"; "diningOut"; "shopping";
   "subscriptions"; "miscellaneous"].

Section BudgetForm.

(** [calculateBudgetAnalysis] is the data manager's; the handler reads
    [totalExpenses] off its result. *)
Variable analysis : Type.
Variable totalExpenses : analysis -> number.
Variable calculateBudgetAnalysis : number -> list (string * number) -> analysis.
Variable now : string.

Inductive budget_effect : Type :=
| BudgetPreventDefault
| BudgetShowError (message : string)
| CallCalculateBudgetAnalysis (monthlyIncome : number) (expenses : list (string * number))
| UpdateBudgetSection (section : string) (data : budget_section analysis)
| RenderBudgetResults (result : analysis).

Definition handleBudgetSubmit (formData : gmap string string) : list budget_effect :=
  let monthlyIncome := sanitizeNumber (FormData_get formData "monthlyIncome") None in
  BudgetPreventDefault ::
  if (monthlyIncome <=? of_Z 0)%js then
    [BudgetShowError "Please enter a valid monthly income."]
  else
    let expenses :=
      (fun field => (field, sanitizeNumber (FormData_get formData field) None))
        <$> expenseFields in
    let result := calculateBudgetAnalysis monthlyIncome expenses in
    [ CallCalculateBudgetAnalysis monthlyIncome expenses;
      UpdateBudgetSection "budget" {|
        budget_monthlyIncome := monthlyIncome;
        budget_expenses := expenses;
        budget_totalExpenses := totalExpenses result;
        budget_analysis := result;
        budget_lastUpdated := now
      |};
      RenderBudgetResults result ].

End BudgetForm.

(** ** Category names *)

Definition is_upper (c : ascii) : bool :=
  let n := N_of_ascii c in (65 <=? n)%N && (n <=? 90)%N.

Definition is_lower (c : ascii) : bool :=
  let n := N_of_ascii c in (97 <=? n)%N && (n <=? 122)%N.

(** [c.toUpperCase()] and [c.toLowerCase()] on a code unit below 128:
    only the letters a-z and A-Z change. *)
Definition to_upper (c : ascii) : ascii :=
  if is_lower c then ascii_of_N (N_of_ascii c - 32) else c.

Definition to_lower (c : ascii) : ascii :=
  if is_upper c then ascii_of_N (N_of_ascii c + 32) else c.

Fixpoint toUpperCase (s : string) : string :=
  match s with
  | "" => ""
  | String c r => String (to_upper c) (toUpperCase r)
  end.

Fixpoint toLowerCase (s : string) : string :=
  match s with
  | "" => ""
  | String c r => String (to_lower c) (toLowerCase r)
  end.

(** [s.replace(/([A-Z])/g, ' $1')]: a space before every capital. *)
Fixpoint space_capitals (s : string) : string :=
  match s with
  | "" => ""
  | String c r =>
      if is_upper c then String " " (String c (space_capitals r))
      else String c (space_capitals r)
  end.

(** A line terminator below 128: what [.] does not match. *)
Definition is_line_terminator (c : ascii) : bool :=
  bool_decide (c = "010"%char ∨ c = "013"%char).

(** [s.replace(/^./, str => str.toUpperCase())]. *)
Definition upper_first (s : string) : string :=
  match s with
  | "" => ""
  | String c r => if is_line_terminator c then s else String (to_upper c) r
  end.

Definition formatCategoryName (category : string) : string :=
  trim (upper_first (space_capitals category)).

(** The string without its white space. *)
Fixpoint strip_space (s : string) : string :=
  match s with
  | "" => ""
  | String c r => if Ascii.is_space c then strip_space r else String c (strip_space r)
  end.

(** ** The theme *)

(** What the theme functions read and write: the [theme] field of the
    object, local storage, and whether the document element carries the
    class 'dark'. *)
Record theme_state : Type := ThemeState {
  theme : string;
  localStorage : gmap string string;
  dark_class : bool
}.

(** STORAGE_KEYS.THEME of js/constants.js. *)
Definition STORAGE_KEYS_THEME : string := "financepro_theme".

(** [localStorage.getItem(key) || 'dark']: a missing key gives null and a
    stored empty string is falsy. *)
Definition initializeTheme (st : theme_state) : theme_state :=
  let savedTheme :=
    match localStorage st !! STORAGE_KEYS_THEME with
    | Some s => if decide (s = "") then "dark" else s
    | None => "dark"
    end in
  {| theme := savedTheme;
     localStorage := localStorage st;
     dark_class := bool_decide (savedTheme = "dark") |}.

Definition toggleTheme (st : theme_state) : theme_state :=
  let theme' := if decide (theme st = "dark") then "light" else "dark" in
  {| theme := theme';
     localStorage := <[STORAGE_KEYS_THEME := theme']> (localStorage st);
     dark_class := bool_decide (theme' = "dark") |}.

(** * More of utils.js *)

(** ** Values of any type *)

(** The values that the type tests of utils.js tell apart: what a form
    field supplies, numbers, booleans, arrays, and plain objects as the
    list of their own enumerable entries. *)
#[warnings="-register-all"]
Inductive jsdata : Type :=
| DValue (v : jsvalue)
| DNumber (n : number)
| DBoolean (b : bool)
| DArray (items : list jsdata)
| DObject (entries : list (string * jsdata)).

Definition isEmpty (value : jsdata) : bool :=
  match value with
  | DValue JNull | DValue JUndefined => true
  | DValue (JString s) => bool_decide (trim s = "")
  | DArray items => bool_decide (length items = 0%nat)
  | DObject entries => bool_decide (length entries.*1 = 0%nat)
  | _ => false
  end.

(** ** Letter case *)

(** [capitalize]: a value that is not a string, and the empty string, are
    returned as they are. *)
Definition capitalize_string (str : string) : string :=
  match str with
  | "" => ""
  | String c r => String (to_upper c) (toLowerCase r)
  end.

Definition capitalize (str : jsdata) : jsdata :=
  match str with
  | DValue (JString s) => DValue (JString (capitalize_string s))
  | _ => str
  end.

(** [\w] of a regular expression, on a code unit below 128. *)
Definition is_word_char (c : ascii) : bool :=
  is_upper c || is_lower c || is_digit c || bool_decide (c = "_"%char).

(** [str.replace(/\w\S*/g, txt => ...)], read from left to right:
    [in_match] tells whether the scan is inside a match, which starts at a
    word character and runs up to the next white space. *)
Fixpoint title_scan (in_match : bool) (s : string) : string :=
  match s with
  | "" => ""
  | String c r =>
      if in_match then
        if Ascii.is_space c then String c (title_scan false r)
        else String (to_lower c) (title_scan true r)
      else
        if is_word_char c then String (to_upper c) (title_scan true r)
        else String c (title_scan false r)
  end.

Definition toTitleCase_string (str : string) : string := title_scan false str.

Definition toTitleCase (str : jsdata) : jsdata :=
  match str with
  | DValue (JString s) => DValue (JString (toTitleCase_string s))
  | _ => str
  end.

(** ** Random choices *)

(** What an array access gives: an item, or undefined out of range; and
    null, which [getRandomItem] returns for an empty array. *)
Inductive item (A : Type) : Type :=
| Null
| Undefined
| Item (a : A).

Arguments Null {A}.
Arguments Undefined {A}.
Arguments Item {A} a.

(** [array[i]] for a number [i]: only a whole number from 0 on names an
    element. *)
Definition array_get {A : Type} (array : list A) (i : Z) : item A :=
  if decide (i < 0)%Z then Undefined
  else match array !! Z.to_nat i with
       | Some a => Item a
       | None => Undefined
       end.

(** [Math.floor(r * n)] for a finite [r] and a length [n]. *)
Definition random_index (r : Qc) (n : nat) : Z :=
  Qc_floor (r * Qc_of_Z (Z.of_nat n)).

(** [getRandomItem], given what [Math.random()] returns. *)
Definition getRandomItem {A : Type} (random : Qc) (array : list A) : item A :=
  if decide (length array = 0%nat) then Null
  else array_get array (random_index random (length array)).

(** [[shuffled[i], shuffled[j]] = [shuffled[j], shuffled[i]]] for two
    indices within the array. *)
Definition swap {A : Type} (shuffled : list A) (i j : nat) : option (list A) :=
  x ← shuffled !! i;
  y ← shuffled !! j;
  Some (<[j := x]> (<[i := y]> shuffled)).

(** The loop from [i] down to 1; [random k] is what the k-th call of
    [Math.random] returns, [k] counting the calls already made.  A draw
    in the range of [Math.random] gives an index from 0 to [i]; the loop
    is followed no further ([None]) when a draw gives an index outside
    the array. *)
Fixpoint shuffle_loop {A : Type} (random : nat → Qc) (k : nat) (i : nat)
    (shuffled : list A) : option (list A) :=
  match i with
  | O => Some shuffled
  | S i' =>
      let j := random_index (random k) (i + 1) in
      if decide (0 ≤ j)%Z then
        shuffled' ← swap shuffled i (Z.to_nat j);
        shuffle_loop random (S k) i' shuffled'
      else None
  end.

Definition shuffleArray {A : Type} (random : nat → Qc) (array : list A)
  : option (list A) :=
  shuffle_loop random 0 (length array - 1) array.

(** The range of [Math.random]: from 0 up to, not including, 1. *)
Definition in_unit_range (r : Qc) : Prop := 0 <= r ∧ r < 1.

(** ** Retrying *)

(** What a call of [fn] comes to once awaited. *)
Inductive outcome (V E : Type) : Type :=
| Resolved (value : V)
| Rejected (error : E).

Arguments Resolved {V E} value.
Arguments Rejected {V E} error.

Inductive retry_effect : Type :=
| CallFn (attempt : nat)
| Sleep (ms : number).

(** [retry]: [fn k] is the outcome of the k-th call of [fn], [k] counting
    the calls already made; [retries] is a whole number, and the recursion
    runs on the retries that are left. *)
Fixpoint retry_from {V E : Type} (fn : nat → outcome V E) (k : nat)
    (retries : nat) (delay : number) : list retry_effect * outcome V E :=
  match fn k with
  | Resolved value => ([CallFn k]%list, Resolved value)
  | Rejected error =>
      match retries with
      | S retries' =>
          let '(trace, result) := retry_from fn (S k) retries' (delay * of_Z 2)%js in
          (CallFn k :: Sleep delay :: trace, result)
      | O => ([CallFn k]%list, Rejected error)
      end
  end.

Definition retry {V E : Type} (fn : nat → outcome V E) (retries : option Z)
    (delay : option number) : list retry_effect * outcome V E :=
  retry_from fn 0 (Z.to_nat (default 3%Z retries)) (default (of_Z 1000) delay).

(** The delay before the retry number [i], from 0 on: doubled [i] times. *)
Definition backoff (delay : number) (i : nat) : number :=
  Nat.iter i (λ d, (d * of_Z 2)%js) delay.

(** The calls of [fn] and the sleeps of a trace. *)
Definition calls (trace : list retry_effect) : list nat :=
  omap (λ e, match e with CallFn k => Some k | _ => None end) trace.

Definition sleeps (trace : list retry_effect) : list number :=
  omap (λ e, match e with Sleep ms => Some ms | _ => None end) trace.

(** What the sleeps of a trace add up to. *)
Definition total_sleep (trace : list retry_effect) : number :=
  foldr js_add (of_Z 0) (sleeps trace).

(** ** Ages *)

(** What [getFullYear], [getMonth] and [getDate] give for a valid date. *)
Record date_parts : Type := DateParts {
  fullYear : Z;
  month : Z;
  date : Z
}.

(** [calculateAge], given the parts of today's date and of the birth
    date. *)
Definition calculateAge (today birth : date_parts) : Z :=
  let age := (fullYear today - fullYear birth)%Z in
  let monthDiff := (month today - month birth)%Z in
  if bool_decide (monthDiff < 0)%Z
     || (bool_decide (monthDiff = 0)%Z && bool_decide (date today < date birth)%Z)
  then (age - 1)%Z else age.

(** Earlier in the calendar, or the same day. *)
Definition date_le (a b : date_parts) : Prop :=
  (fullYear a < fullYear b)%Z ∨
  (fullYear a = fullYear b ∧
   ((month a < month b)%Z ∨ (month a = month b ∧ (date a ≤ date b)%Z))).

(** The same day of the year, [n] years on. *)
Definition add_years (d : date_parts) (n : Z) : date_parts :=
  {| fullYear := fullYear d + n; month := month d; date := date d |}.

(** ** Rate limiting *)

(** What happens to the function that [throttle] or [debounce] returns:
    it is called with some arguments, or the timer that it has set runs
    out.  Either function keeps at most one timer running. *)
Inductive timer_event (A : Type) : Type :=
| Called (args : A)
| TimerFired.

Arguments Called {A} args.
Arguments TimerFired {A}.

Section RateLimiting.

Context {A : Type}.

(** [throttle]: the state is [inThrottle]; the result of a step is the
    new state and the calls of [func] made in that step. *)
Definition throttle_step (inThrottle : bool) (event : timer_event A) : bool * list A :=
  match event with
  | Called args => if negb inThrottle then (true, [args]%list) else (inThrottle, []%list)
  | TimerFired => (false, []%list)
  end.

Fixpoint throttle_run (inThrottle : bool) (events : list (timer_event A)) : list A :=
  match events with
  | [] => []
  | event :: events' =>
      let '(inThrottle', calls) := throttle_step inThrottle event in
      calls ++ throttle_run inThrottle' events'
  end.

(** [debounce]: the state is [timeout], the arguments that the running
    timer will use, or [None] when no timer is running. *)
Definition debounce_step (immediate : bool) (timeout : option A)
    (event : timer_event A) : option A * list A :=
  match event with
  | Called args =>
      let callNow := immediate && negb (bool_decide (is_Some timeout)) in
      (Some args, if callNow then [args]%list else []%list)
  | TimerFired =>
      match timeout with
      | Some args => (None, if negb immediate then [args]%list else []%list)
      | None => (None, []%list)
      end
  end.

Fixpoint debounce_run (immediate : bool) (timeout : option A)
    (events : list (timer_event A)) : list A :=
  match events with
  | [] => []
  | event :: events' =>
      let '(timeout', calls) := debounce_step immediate timeout event in
      calls ++ debounce_run immediate timeout' events'
  end.

End RateLimiting.

(** * More of js/constants.js: the validation rules *)

(** ** Regular expressions *)

(** The patterns of the validation rules use character classes,
    sequence, [?], [+] and counted repetition, and are anchored at both
    ends. *)
Inductive regex : Type :=
| Void
| Eps
| Class (p : ascii → bool)
| Cat (r1 r2 : regex)
| Alt (r1 r2 : regex)
| Star (r : regex).

Definition Chr (c : ascii) : regex := Class (λ x, bool_decide (x = c)).

(** [r?], [r+], [r{n}] and [r{0,n}]. *)
Definition Opt (r : regex) : regex := Alt Eps r.

Definition Plus (r : regex) : regex := Cat r (Star r).

Fixpoint Rep (n : nat) (r : regex) : regex :=
  match n with
  | O => Eps
  | S n' => Cat r (Rep n' r)
  end.

Fixpoint RepUpTo (n : nat) (r : regex) : regex :=
  match n with
  | O => Eps
  | S n' => Opt (Cat r (RepUpTo n' r))
  end.

(** Matching by derivatives: [deriv c r] matches what [r] matches after
    a first character [c]. *)
Fixpoint nullable (r : regex) : bool :=
  match r with
  | Void => false
  | Eps => true
  | Class _ => false
  | Cat r1 r2 => nullable r1 && nullable r2
  | Alt r1 r2 => nullable r1 || nullable r2
  | Star _ => true
  end.

Fixpoint deriv (c : ascii) (r : regex) : regex :=
  match r with
  | Void | Eps => Void
  | Class p => if p c then Eps else Void
  | Cat r1 r2 =>
      if nullable r1 then Alt (Cat (deriv c r1) r2) (deriv c r2)
      else Cat (deriv c r1) r2
  | Alt r1 r2 => Alt (deriv c r1) (deriv c r2)
  | Star r' => Cat (deriv c r') (Star r')
  end.

(** [/^r$/.test(s)]. *)
Fixpoint regex_test (r : regex) (s : string) : bool :=
  match s with
  | "" => nullable r
  | String c s' => regex_test (deriv c r) s'
  end.

(** The strings of a pattern, by the meaning of its operators. *)
Inductive Lang : regex → string → Prop :=
| Lang_Eps : Lang Eps ""
| Lang_Class (p : ascii → bool) (c : ascii) : p c = true → Lang (Class p) (String c "")
| Lang_Cat (r1 r2 : regex) (s1 s2 : string) :
    Lang r1 s1 → Lang r2 s2 → Lang (Cat r1 r2) (s1 +:+ s2)
| Lang_Alt_l (r1 r2 : regex) (s : string) : Lang r1 s → Lang (Alt r1 r2) s
| Lang_Alt_r (r1 r2 : regex) (s : string) : Lang r2 s → Lang (Alt r1 r2) s
| Lang_Star_nil (r : regex) : Lang (Star r) ""
| Lang_Star_cons (r : regex) (s1 s2 : string) :
    Lang r s1 → Lang (Star r) s2 → Lang (Star r) (s1 +:+ s2).

(** [\d], [[1-9]] and [[^\s@]]. *)
Definition is_nonzero_digit (c : ascii) : bool :=
  let n := N_of_ascii c in (49 <=? n)%N && (n <=? 57)%N.

Definition not_space_or_at (c : ascii) : bool :=
  negb (Ascii.is_space c) && negb (bool_decide (c = "@"%char)).

(** [/^[^\s@]+@[^\s@]+\.[^\s@]+$/] *)
Definition email_regex : regex :=
  Cat (Plus (Class not_space_or_at))
    (Cat (Chr "@")
       (Cat (Plus (Class not_space_or_at))
          (Cat (Chr ".") (Plus (Class not_space_or_at))))).

(** [/^[\+]?[1-9][\d]{0,15}$/] *)
Definition phone_regex : regex :=
  Cat (Opt (Chr "+")) (Cat (Class is_nonzero_digit) (RepUpTo 15 (Class is_digit))).

(** [/^\d{5}(-\d{4})?$/] *)
Definition zipCode_regex : regex :=
  Cat (Rep 5 (Class is_digit)) (Opt (Cat (Chr "-") (Rep 4 (Class is_digit)))).

(** [/^\d{3}-?\d{2}-?\d{4}$/] *)
Definition ssn_regex : regex :=
  Cat (Rep 3 (Class is_digit))
    (Cat (Opt (Chr "-"))
       (Cat (Rep 2 (Class is_digit))
          (Cat (Opt (Chr "-")) (Rep 4 (Class is_digit))))).

(** ** VALIDATION_RULES *)

(** The value of a rule in a rules object: a boolean such as
    [required: true], or a bound such as [min: 0]. *)
Inductive rule_value : Type :=
| RBoolean (b : bool)
| RNumber (n : number).

(** [Number(value)] for the value of a form field, and the number that a
    comparison makes of a rule value. *)
Definition Number_value (value : jsvalue) : number :=
  match value with
  | JNull => of_Z 0
  | JUndefined => NaN
  | JString s => Number_ s
  end.

Definition rule_number (v : rule_value) : number :=
  match v with
  | RBoolean true => of_Z 1
  | RBoolean false => of_Z 0
  | RNumber n => n
  end.

(** [x >= y] on numbers. *)
Definition js_ge (x y : number) : bool := js_le y x.

Module VALIDATION_RULES.

Definition required (value : jsvalue) : bool :=
  bool_decide (value ≠ JNull) && bool_decide (value ≠ JUndefined)
  && bool_decide (value ≠ JString "").

Definition min (value : jsvalue) (min : rule_value) : bool :=
  js_ge (Number_value value) (rule_number min).

Definition max (value : jsvalue) (max : rule_value) : bool :=
  js_le (Number_value value) (rule_number max).

Definition email (value : jsvalue) : bool := regex_test email_regex (String_ value).

Definition phone (value : jsvalue) : bool := regex_test phone_regex (String_ value).

Definition zipCode (value : jsvalue) : bool := regex_test zipCode_regex (String_ value).

Definition ssn (value : jsvalue) : bool := regex_test ssn_regex (String_ value).

End VALIDATION_RULES.

(** ** ERROR_MESSAGES *)

(** A message is a text or, for the two bounds, the text made from the
    bound of the rule. *)
Inductive message : Type :=
| Text (s : string)
| MIN_VALUE (min : rule_value)
| MAX_VALUE (max : rule_value).

Module ERROR_MESSAGES.

Definition REQUIRED : message := Text "This field is required".
Definition INVALID_EMAIL : message := Text "Please enter a valid email address".
Definition INVALID_PHONE : message := Text "Please enter a valid phone number".
Definition INVALID_ZIP : message := Text "Please enter a valid ZIP code".
Definition INVALID_SSN : message := Text "Please enter a valid Social Security Number".

End ERROR_MESSAGES.

(** ** utils.js: validateInput *)

Record validation : Type := Validation {
  isValid : bool;
  errors : list message
}.

(** One round of the loop over the entries of the rules object. *)
Definition validate_rule (value : jsvalue) (errors : list message)
    (entry : string * rule_value) : list message :=
  let '(rule, ruleValue) := entry in
  if bool_decide (rule = "required") && negb (VALIDATION_RULES.required value) then
    errors ++ [ERROR_MESSAGES.REQUIRED]
  else if bool_decide (rule = "min") && negb (VALIDATION_RULES.min value ruleValue) then
    errors ++ [MIN_VALUE ruleValue]
  else if bool_decide (rule = "max") && negb (VALIDATION_RULES.max value ruleValue) then
    errors ++ [MAX_VALUE ruleValue]
  else if bool_decide (rule = "email") && negb (VALIDATION_RULES.email value) then
    errors ++ [ERROR_MESSAGES.INVALID_EMAIL]
  else if bool_decide (rule = "phone") && negb (VALIDATION_RULES.phone value) then
    errors ++ [ERROR_MESSAGES.INVALID_PHONE]
  else if bool_decide (rule = "zipCode") && negb (VALIDATION_RULES.zipCode value) then
    errors ++ [ERROR_MESSAGES.INVALID_ZIP]
  else if bool_decide (rule = "ssn") && negb (VALIDATION_RULES.ssn value) then
    errors ++ [ERROR_MESSAGES.INVALID_SSN]
  else errors.

(** [rules] holds the entries of the rules object in the order of
    [Object.entries]; it is empty when the caller leaves the rules out. *)
Definition validateInput (value : jsvalue) (rules : list (string * rule_value))
  : validation :=
  let errors := foldl (validate_rule value) [] rules in
  {| isValid := bool_decide (length errors = 0%nat); errors := errors |}.

(** ** The shapes of the accepted texts *)

Fixpoint all_chars (p : ascii → bool) (s : string) : bool :=
  match s with
  | "" => true
  | String c r => p c && all_chars p r
  end.

Fixpoint remove_char (x : ascii) (s : string) : string :=
  match s with
  | "" => ""
  | String c r => if decide (c = x) then remove_char x r else String c (remove_char x r)
  end.

Fixpoint count_char (x : ascii) (s : string) : nat :=
  match s with
  | "" => 0
  | String c r => (if decide (c = x) then 1 else 0) + count_char x r
  end.

(** A phone number in words: an optional plus sign, then 1 to 16 digits
    of which the first is not 0. *)
Definition phone_shape (s : string) : bool :=
  let t := match s with String "+" r => r | _ => s end in
  match t with
  | String c r =>
      is_nonzero_digit c && all_digits r && bool_decide (String.length r ≤ 15)%nat
  | "" => false
  end.

(** ** Predicates on submitted forms and on names *)

(** The ZIP code of the form is missing or, once trimmed, does not have
    the form ddddd or ddddd-dddd. *)
Definition zip_invalid (formData : gmap string string) : Prop :=
  match formData !! "zipcode" with
  | Some z => zip_regex_test (trim z) = false
  | None => True
  end.

(** The text of the field starts with a number that is 0. *)
Definition zero_amount (v : jsvalue) : Prop :=
  ∃ s, v = JString s ∧ parseFloat (remove_commas s) = of_Z 0.

(** A name made of the letters a-z and A-Z only. *)
Fixpoint letters_only (s : string) : bool :=
  match s with
  | "" => true
  | String c r => (is_upper c || is_lower c) && letters_only r
  end.

Fixpoint count_upper (s : string) : nat :=
  match s with
  | "" => 0
  | String c r => (if is_upper c then 1 else 0) + count_upper r
  end.

(** The number of decimals that [toFixed] accepts: from 0 to 100 once the
    fraction is cut off, NaN counting as 0. *)
Definition fraction_digits_ok (d : number) : Prop :=
  match d with
  | NaN => True
  | Fin q => Qc_of_Z (-1) < q ∧ q < Qc_of_Z 101
  | _ => False
  end.

(** Text of code units below 128, on which the letter case and the white
    space of the model are those of JavaScript. *)
Definition is_ascii (c : ascii) : bool := (N_of_ascii c <? 128)%N.

Fixpoint ascii_only (s : string) : bool :=
  match s with
  | "" => true
  | String c r => is_ascii c && ascii_only r
  end.

Definition ascii_value (value : jsdata) : Prop :=
  match value with
  | DValue (JString s) => ascii_only s = true
  | _ => True
  end.

(** * Properties *)

(** ** Printing and reading digits *)

Lemma digit_char_spec (d : Z) :
  (0 ≤ d < 10)%Z → is_digit (digit_char d) = true ∧ digit_val (digit_char d) = d.
Proof.
  intros Hd.
  assert (d = 0 ∨ d = 1 ∨ d = 2 ∨ d = 3 ∨ d = 4 ∨ d = 5 ∨ d = 6 ∨ d = 7 ∨ d = 8 ∨ d = 9)%Z
    as Hc by lia.
  destruct_or!; subst d; done.
Qed.

Lemma digits_value_acc (s : string) (a : Z) :
  digits_value a s = (a * 10 ^ Z.of_nat (String.length s) + digits_value 0 s)%Z.
Proof.
  revert a. induction s as [|c r IH]; intros a; simpl.
  - lia.
  - rewrite IH, (IH (10 * 0 + digit_val c)%Z).
    rewrite Nat2Z.inj_succ, Z.pow_succ_r by lia. lia.
Qed.

Lemma digits_go_spec (fuel : nat) : ∀ (n : Z) (acc : string),
  (0 ≤ n < 10 ^ Z.of_nat (S fuel))%Z → all_digits acc = true →
  all_digits (digits_go fuel n acc) = true ∧
  digits_value 0 (digits_go fuel n acc)
    = (n * 10 ^ Z.of_nat (String.length acc) + digits_value 0 acc)%Z ∧
  (String.length acc < String.length (digits_go fuel n acc))%nat.
Proof.
  assert (Hone : ∀ n acc, (0 ≤ n < 10)%Z → all_digits acc = true →
    all_digits (String (digit_char (n mod 10)) acc) = true ∧
    digits_value 0 (String (digit_char (n mod 10)) acc)
      = (n * 10 ^ Z.of_nat (String.length acc) + digits_value 0 acc)%Z ∧
    (String.length acc < String.length (String (digit_char (n mod 10)) acc))%nat).
  { intros n acc Hn Hacc. rewrite Z.mod_small by lia.
    destruct (digit_char_spec n Hn) as [Hd Hv]. simpl.
    rewrite Hd, Hacc, digits_value_acc, Hv. split_and!; [done|lia|lia]. }
  induction fuel as [|k IH]; intros n acc Hn Hacc.
  - simpl digits_go. apply Hone; [|done]. change (Z.of_nat 1) with 1%Z in Hn. lia.
  - simpl digits_go. case_decide as Hq.
    + apply Hone; [|done].
      pose proof (Z.div_mod n 10 ltac:(lia)) as Hdm.
      pose proof (Z.mod_pos_bound n 10 ltac:(lia)). lia.
    + pose proof (Z.mod_pos_bound n 10 ltac:(lia)) as Hm.
      destruct (digit_char_spec (n mod 10) Hm) as [Hd Hv].
      destruct (IH (n / 10)%Z (String (digit_char (n mod 10)) acc)) as (H1 & H2 & H3).
      * split; [apply Z.div_pos; lia|].
        apply Z.div_lt_upper_bound; [lia|].
        rewrite Nat2Z.inj_succ, Z.pow_succ_r in Hn by lia. lia.
      * simpl. by rewrite Hd, Hacc.
      * split_and!; [done| |simpl in H3; lia].
        rewrite H2. cbn [String.length digits_value].
        rewrite (digits_value_acc acc), Hv.
        rewrite Nat2Z.inj_succ, Z.pow_succ_r by lia.
        pose proof (Z.div_mod n 10 ltac:(lia)) as Hdm. lia.
Qed.

Lemma decimal_digits_spec (n : Z) :
  (0 ≤ n)%Z →
  all_digits (decimal_digits n) = true ∧
  digits_value 0 (decimal_digits n) = n ∧
  (0 < String.length (decimal_digits n))%nat.
Proof.
  intros Hn. unfold decimal_digits.
  destruct (digits_go_spec (Z.to_nat (Z.log2 n)) n "") as (H1 & H2 & H3); [|done|].
  - split; [done|].
    rewrite Nat2Z.inj_succ, Z2Nat.id by apply Z.log2_nonneg.
    destruct (decide (n = 0)%Z) as [->|Hne]; [done|].
    pose proof (Z.log2_spec n ltac:(lia)) as [_ Hlt].
    eapply Z.lt_le_trans; [exact Hlt|].
    apply Z.pow_le_mono_l. pose proof (Z.log2_nonneg n). lia.
  - split_and!; [done| |simpl in H3; lia].
    rewrite H2. simpl. lia.
Qed.

Lemma app_cons (c : ascii) (a b : string) : String c a +:+ b = String c (a +:+ b).
Proof. done. Qed.

Lemma length_app (a b : string) :
  String.length (a +:+ b) = (String.length a + String.length b)%nat.
Proof. induction a as [|c a IH]; simpl; [done|]. by rewrite IH. Qed.

Lemma all_digits_app (a b : string) :
  all_digits (a +:+ b) = all_digits a && all_digits b.
Proof.
  induction a as [|c a IH]; simpl; [done|].
  rewrite IH. by destruct (is_digit c).
Qed.

Lemma digits_value_app (a b : string) (v : Z) :
  digits_value v (a +:+ b) = digits_value (digits_value v a) b.
Proof. revert v. induction a as [|c a IH]; intros v; simpl; [done|]. apply IH. Qed.

Lemma str_take_drop (k : nat) (m : string) : str_take k m +:+ str_drop k m = m.
Proof.
  revert m. induction k as [|k IH]; intros [|c m]; try done.
  cbn. by rewrite app_cons, IH.
Qed.

Lemma length_str_drop (k : nat) (m : string) :
  String.length (str_drop k m) = (String.length m - k)%nat.
Proof. revert m. induction k as [|k IH]; intros [|c m]; simpl; try done. Qed.

Lemma length_str_take (k : nat) (m : string) :
  (k ≤ String.length m)%nat → String.length (str_take k m) = k.
Proof.
  revert m. induction k as [|k IH]; intros [|c m]; simpl; try done; try lia.
  intros H. rewrite IH; [done|lia].
Qed.

Lemma length_repeat_char (c : ascii) (n : nat) : String.length (repeat_char c n) = n.
Proof. induction n as [|n IH]; simpl; [done|]. by rewrite IH. Qed.

Lemma all_digits_zeros (n : nat) : all_digits (repeat_char "0" n) = true.
Proof. induction n as [|n IH]; simpl; [done|]. by rewrite IH. Qed.

Lemma digits_value_zeros (n : nat) : digits_value 0 (repeat_char "0" n) = 0%Z.
Proof. induction n as [|n IH]; simpl; [done|]. exact IH. Qed.

Lemma take_digits_app (a r : string) :
  all_digits a = true → stops_digits r → take_digits (a +:+ r) = (a, r).
Proof.
  intros Ha Hr. induction a as [|c a IH]; simpl.
  - destruct r as [|c r]; simpl; [done|]. simpl in Hr. by rewrite Hr.
  - simpl in Ha. apply andb_true_iff in Ha as [Hc Ha].
    rewrite Hc, (IH Ha). done.
Qed.

Lemma digit_not_space (c : ascii) : is_digit c = true → Ascii.is_space c = false.
Proof.
  unfold is_digit. intros H%bool_decide_eq_true.
  destruct (Ascii.is_space c) eqn:Hs; [|done].
  exfalso. destruct H as [n Hn].
  destruct c as [[] [] [] [] [] [] [] []]; try discriminate Hs; discriminate Hn.
Qed.

Lemma all_digits_no_space (s : string) : all_digits s = true → no_space s = true.
Proof.
  induction s as [|c s IH]; simpl; [done|].
  intros [Hc Hs]%andb_true_iff. by rewrite (digit_not_space c Hc), IH.
Qed.

Lemma no_space_app (a b : string) : no_space (a +:+ b) = no_space a && no_space b.
Proof.
  induction a as [|c a IH]; simpl; [done|].
  rewrite IH. by destruct (Ascii.is_space c).
Qed.

Lemma trim_start_no_space (s : string) : no_space s = true → trim_start s = s.
Proof. destruct s as [|c s]; simpl; [done|]. by destruct (Ascii.is_space c). Qed.

Lemma trim_end_no_space (s : string) : no_space s = true → trim_end s = s.
Proof.
  induction s as [|c s IH]; simpl; [done|].
  intros [Hc Hs]%andb_true_iff. rewrite (IH Hs).
  destruct (Ascii.is_space c); [done|]. by case_decide; subst.
Qed.

Lemma trim_no_space (s : string) : no_space s = true → trim s = s.
Proof.
  intros H. unfold trim. rewrite trim_start_no_space by done.
  by apply trim_end_no_space.
Qed.

Lemma app_empty_r (a : string) : a +:+ "" = a.
Proof. induction a as [|c a IH]; [done|]. by rewrite app_cons, IH. Qed.

Lemma take_digits_all (a : string) : all_digits a = true → take_digits a = (a, "").
Proof. intros Ha. rewrite <-(app_empty_r a) at 1. by apply take_digits_app. Qed.

Lemma strip_prefix_Infinity_digit (c : ascii) (r : string) :
  is_digit c = true → str_strip_prefix "Infinity" (String c r) = None.
Proof. intros Hc. simpl. case_decide; [by subst|done]. Qed.

Lemma scan_unsigned_int (ip : string) :
  all_digits ip = true → ip ≠ "" →
  scan_unsigned ip = Some (Fin (Qc_of_Z (digits_value 0 ip) * pow10 0), "").
Proof.
  intros Hip Hne. unfold scan_unsigned.
  destruct ip as [|c ip']; [done|].
  pose proof Hip as [Hc _]%andb_true_iff.
  rewrite strip_prefix_Infinity_digit by done.
  rewrite take_digits_all by done.
  by rewrite decide_False by done.
Qed.

Lemma scan_unsigned_point (ip fp : string) :
  all_digits ip = true → ip ≠ "" → all_digits fp = true →
  scan_unsigned (ip +:+ "." +:+ fp)
  = Some (Fin (Qc_of_Z (digits_value 0 (ip +:+ fp))
               * pow10 (0 - Z.of_nat (String.length fp))), "").
Proof.
  intros Hip Hne Hfp. unfold scan_unsigned.
  destruct ip as [|c ip']; [done|].
  pose proof Hip as [Hc _]%andb_true_iff.
  rewrite app_cons, strip_prefix_Infinity_digit by done.
  rewrite <-app_cons, take_digits_app by done.
  change ("." +:+ fp) with (String "."%char fp). cbv iota.
  rewrite decide_True by done.
  rewrite take_digits_all by done.
  rewrite decide_False by (by intros [? _]).
  done.
Qed.

(** Reading back a numeral made of an optional minus sign and digits with
    at most one point. *)
Lemma Number_signed (neg : bool) (m : string) (v : Qc) :
  no_space m = true →
  (∃ c r, m = String c r ∧ is_digit c = true) →
  scan_unsigned m = Some (Fin v, "") →
  Number_ ((if neg then "-" else "") +:+ m) = Fin (if neg then - v else v).
Proof.
  intros Hns (c & r & -> & Hc) Hscan. unfold Number_.
  destruct neg.
  - change ("-" +:+ String c r) with (String "-"%char (String c r)).
    rewrite trim_no_space by (change (no_space (String c r) = true); done).
    rewrite decide_False by done. unfold scan_decimal.
    rewrite decide_False, decide_True by done.
    by rewrite Hscan.
  - change ("" +:+ String c r) with (String c r).
    rewrite trim_no_space by done.
    rewrite decide_False by done. unfold scan_decimal.
    rewrite !decide_False by (intros ->; done).
    by rewrite Hscan.
Qed.

(** ** Rounding *)

Lemma Qc_floor_nonneg (x : Qc) : 0 <= x → (0 ≤ Qc_floor x)%Z.
Proof.
  intros H. unfold Qc_floor.
  transitivity (Qfloor 0%Q); [done|].
  apply Qfloor_resp_le.
  apply Qle_trans with (this (Q2Qc 0)); [by vm_compute|exact H].
Qed.

Lemma half_scaled_nonneg (a p : Qc) : 0 <= a → 0 <= p → 0 <= a * p + Q2Qc (1 # 2).
Proof.
  intros Ha Hp. replace 0 with (0 + 0) by ring.
  apply Qcplus_le_compat; [|done].
  by apply Qcmult_nonneg_nonneg.
Qed.


Lemma pow10_pos (f : Z) : 0 < pow10 f.
Proof.
  assert (Hn : ∀ n : nat, 0 < Qc_of_Z 10 ^ n).
  { induction n as [|n IH]; simpl; [done|]. by apply Qcmult_pos_pos. }
  unfold pow10, Qc_zpow. destruct f; [done|apply Hn|apply Qcinv_pos, Hn].
Qed.

Lemma pow10_ne_0 (f : Z) : pow10 f ≠ 0.
Proof. intros E. pose proof (pow10_pos f) as H. rewrite E in H. by apply Qclt_not_eq in H. Qed.

Lemma pow10_opp (f : Z) : pow10 f * pow10 (- f) = 1.
Proof.
  destruct f as [|p|p].
  - apply Qc_is_canon. reflexivity.
  - apply Qcmult_inv_r, (pow10_ne_0 (Z.pos p)).
  - apply Qcmult_inv_l, (pow10_ne_0 (Z.pos p)).
Qed.

Lemma Qc_floor_spec (x : Qc) :
  Qc_of_Z (Qc_floor x) <= x ∧ x < Qc_of_Z (Qc_floor x) + 1.
Proof.
  split.
  - exact (Qfloor_le x).
  - rewrite <-Z2Qc_inj_1, <-Z2Qc_inj_add. exact (Qlt_floor x).
Qed.

Lemma Qc_half_double : Q2Qc (1 # 2) + Q2Qc (1 # 2) = 1.
Proof. apply Qc_is_canon. reflexivity. Qed.

(** The integer nearest to [x], the larger one on a tie, is within a half
    of [x], and exactly a half away only from above. *)
Lemma nearest_integer (x : Qc) :
  let d := Qc_of_Z (Qc_floor (x + Q2Qc (1 # 2))) - x in
  Qcabs d <= Q2Qc (1 # 2) ∧ (Qcabs d = Q2Qc (1 # 2) → d = Q2Qc (1 # 2)).
Proof.
  intros d. destruct (Qc_floor_spec (x + Q2Qc (1 # 2))) as [Hlo Hhi].
  set (n := Qc_of_Z (Qc_floor (x + Q2Qc (1 # 2)))) in *.
  assert (Hd1 : d <= Q2Qc (1 # 2)).
  { unfold d. apply (Qcplus_le_mono_r _ _ x).
    replace (n - x + x) with n by ring. by rewrite (Qcplus_comm _ x). }
  assert (Hd2 : - Q2Qc (1 # 2) < d).
  { unfold d. apply (Qcplus_lt_mono_r _ _ (x + 1)).
    replace (n - x + (x + 1)) with (n + 1) by ring.
    replace (- Q2Qc (1 # 2) + (x + 1)) with (x + (- Q2Qc (1 # 2) + 1)) by ring.
    replace (- Q2Qc (1 # 2) + 1) with (Q2Qc (1 # 2)); [done|].
    rewrite <-Qc_half_double. ring. }
  split.
  - apply Qcabs_Qcle_condition. split; [by apply Qclt_le_weak|done].
  - intros E. revert E. apply (Qcabs_case d); [done|].
    intros Hneg E. exfalso. apply (Qclt_not_eq _ _ Hd2).
    rewrite <-E. ring.
Qed.

Lemma fixed_value_rounds (f : Z) (q : Qc) : rounds_half_away f q (fixed_value f q).
Proof.
  set (u := pow10 f). set (iu := pow10 (- f)).
  assert (Hu : u * iu = 1) by apply pow10_opp.
  assert (Hiu : 0 < iu) by apply pow10_pos.
  set (a := Qcabs q).
  set (z := Qc_floor (a * u + Q2Qc (1 # 2))).
  set (n := Qc_of_Z z).
  set (d := n - a * u).
  destruct (nearest_integer (a * u)) as [Hd Htie]. fold z n d in Hd, Htie.
  assert (Ha : a = a * u * iu) by (rewrite <-Qcmult_assoc, Hu; ring).
  assert (Hn : 0 <= n).
  { unfold n. rewrite <-Z2Qc_inj_0. apply (proj1 (Z2Qc_inj_le _ _)).
    apply Qc_floor_nonneg, half_scaled_nonneg;
      [apply Qcabs_nonneg|apply Qclt_le_weak, pow10_pos]. }
  assert (Hy : ∃ s : Z, fixed_value f q = Qc_of_Z s * iu ∧
                Qcabs (fixed_value f q - q) = Qcabs d * iu ∧
                Qcabs (fixed_value f q) = n * iu).
  { unfold fixed_value. fold u a z n iu. destruct (decide (q < 0)) as [Hq|Hq].
    - exists (- z)%Z. split; [by rewrite Z2Qc_inj_opp|].
      assert (Hqa : q = - a).
      { unfold a. rewrite Qcabs_neg by by apply Qclt_le_weak. ring. }
      split.
      + replace (- n * iu - q) with (- (d * iu)).
        { rewrite Qcabs_opp, Qcabs_Qcmult. f_equal. by apply Qcabs_pos, Qclt_le_weak. }
        rewrite Hqa. unfold d. rewrite Ha at 2. ring.
      + replace (- n * iu) with (- (n * iu)) by ring.
        rewrite Qcabs_opp. apply Qcabs_pos, Qcmult_nonneg_nonneg; [done|].
        by apply Qclt_le_weak.
    - exists z. split; [done|].
      assert (Hqa : q = a).
      { unfold a. by rewrite Qcabs_pos by by apply Qcnot_lt_le. }
      split.
      + replace (n * iu - q) with (d * iu).
        { rewrite Qcabs_Qcmult. f_equal. by apply Qcabs_pos, Qclt_le_weak. }
        rewrite Hqa. unfold d. rewrite Ha at 2. ring.
      + apply Qcabs_pos, Qcmult_nonneg_nonneg; [done|]. by apply Qclt_le_weak. }
  destruct Hy as (s & Hs & Hdiff & Habs).
  assert (Hhalf : iu / 2 = Q2Qc (1 # 2) * iu).
  { unfold Qcdiv. rewrite Qcmult_comm. by f_equal. }
  unfold rounds_half_away, rounds_to. fold iu.
  split; [split|].
  - by exists s.
  - rewrite Hdiff, Hhalf. apply Qcmult_le_mono_nonneg_r; [by apply Qclt_le_weak|done].
  - rewrite Hdiff, Hhalf, Habs. intros E.
    assert (Hd' : Qcabs d = Q2Qc (1 # 2)).
    { destruct (Qcle_lt_or_eq _ _ Hd) as [Hlt|]; [|done].
      apply (Qcmult_lt_mono_pos_r _ _ iu Hiu) in Hlt. rewrite E in Hlt.
      by apply Qclt_not_eq in Hlt. }
    apply Htie in Hd'. fold a. rewrite Ha.
    apply Qcmult_lt_mono_pos_r; [done|].
    replace n with (a * u + d) by (unfold d; ring). rewrite Hd'.
    rewrite <-(Qcplus_0_r (a * u)) at 1. by apply Qcplus_lt_mono_l.
Qed.

(** ** Rounding half away from zero names one value *)

Lemma this_plus (x y : Qc) : (this (x + y) == this x + this y)%Q.
Proof. apply Qred_correct. Qed.
Lemma this_mult (x y : Qc) : (this (x * y) == this x * this y)%Q.
Proof. apply Qred_correct. Qed.
Lemma this_opp (x : Qc) : (this (- x) == - this x)%Q.
Proof. apply Qred_correct. Qed.
Lemma this_half : (this (Q2Qc (1 # 2)) == 1 # 2)%Q.
Proof. reflexivity. Qed.
Lemma this_eq (x y : Qc) : x = y → (this x == this y)%Q.
Proof. by intros ->. Qed.

(** Linear arithmetic on canonical rationals, through [Q]. *)
Ltac qc_lra :=
  unfold Qcminus in *;
  repeat match goal with
  | H : @eq Qc _ _ |- _ => apply this_eq in H
  | |- @eq Qc _ _ => apply Qc_is_canon
  end;
  unfold Qcle, Qclt in *;
  repeat match goal with
  | H : context [this (_ + _)] |- _ => rewrite this_plus in H
  | H : context [this (_ * _)] |- _ => rewrite this_mult in H
  | H : context [this (- _)] |- _ => rewrite this_opp in H
  | H : context [this (Q2Qc (1 # 2))] |- _ => rewrite this_half in H
  | H : context [this (Q2Qc 0)] |- _ => change (this (Q2Qc 0)) with 0%Q in H
  | H : context [this (Q2Qc 1)] |- _ => change (this (Q2Qc 1)) with 1%Q in H
  | |- context [this (_ + _)] => rewrite this_plus
  | |- context [this (_ * _)] => rewrite this_mult
  | |- context [this (- _)] => rewrite this_opp
  | |- context [this (Q2Qc (1 # 2))] => rewrite this_half
  | |- context [this (Q2Qc 0)] => change (this (Q2Qc 0)) with 0%Q
  | |- context [this (Q2Qc 1)] => change (this (Q2Qc 1)) with 1%Q
  end;
  lra.

Lemma half_unit (u : Qc) : u / 2 = Q2Qc (1 # 2) * u.
Proof. unfold Qcdiv. rewrite Qcmult_comm. by f_equal. Qed.

(** Two candidates on different multiples of the unit cannot both be
    roundings half away from zero of the same value. *)
Lemma rounds_half_away_apart (u x : Qc) (n1 n2 : Z) :
  0 < u → (n1 < n2)%Z →
  Qcabs (Qc_of_Z n1 * u - x) <= u / 2 →
  (Qcabs (Qc_of_Z n1 * u - x) = u / 2 → Qcabs x < Qcabs (Qc_of_Z n1 * u)) →
  Qcabs (Qc_of_Z n2 * u - x) <= u / 2 →
  (Qcabs (Qc_of_Z n2 * u - x) = u / 2 → Qcabs x < Qcabs (Qc_of_Z n2 * u)) →
  False.
Proof.
  intros Hu Hn. rewrite half_unit.
  set (y1 := Qc_of_Z n1 * u). set (y2 := Qc_of_Z n2 * u).
  intros Hle1 Htie1 Hle2 Htie2.
  apply Qcabs_Qcle_condition in Hle1 as [Hlo1 Hhi1].
  apply Qcabs_Qcle_condition in Hle2 as [Hlo2 Hhi2].
  assert (Hstep : y1 + u <= y2).
  { unfold y1, y2. replace (Qc_of_Z n1 * u + u) with (Qc_of_Z (n1 + 1) * u)
      by (rewrite Z2Qc_inj_add, Z2Qc_inj_1; ring).
    apply Qcmult_le_mono_nonneg_r; [by apply Qclt_le_weak|].
    apply (proj1 (Z2Qc_inj_le _ _)). lia. }
  assert (Hx1 : x = y1 + Q2Qc (1 # 2) * u) by qc_lra.
  assert (Hx2 : x = y2 - Q2Qc (1 # 2) * u) by qc_lra.
  assert (Hy : y2 = y1 + u) by qc_lra.
  assert (Hd1 : Qcabs (y1 - x) = Q2Qc (1 # 2) * u).
  { rewrite Qcabs_neg by qc_lra. qc_lra. }
  assert (Hd2 : Qcabs (y2 - x) = Q2Qc (1 # 2) * u).
  { rewrite Qcabs_pos by qc_lra. qc_lra. }
  specialize (Htie1 Hd1). specialize (Htie2 Hd2).
  destruct (decide (0 ≤ n1)%Z) as [Hpos|Hneg].
  - assert (H0 : 0 <= y1).
    { apply Qcmult_nonneg_nonneg; [|by apply Qclt_le_weak].
      rewrite <-Z2Qc_inj_0. by apply (proj1 (Z2Qc_inj_le _ _)). }
    rewrite (Qcabs_pos y1), (Qcabs_pos x) in Htie1 by qc_lra. qc_lra.
  - assert (H0 : y1 + u <= 0).
    { unfold y1. replace (Qc_of_Z n1 * u + u) with (Qc_of_Z (n1 + 1) * u)
        by (rewrite Z2Qc_inj_add, Z2Qc_inj_1; ring).
      rewrite <-(Qcmult_0_l u).
      apply Qcmult_le_mono_nonneg_r; [by apply Qclt_le_weak|].
      rewrite <-Z2Qc_inj_0. apply (proj1 (Z2Qc_inj_le _ _)). lia. }
    rewrite (Qcabs_neg y2), (Qcabs_neg x) in Htie2 by qc_lra. qc_lra.
Qed.

(** Rounding half away from zero has one result. *)
Lemma rounds_half_away_unique (d : Z) (x y1 y2 : Qc) :
  rounds_half_away d x y1 → rounds_half_away d x y2 → y1 = y2.
Proof.
  intros [[[n1 ->] Hle1] Htie1] [[[n2 ->] Hle2] Htie2].
  pose proof (pow10_pos (- d)) as Hu.
  destruct (Z.lt_trichotomy n1 n2) as [Hlt|[->|Hgt]]; [|done|].
  - exfalso. by apply (rounds_half_away_apart (pow10 (- d)) x n1 n2).
  - exfalso. by apply (rounds_half_away_apart (pow10 (- d)) x n2 n1).
Qed.

(** ** toFixed followed by Number *)

Lemma ToIntegerOrInfinity_of_Z (f : Z) : ToIntegerOrInfinity (of_Z f) = of_Z f.
Proof. unfold of_Z. simpl. by rewrite Z.quot_1_r. Qed.

(** [Number(x.toFixed(f))] for a finite [x] and a valid digit count. *)
Lemma Number_toFixed (q : Qc) (f : Z) :
  (0 ≤ f ≤ 100)%Z →
  ∃ s, toFixed (Fin q) (of_Z f) = Normal s ∧ Number_ s = Fin (fixed_value f q).
Proof.
  intros Hf. unfold toFixed. rewrite ToIntegerOrInfinity_of_Z.
  unfold of_Z. cbv beta iota zeta.
  change (Qc_to_Z (Qc_of_Z f)) with f.
  rewrite decide_False by lia.
  set (n := Qc_floor (Qcabs q * pow10 f + Q2Qc (1 # 2))).
  assert (Hn : (0 ≤ n)%Z).
  { apply Qc_floor_nonneg, half_scaled_nonneg; [apply Qcabs_nonneg|apply Qclt_le_weak, pow10_pos]. }
  destruct (decimal_digits_spec n Hn) as (Hd & Hv & Hl).
  eexists; split; [reflexivity|].
  assert (Hgoal : ∀ m v,
    no_space m = true → (∃ c r, m = String c r ∧ is_digit c = true) →
    scan_unsigned m = Some (Fin v, "") → v = Qc_of_Z n * pow10 (- f) →
    Number_ ((if decide (q < 0) then "-" else "") +:+ m) = Fin (fixed_value f q)).
  { intros m v H1 H2 H3 ->. unfold fixed_value. fold n.
    destruct (decide (q < 0)).
    - rewrite (Number_signed true m _ H1 H2 H3). f_equal. ring.
    - by rewrite (Number_signed false m _ H1 H2 H3). }
  destruct (decide (f = 0)%Z) as [Hf0|Hf0].
  - apply (Hgoal _ (Qc_of_Z n * pow10 0)).
    + by apply all_digits_no_space.
    + destruct (decimal_digits n) as [|c r]; [simpl in Hl; lia|].
      apply andb_true_iff in Hd as [Hc _]. by exists c, r.
    + rewrite scan_unsigned_int, Hv; [done|done|].
      intros E. rewrite E in Hl. simpl in Hl. lia.
    + by rewrite Hf0.
  - set (fd := Z.to_nat f).
    set (m' := if decide (String.length (decimal_digits n) ≤ fd)%nat
               then repeat_char "0" (fd + 1 - String.length (decimal_digits n))
                    +:+ decimal_digits n
               else decimal_digits n).
    assert (Hd' : all_digits m' = true).
    { unfold m'. destruct (decide (_ ≤ _)%nat); [|done].
      by rewrite all_digits_app, all_digits_zeros. }
    assert (Hv' : digits_value 0 m' = n).
    { unfold m'. destruct (decide (_ ≤ _)%nat); [|done].
      by rewrite digits_value_app, digits_value_zeros. }
    assert (Hl' : (fd < String.length m')%nat).
    { unfold m'. destruct (decide (_ ≤ _)%nat); [|lia].
      rewrite length_app, length_repeat_char. lia. }
    set (a := str_take (String.length m' - fd) m').
    set (b := str_drop (String.length m' - fd) m').
    assert (Hab : a +:+ b = m') by apply str_take_drop.
    assert (Hla : String.length a = (String.length m' - fd)%nat).
    { apply length_str_take. lia. }
    assert (Hlb : String.length b = fd).
    { unfold b. rewrite length_str_drop. lia. }
    assert (Ha : all_digits a = true ∧ all_digits b = true).
    { apply andb_true_iff. by rewrite <-all_digits_app, Hab. }
    destruct Ha as [Ha Hb].
    apply (Hgoal _ (Qc_of_Z n * pow10 (0 - Z.of_nat fd))).
    + rewrite !no_space_app, (all_digits_no_space a), (all_digits_no_space b) by done.
      done.
    + destruct a as [|c r]; [simpl in Hla; lia|].
      apply andb_true_iff in Ha as [Hc _]. exists c. eexists. by rewrite app_cons.
    + rewrite scan_unsigned_point, Hab, Hv', Hlb; [done|done| |done].
      intros E. rewrite E in Hla. simpl in Hla. lia.
    + unfold fd. rewrite Z2Nat.id by lia. by rewrite Z.sub_0_l.
Qed.

(** ** Closed equations *)

(** Closed equations between rationals, numbers and completions. *)
Ltac qc_closed := apply Qc_is_canon; vm_compute; reflexivity.
Ltac num_closed :=
  unfold of_Z, lit;
  first [ reflexivity
        | qc_closed
        | apply (f_equal Fin); qc_closed
        | apply (f_equal Normal), (f_equal Fin); qc_closed ].

(** A completion is a given finite number when it evaluates to it. *)
Lemma completion_Fin_closed (c : completion number) (q : Qc) :
  match c with Normal (Fin x) => Qeq_bool x q | _ => false end = true →
  c = Normal (Fin q).
Proof.
  destruct c as [[| | |x]|]; try done.
  intros H%Qeq_bool_eq. do 2 f_equal. by apply Qc_is_canon.
Qed.

(** ** Worked values *)

Example parseFloat_prefix : parseFloat "12abc" = of_Z 12.
Proof. num_closed. Qed.

Example parseFloat_no_number : parseFloat "abc" = NaN.
Proof. reflexivity. Qed.

Example parseFloat_exponent : parseFloat "  -2.5e1 dollars" = of_Z (-25).
Proof. num_closed. Qed.

Example Number_prefix : Number_ "12abc" = NaN.
Proof. reflexivity. Qed.

Example sanitizeNumber_commas : sanitizeNumber (JString "1,234.5") None = lit 12345 10.
Proof. num_closed. Qed.

Example sanitizeNumber_missing : sanitizeNumber JNull None = of_Z 0.
Proof. reflexivity. Qed.

Example toFixed_tie : toFixed (lit 9 8) (of_Z 2) = Normal "1.13".
Proof. reflexivity. Qed.

Example toFixed_negative_tie : toFixed (lit (-9) 8) (of_Z 2) = Normal "-1.13".
Proof. reflexivity. Qed.

Example toFixed_pads : toFixed (lit 1 200) (of_Z 3) = Normal "0.005".
Proof. reflexivity. Qed.

Example toFixed_range : toFixed (of_Z 1) (of_Z 101) = Throw RangeError.
Proof. reflexivity. Qed.

Example calculatePercentage_housing :
  calculatePercentage (of_Z 1500) (of_Z 2000) None = Normal (of_Z 75).
Proof. apply completion_Fin_closed. vm_compute. reflexivity. Qed.

Example calculateCompoundInterest_ten_years :
  calculateCompoundInterest pow_real_NaN (of_Z 1000) (lit 5 100) (of_Z 10) None
  = Normal (lit 162889 100).
Proof. apply completion_Fin_closed. vm_compute. reflexivity. Qed.

Example calculateMonthlyPayment_two_months :
  calculateMonthlyPayment pow_real_NaN (of_Z 1000) (lit 12 100) (of_Z 2)
  = Normal (lit 50751 100).
Proof. apply completion_Fin_closed. vm_compute. reflexivity. Qed.

Example calculateMonthlyPayment_no_term :
  calculateMonthlyPayment pow_real_NaN (of_Z 1000) (lit 5 100) (of_Z 0) = Normal PosInf.
Proof. reflexivity. Qed.

Example zip_regex_test_plus4 : zip_regex_test "12345-6789" = true.
Proof. reflexivity. Qed.

Example zip_regex_test_short : zip_regex_test "1234" = false.
Proof. reflexivity. Qed.

(** ** Rounding through toFixed *)

(** [Number(x.toFixed(f))] for every number. *)
Lemma Number_toFixed_number (x : number) (f : Z) :
  (0 ≤ f ≤ 100)%Z →
  (s ← toFixed x (of_Z f); mret (Number_ s)) = Normal (round_number f x).
Proof.
  intros Hf. destruct x as [| | |q].
  1-3: unfold toFixed; rewrite ToIntegerOrInfinity_of_Z; unfold of_Z;
       cbv beta iota zeta; change (Qc_to_Z (Qc_of_Z f)) with f;
       rewrite decide_False by lia; reflexivity.
  destruct (Number_toFixed q f Hf) as (s & -> & Hs).
  cbn. by rewrite Hs.
Qed.

Lemma round_number_rounds (f : Z) (x : number) : rounds_number f x (round_number f x).
Proof.
  destruct x as [| | |q]; simpl; try done.
  eexists; split; [done|]. apply fixed_value_rounds.
Qed.

Lemma js_strict_eq_0 (q : Qc) : (Fin q === of_Z 0)%js = bool_decide (q = 0).
Proof.
  unfold js_strict_eq, of_Z. rewrite Z2Qc_inj_0.
  destruct (decide (q = 0)) as [->|Hne].
  - by rewrite !bool_decide_eq_true_2.
  - rewrite !bool_decide_eq_false_2; [done|done|]. by intros [= E].
Qed.
Lemma Qc_floor_unique (x : Qc) (m : Z) :
  Qc_of_Z m <= x → x < Qc_of_Z m + 1 → Qc_floor x = m.
Proof.
  intros Hlo Hhi. destruct (Qc_floor_spec x) as [Hlo' Hhi'].
  assert (H1 : (Qc_floor x < m + 1)%Z).
  { apply Z2Qc_inj_lt. rewrite Z2Qc_inj_add, Z2Qc_inj_1.
    by apply Qcle_lt_trans with x. }
  assert (H2 : (m < Qc_floor x + 1)%Z).
  { apply Z2Qc_inj_lt. rewrite Z2Qc_inj_add, Z2Qc_inj_1.
    by apply Qcle_lt_trans with x. }
  lia.
Qed.

Lemma Qcabs_of_Z (k : Z) : Qcabs (Qc_of_Z k) = Qc_of_Z (Z.abs k).
Proof.
  destruct (Z.abs_spec k) as [[Hk ->]|[Hk ->]].
  - apply Qcabs_pos. rewrite <-Z2Qc_inj_0. by apply (proj1 (Z2Qc_inj_le _ _)).
  - rewrite Z2Qc_inj_opp. apply Qcabs_neg.
    rewrite <-Z2Qc_inj_0. apply (proj1 (Z2Qc_inj_le _ _)). lia.
Qed.

(** A value that already has [f] decimals is left as it is. *)
Lemma fixed_value_exact (f k : Z) :
  fixed_value f (Qc_of_Z k * pow10 (- f)) = Qc_of_Z k * pow10 (- f).
Proof.
  set (u := pow10 f). set (iu := pow10 (- f)).
  assert (Hu : iu * u = 1) by (rewrite Qcmult_comm; apply pow10_opp).
  assert (Hiu : 0 < iu) by apply pow10_pos.
  unfold fixed_value. fold u iu.
  assert (Hfl : Qc_floor (Qcabs (Qc_of_Z k * iu) * u + Q2Qc (1 # 2)) = Z.abs k).
  { apply Qc_floor_unique.
    - rewrite Qcabs_Qcmult, (Qcabs_pos iu), Qcabs_of_Z by by apply Qclt_le_weak.
      rewrite <-Qcmult_assoc, Hu, Qcmult_1_r.
      rewrite <-(Qcplus_0_r (Qc_of_Z (Z.abs k))) at 1.
      by apply Qcplus_le_mono_l.
    - rewrite Qcabs_Qcmult, (Qcabs_pos iu), Qcabs_of_Z by by apply Qclt_le_weak.
      rewrite <-Qcmult_assoc, Hu, Qcmult_1_r.
      by apply Qcplus_lt_mono_l. }
  rewrite Hfl. f_equal.
  destruct (decide (Qc_of_Z k * iu < 0)) as [Hneg|Hpos].
  - rewrite <-Z2Qc_inj_opp. f_equal.
    assert (k < 0)%Z; [|lia].
    apply Z2Qc_inj_lt. rewrite Z2Qc_inj_0.
    apply (Qcmult_lt_mono_pos_r _ _ iu Hiu). by rewrite Qcmult_0_l.
  - f_equal. assert (0 ≤ k)%Z; [|lia].
    apply Z2Qc_inj_le. rewrite Z2Qc_inj_0.
    apply (Qcmult_le_mono_pos_r _ _ iu Hiu). rewrite Qcmult_0_l.
    by apply Qcnot_lt_le.
Qed.

(** ** Math.pow at the exponents of the formulas *)

Section GrowthFacts.

Variable pow_real : Qc -> Qc -> number.
Lemma Qcpower_gt_1 (b : Qc) (n : nat) : 1 < b → (0 < n)%nat → 1 < b ^ n.
Proof.
  intros Hb Hn. destruct n as [|n]; [lia|]. clear Hn.
  induction n as [|n IH].
  - simpl. by rewrite Qcmult_1_r.
  - change (b ^ S (S n)) with (b * b ^ S n).
    apply Qclt_trans with (1 * b ^ S n); [by rewrite Qcmult_1_l|].
    apply Qcmult_lt_compat_r; [|done]. by apply Qclt_trans with 1.
Qed.

Lemma is_integral_of_Z (n : Z) : is_integral (Qc_of_Z n) = true.
Proof. done. Qed.

(** [Math.pow] at a whole, positive exponent is the exact power. *)
Lemma Math_pow_pos (b : Qc) (n : Z) :
  (0 < n)%Z → Math_pow pow_real (Fin b) (of_Z n) = Fin (b ^ Z.to_nat n).
Proof.
  intros Hn. unfold Math_pow, of_Z.
  rewrite decide_False.
  2:{ rewrite <-Z2Qc_inj_0. intros E%Z2Qc_inj. lia. }
  destruct (decide (b = 0)) as [->|Hb].
  - rewrite decide_True.
    2:{ rewrite <-Z2Qc_inj_0. apply (proj1 (Z2Qc_inj_lt _ _)). lia. }
    rewrite Qcpower_0; [done|lia].
  - rewrite is_integral_of_Z. change (Qc_to_Z (Qc_of_Z n)) with n.
    destruct n as [|p|p]; [lia| |lia]. done.
Qed.
Lemma Math_pow_nat (b : Qc) (N : nat) :
  Math_pow pow_real (Fin b) (of_Z (Z.of_nat N)) = Fin (b ^ N).
Proof.
  destruct N as [|N].
  - unfold Math_pow, of_Z. change (Z.of_nat 0) with 0%Z.
    by rewrite Z2Qc_inj_0, decide_True.
  - rewrite Math_pow_pos by lia. by rewrite Nat2Z.id.
Qed.

Lemma Qc_zpow_1 (z : Z) : Qc_zpow 1 z = 1.
Proof.
  destruct z as [|p|p]; simpl; [done|apply Qcpower_1|].
  rewrite Qcpower_1. apply Qc_is_canon. reflexivity.
Qed.

(** A power of 1 is 1, whatever the finite exponent. *)
Lemma Math_pow_one (e : Qc) : Math_pow pow_real (Fin 1) (Fin e) = Fin 1.
Proof.
  unfold Math_pow. destruct (decide (e = 0)); [done|].
  rewrite decide_False by done.
  destruct (is_integral e); [by rewrite Qc_zpow_1|].
  rewrite decide_False by done. by rewrite decide_True.
Qed.

Lemma Math_pow_zero (b : number) : Math_pow pow_real b (Fin 0) = Fin 1.
Proof. unfold Math_pow. by rewrite decide_True. Qed.

(** ** calculateMonthlyPayment *)


(** C4.  With an annual rate of 0, a positive principal and a positive
    term, calculateMonthlyPayment returns [principal / months]; for a
    principal of 1000 over 10 months that is exactly 100. *)
Theorem calculateMonthlyPayment_zero_rate (principal months : Qc) :
  0 < principal → 0 < months →
  calculateMonthlyPayment pow_real (Fin principal) (of_Z 0) (Fin months)
    = Normal (Fin (principal / months)) ∧
  calculateMonthlyPayment pow_real (of_Z 1000) (of_Z 0) (of_Z 10) = Normal (of_Z 100).
Proof.
  intros Hp Hm. split.
  - unfold calculateMonthlyPayment. change (of_Z 0 === of_Z 0)%js with true.
    cbn. rewrite decide_False; [done|]. intros ->. by apply Qclt_not_eq in Hm.
  - unfold calculateMonthlyPayment. change (of_Z 0 === of_Z 0)%js with true.
    cbn. rewrite decide_False by done. num_closed.
Qed.

(** C2, as amended.  calculateMonthlyPayment checks nothing and never
    fails: for every principal, rate and term, also a principal or a term
    that is 0 or negative, it returns a number.  With a rate of 0 that
    number is [principal / months] (an infinity or NaN when the term is 0),
    otherwise the amortisation formula in JavaScript arithmetic, rounded to
    2 decimals.  So a principal of -1000 over 10 months gives -100, and a
    principal of 1000 over 0 months gives Infinity. *)
Theorem calculateMonthlyPayment_total (principal rate months : number) :
  ∃ v, calculateMonthlyPayment pow_real principal rate months = Normal v ∧
    (if (rate === of_Z 0)%js then v = (principal / months)%js
     else
       let r := (rate / of_Z 12)%js in
       let pw := Math_pow pow_real (of_Z 1 + r)%js months in
       rounds_number 2 (principal * (r * pw) / (pw - of_Z 1))%js v) ∧
    calculateMonthlyPayment pow_real (of_Z (-1000)) (of_Z 0) (of_Z 10)
      = Normal (of_Z (-100)) ∧
    calculateMonthlyPayment pow_real (of_Z 1000) (of_Z 0) (of_Z 0) = Normal PosInf.
Proof.
  unfold calculateMonthlyPayment. destruct (rate === of_Z 0)%js.
  - eexists. split; [done|]. split; [done|]. split; [|done].
    change (of_Z 0 === of_Z 0)%js with true. cbn.
    rewrite decide_False by done. num_closed.
  - cbv zeta. rewrite Number_toFixed_number by lia.
    eexists. split; [done|]. split; [apply round_number_rounds|]. split; [|done].
    change (of_Z 0 === of_Z 0)%js with true. cbn.
    rewrite decide_False by done. num_closed.
Qed.

(** ** calculateCompoundInterest *)



End GrowthFacts.

(** C2 as stated does not hold: a principal of -1000 at rate 0 over 10
    months is answered with -100, not with an error. *)
Lemma calculateMonthlyPayment_no_InvalidInput :
  ¬ (∀ (pow_real : Qc → Qc → number) (principal rate months : number),
       num_le principal (of_Z 0) ∨ num_le months (of_Z 0) →
       throws (calculateMonthlyPayment pow_real principal rate months)).
Proof.
  intros H.
  destruct (H pow_real_NaN (of_Z (-1000)) (of_Z 0) (of_Z 10)) as [e He].
  - left. vm_compute. reflexivity.
  - vm_compute in He. discriminate He.
Qed.


Lemma calculateMonthlyPayment_zero_rate_witness :
  0 < Qc_of_Z 1000 ∧ 0 < Qc_of_Z 10 ∧
  calculateMonthlyPayment pow_real_NaN (Fin (Qc_of_Z 1000)) (of_Z 0) (Fin (Qc_of_Z 10))
    = Normal (Fin (Qc_of_Z 1000 / Qc_of_Z 10)) ∧
  calculateMonthlyPayment pow_real_NaN (of_Z 1000) (of_Z 0) (of_Z 10) = Normal (of_Z 100).
Proof.
  assert (H1 : 0 < Qc_of_Z 1000) by (vm_compute; reflexivity).
  assert (H2 : 0 < Qc_of_Z 10) by (vm_compute; reflexivity).
  split; [exact H1|]. split; [exact H2|].
  exact (calculateMonthlyPayment_zero_rate pow_real_NaN _ _ H1 H2).
Defined.




(** ** calculatePercentage *)



(** ** sanitizeNumber *)

Lemma sanitizeNumber_cases (value : jsvalue) (defaultValue : option number) :
  (unparsable value → sanitizeNumber value defaultValue = default (of_Z 0) defaultValue) ∧
  (¬ unparsable value →
     sanitizeNumber value defaultValue = parseFloat (remove_commas (String_ value)) ∧
     isNaN (sanitizeNumber value defaultValue) = false).
Proof.
  unfold sanitizeNumber, unparsable. cbv zeta.
  destruct (decide (value = JNull ∨ value = JUndefined ∨ value = JString "")) as [H|H].
  - split; [done|]. intros Hn. exfalso. apply Hn. tauto.
  - destruct (isNaN (parseFloat (remove_commas (String_ value)))) eqn:E.
    + split; [done|]. intros Hn. exfalso. apply Hn. tauto.
    + split; [|done]. intros [?|[?|[?|?]]]; [tauto..|done].
Qed.

(** C10, as amended.  sanitizeNumber is total.  It returns the default (0
    unless the caller supplies one) when the input is null, undefined, the
    empty string, or does not start with a number once the commas are
    removed; otherwise it returns the number that parseFloat reads there,
    which is not NaN.  Its result is not NaN provided the default is not
    NaN, in particular when the default is left to be 0. *)
Theorem sanitizeNumber_spec (value : jsvalue) (defaultValue : option number) :
  let d := default (of_Z 0) defaultValue in
  (unparsable value → sanitizeNumber value defaultValue = d) ∧
  (¬ unparsable value →
     sanitizeNumber value defaultValue = parseFloat (remove_commas (String_ value)) ∧
     isNaN (sanitizeNumber value defaultValue) = false) ∧
  (isNaN d = false → isNaN (sanitizeNumber value defaultValue) = false) ∧
  isNaN (sanitizeNumber value None) = false.
Proof.
  assert (Hnan : ∀ dv : option number, isNaN (default (of_Z 0) dv) = false →
    isNaN (sanitizeNumber value dv) = false).
  { intros dv Hd. destruct (sanitizeNumber_cases value dv) as [H1 H2].
    destruct (decide (unparsable value)) as [Hu|Hu].
    - by rewrite H1.
    - by apply H2. }
  intros d. destruct (sanitizeNumber_cases value defaultValue) as [H1 H2].
  split_and!; [done|done|apply Hnan|by apply Hnan].
Qed.

(** C10 as stated does not hold: a caller that supplies NaN as the default
    gets NaN back for the empty string. *)
Lemma sanitizeNumber_returns_NaN_default :
  ¬ (∀ (value : jsvalue) (defaultValue : option number),
       isNaN (sanitizeNumber value defaultValue) = false).
Proof. intros H. specialize (H (JString "") (Some NaN)). discriminate H. Qed.

(** ** The order on numbers *)

Ltac num_order :=
  unfold num_le, num_lt, js_gt, js_le in *;
  repeat match goal with x : number |- _ => destruct x end;
  simpl in *; try done;
  repeat match goal with
  | H : negb _ = true |- _ => apply negb_true_iff in H
  | H : bool_decide _ = true |- _ => apply bool_decide_eq_true in H
  | H : bool_decide _ = false |- _ => apply bool_decide_eq_false in H
  | |- negb _ = true => apply negb_true_iff
  | |- bool_decide _ = true => apply bool_decide_eq_true
  | |- bool_decide _ = false => apply bool_decide_eq_false
  end; try done.

Lemma num_le_refl (x : number) : x ≠ NaN → num_le x x.
Proof. intros H. num_order. Qed.

Lemma num_le_not_NaN_l (x y : number) : num_le x y → x ≠ NaN.
Proof. intros H ->. num_order. Qed.

Lemma num_lt_not_NaN_r (x y : number) : num_lt x y → y ≠ NaN.
Proof. intros H ->. num_order. Qed.

Lemma num_le_trans (x y z : number) : num_le x y → num_le y z → num_le x z.
Proof. intros H1 H2. num_order. by etrans. Qed.

Lemma num_lt_le (x y : number) : num_lt x y → num_le x y.
Proof. intros H. num_order. by apply Qclt_le_weak, Qcnot_le_lt. Qed.

Lemma num_lt_not_le (x y : number) : num_lt x y → num_le y x → False.
Proof. intros H1 H2. num_order. Qed.

Lemma num_lt_or_le (x : Qc) (y : number) : y ≠ NaN → num_lt (Fin x) y ∨ num_le y (Fin x).
Proof.
  intros H. unfold num_lt, num_le, js_gt.
  destruct y as [| | |q]; [done|by left|by right|].
  destruct (js_le (Fin q) (Fin x)); [by right|by left].
Qed.

(** ** Contiguous brackets partition the incomes above their lower end *)

Lemma contiguous_lower_bound (bs : list bracket) : ∀ (lo : number),
  Forall bracket_wf bs → contiguous_from lo bs →
  ∀ j b, bs !! j = Some b → num_le lo (min b).
Proof.
  induction bs as [|b0 bs IH]; intros lo Hwf Hc j b Hj; [done|].
  apply Forall_cons in Hwf as [(Hmin & Hlt & _) Hwf]. destruct Hc as [<- Hc].
  destruct j as [|j]; simpl in Hj.
  - injection Hj as ->. by apply num_le_refl, num_le_not_NaN_l with (max b), num_lt_le.
  - apply num_le_trans with (max b0); [by apply num_lt_le|].
    exact (IH (max b0) Hwf Hc j b Hj).
Qed.

Lemma num_lt_le_trans (x y z : number) : num_lt x y → num_le y z → num_lt x z.
Proof.
  intros H1 H2. num_order.
  intros H3. apply H1. by etrans.
Qed.

Lemma contiguous_sorted (bs : list bracket) : ∀ (lo : number),
  Forall bracket_wf bs → contiguous_from lo bs →
  ∀ i j bi bj, bs !! i = Some bi → bs !! j = Some bj → (i < j)%nat →
  num_lt (min bi) (min bj) ∧ num_le (max bi) (min bj).
Proof.
  induction bs as [|b0 bs IH]; intros lo Hwf Hc i j bi bj Hi Hj Hij; [done|].
  apply Forall_cons in Hwf as [(Hmin & Hlt & _) Hwf]. destruct Hc as [<- Hc].
  destruct j as [|j]; [lia|]. simpl in Hj.
  destruct i as [|i]; simpl in Hi.
  - injection Hi as <-.
    pose proof (contiguous_lower_bound bs (max b0) Hwf Hc j bj Hj) as Hle.
    split; [|done]. by apply num_lt_le_trans with (max b0).
  - apply (IH (max b0) Hwf Hc i j); [done|done|lia].
Qed.

Lemma contiguous_partition (bs : list bracket) : ∀ (lo : number),
  Forall bracket_wf bs → contiguous_from lo bs →
  ∀ x : Qc, num_le lo (Fin x) →
  ∃ i b, bs !! i = Some b ∧ in_bracket x b ∧
         ∀ j b', bs !! j = Some b' → in_bracket x b' → j = i.
Proof.
  induction bs as [|b0 bs IH]; intros lo Hwf Hc x Hx.
  - simpl in Hc. subst lo. exfalso. num_order.
  - pose proof Hwf as Hwf0.
    apply Forall_cons in Hwf as [(Hmin & Hlt & _) Hwf]. destruct Hc as [<- Hc].
    destruct (num_lt_or_le x (max b0)) as [Hin|Hout].
    { by apply num_lt_not_NaN_r with (min b0). }
    + exists 0%nat, b0. split; [done|]. split; [by split|].
      intros [|j] b' Hj [Hlo' _]; [done|]. exfalso. simpl in Hj.
      apply (num_lt_not_le _ _ Hin).
      apply num_le_trans with (min b'); [|done].
      exact (contiguous_lower_bound bs (max b0) Hwf Hc j b' Hj).
    + destruct (IH (max b0) Hwf Hc x Hout) as (i & b & Hi & Hb & Huniq).
      exists (S i), b. split; [done|]. split; [done|].
      intros [|j] b' Hj Hb'; simpl in Hj.
      * injection Hj as ->. destruct Hb' as [_ Hhi]. exfalso.
        by apply (num_lt_not_le _ _ Hhi).
      * f_equal. exact (Huniq j b' Hj Hb').
Qed.

(** ** The tables of js/constants.js *)

(** C6.  TAX_BRACKETS_2024 satisfies the bracket invariant: every bracket
    has a lower bound of at least 0, an upper bound above its lower bound
    and a rate between 0 and 1; the brackets start at 0, each one starts
    where the one before ends, and the last one is unbounded; they are
    sorted and do not overlap; every income of at least 0 falls in exactly
    one of them. *)
Theorem TAX_BRACKETS_2024_invariant :
  Forall bracket_wf TAX_BRACKETS_2024 ∧
  contiguous_from (of_Z 0) TAX_BRACKETS_2024 ∧
  max <$> last TAX_BRACKETS_2024 = Some PosInf ∧
  (∀ i j bi bj,
     TAX_BRACKETS_2024 !! i = Some bi → TAX_BRACKETS_2024 !! j = Some bj →
     (i < j)%nat → num_lt (min bi) (min bj) ∧ num_le (max bi) (min bj)) ∧
  (∀ x : Qc, 0 <= x →
     ∃ i b, TAX_BRACKETS_2024 !! i = Some b ∧ in_bracket x b ∧
            ∀ j b', TAX_BRACKETS_2024 !! j = Some b' → in_bracket x b' → j = i).
Proof.
  assert (Hwf : Forall bracket_wf TAX_BRACKETS_2024).
  { unfold TAX_BRACKETS_2024. repeat apply Forall_cons_2; [..|apply Forall_nil_2];
      (split_and!; vm_compute; reflexivity). }
  assert (Hc : contiguous_from (of_Z 0) TAX_BRACKETS_2024).
  { simpl. split_and!; reflexivity. }
  split_and!; [done|done|done| |].
  - intros i j bi bj Hi Hj Hij.
    exact (contiguous_sorted _ _ Hwf Hc i j bi bj Hi Hj Hij).
  - intros x Hx. apply (contiguous_partition _ (of_Z 0)); [done|done|].
    unfold num_le, of_Z. simpl. apply bool_decide_eq_true. by rewrite Z2Qc_inj_0.
Qed.

(** C9.  No region key is both in STATE_TAX_RATES and in NO_TAX_STATES: a
    region that has a flat rate is not a zero-tax state. *)
Theorem state_tax_tables_disjoint (region : string) :
  is_Some (STATE_TAX_RATES !! region) → region ∉ NO_TAX_STATES.
Proof.
  assert (Hdisj : dom STATE_TAX_RATES ## NO_TAX_STATES).
  { apply (bool_decide_unpack _). vm_compute. reflexivity. }
  intros Hrate Hzero. apply (Hdisj region); [|done].
  by apply elem_of_dom.
Qed.

Lemma state_tax_tables_disjoint_witness :
  is_Some (STATE_TAX_RATES !! "CA") ∧ "CA" ∉ NO_TAX_STATES.
Proof.
  assert (H : is_Some (STATE_TAX_RATES !! "CA")) by (vm_compute; eauto).
  split; [exact H|]. exact (state_tax_tables_disjoint "CA" H).
Defined.

(** ** The income form *)

Section IncomeFormFacts.
Variable taxData : Type.
Variable netIncome : taxData -> number.
Variable calculateAnnualIncome : number -> jsvalue -> number -> number -> number -> number.
Variable calculateAllTaxes : number -> string -> taxData.
Variable now : string.

Lemma sanitizeNumber_rejected_amount (v : jsvalue) :
  unparsable v ∨ negative_amount v →
  (sanitizeNumber v None <=? of_Z 0)%js = true.
Proof.
  destruct (sanitizeNumber_cases v None) as (Hdef & Hparse).
  intros [Hu|(s & -> & Hneg)].
  - by rewrite (Hdef Hu).
  - destruct (decide (unparsable (JString s))) as [Hu|Hu].
    + by rewrite (Hdef Hu).
    + destruct (Hparse Hu) as [-> _]. by apply num_lt_le.
Qed.

(** C7, as amended.  When the pay amount is negative, or does not start
    with a number (the field is missing or empty, or parseFloat finds no
    number at the start of its text once the commas are removed),
    handleIncomeSubmit shows 'Please enter a valid pay amount.' and stops:
    neither calculateAnnualIncome nor calculateAllTaxes is called. *)
Theorem handleIncomeSubmit_rejects (formData : gmap string string) :
  unparsable (FormData_get formData "payAmount") ∨
  negative_amount (FormData_get formData "payAmount") →
  let trace := handleIncomeSubmit taxData netIncome calculateAnnualIncome
                 calculateAllTaxes now formData in
  trace = [PreventDefault taxData; ShowError taxData "Please enter a valid pay amount."] ∧
  rejected taxData trace ∧
  ¬ invokes_tax_computation taxData trace.
Proof.
  intros Hbad trace.
  assert (Htrace : trace = [PreventDefault taxData;
                            ShowError taxData "Please enter a valid pay amount."]).
  { unfold trace, handleIncomeSubmit. cbv zeta.
    by rewrite (sanitizeNumber_rejected_amount _ Hbad). }
  split; [done|]. rewrite Htrace. split; [by eexists|].
  intros (e & He & Hcall).
  apply elem_of_cons in He as [->|He]; [done|].
  apply elem_of_cons in He as [->|He]; [done|].
  by apply elem_of_nil in He.
Qed.

End IncomeFormFacts.

Lemma handleIncomeSubmit_rejects_witness :
  (unparsable (FormData_get {[ "payAmount" := "-5"; "zipcode" := "12345" ]} "payAmount") ∨
   negative_amount (FormData_get {[ "payAmount" := "-5"; "zipcode" := "12345" ]} "payAmount")) ∧
  let trace := handleIncomeSubmit unit (fun _ => NaN) (fun payAmount _ _ _ _ => payAmount)
                 (fun _ _ => tt) "" {[ "payAmount" := "-5"; "zipcode" := "12345" ]} in
  trace = [PreventDefault unit; ShowError unit "Please enter a valid pay amount."] ∧
  rejected unit trace ∧
  ¬ invokes_tax_computation unit trace.
Proof.
  assert (H : unparsable (FormData_get {[ "payAmount" := "-5"; "zipcode" := "12345" ]} "payAmount") ∨
              negative_amount (FormData_get {[ "payAmount" := "-5"; "zipcode" := "12345" ]} "payAmount")).
  { right. exists "-5". split; vm_compute; reflexivity. }
  split; [exact H|].
  exact (handleIncomeSubmit_rejects unit (fun _ => NaN) (fun payAmount _ _ _ _ => payAmount)
           (fun _ _ => tt) "" _ H).
Defined.

(** C7 as stated does not hold: the pay amount 12abc is not a number, and
    with the ZIP code 12345 the handler goes on to the tax computation
    with a pay amount of 12. *)
Lemma handleIncomeSubmit_accepts_numeric_prefix :
  ¬ (∀ (taxData : Type) (netIncome : taxData → number)
       (calculateAnnualIncome : number → jsvalue → number → number → number → number)
       (calculateAllTaxes : number → string → taxData) (now : string)
       (formData : gmap string string),
       non_numeric (FormData_get formData "payAmount") ∨
       negative_amount (FormData_get formData "payAmount") →
       let trace := handleIncomeSubmit taxData netIncome calculateAnnualIncome
                      calculateAllTaxes now formData in
       rejected taxData trace ∧ ¬ invokes_tax_computation taxData trace).
Proof.
  intros H.
  destruct (H unit (λ _, NaN) (λ payAmount _ _ _ _, payAmount) (λ _ _, ()) ""
              {[ "payAmount" := "12abc"; "zipcode" := "12345" ]}) as [[m Hm] _].
  - left. vm_compute. reflexivity.
  - vm_compute in Hm. discriminate Hm.
Qed.

(** With the pay amount 12abc the handler does call into the tax
    computation. *)
Example handleIncomeSubmit_numeric_prefix :
  invokes_tax_computation unit
    (handleIncomeSubmit unit (fun _ => NaN) (fun payAmount _ _ _ _ => payAmount)
       (fun _ _ => tt) "" {[ "payAmount" := "12abc"; "zipcode" := "12345" ]}).
Proof.
  eexists. split.
  - apply list_elem_of_lookup. exists 1%nat. vm_compute. reflexivity.
  - exact I.
Qed.

(** * More properties *)

(** ** The income form, beyond the pay amount *)

Lemma sanitizeNumber_not_NaN (v : jsvalue) : isNaN (sanitizeNumber v None) = false.
Proof.
  destruct (sanitizeNumber_cases v None) as [H1 H2].
  destruct (decide (unparsable v)) as [Hu|Hu]; [by rewrite H1|by apply H2].
Qed.

Lemma js_le_false_gt (x y : number) :
  isNaN x = false → isNaN y = false → js_le x y = false → num_lt y x.
Proof.
  intros Hx Hy H. unfold num_lt, js_gt. destruct x, y; try done; by rewrite H.
Qed.

Section IncomeFormMore.

Variable taxData : Type.
Variable netIncome : taxData -> number.
Variable calculateAnnualIncome : number -> jsvalue -> number -> number -> number -> number.
Variable calculateAllTaxes : number -> string -> taxData.
Variable now : string.

(** X1.  When the pay amount passes but the ZIP code is missing or
    malformed, the handler shows the ZIP message and stops before the tax
    computation. *)
Theorem handleIncomeSubmit_bad_zip (formData : gmap string string) :
  num_lt (of_Z 0) (sanitizeNumber (FormData_get formData "payAmount") None) →
  zip_invalid formData →
  let trace := handleIncomeSubmit taxData netIncome calculateAnnualIncome
                 calculateAllTaxes now formData in
  trace = [PreventDefault taxData;
           ShowError taxData "Please enter a valid 5-digit ZIP code."] ∧
  ¬ invokes_tax_computation taxData trace.
Proof.
  intros Hpay Hzip trace.
  assert (Htrace : trace = [PreventDefault taxData;
                            ShowError taxData "Please enter a valid 5-digit ZIP code."]).
  { unfold trace, handleIncomeSubmit. cbv zeta.
    assert (Hle : (sanitizeNumber (FormData_get formData "payAmount") None
                   <=? of_Z 0)%js = false).
    { destruct (js_le _ _) eqn:E; [|done]. exfalso. by apply (num_lt_not_le _ _ Hpay). }
    rewrite Hle. unfold zip_invalid in Hzip.
    destruct (formData !! "zipcode") as [z|]; [|done]. simpl.
    rewrite Hzip. by rewrite orb_true_r. }
  split; [done|]. rewrite Htrace. intros (e & He & Hcall).
  apply elem_of_cons in He as [->|He]; [done|].
  apply elem_of_cons in He as [->|He]; [done|].
  by apply elem_of_nil in He.
Qed.

(** X2.  The handler reaches the tax computation exactly when the pay
    amount read from the form is above 0 and the trimmed ZIP code is well
    formed; it then makes its four calls in order, passing on the trimmed
    ZIP code and the annual income that calculateAnnualIncome returned.
    In every other case it stops at one message: there is no partial
    run. *)
Theorem handleIncomeSubmit_outcomes (formData : gmap string string) :
  let trace := handleIncomeSubmit taxData netIncome calculateAnnualIncome
                 calculateAllTaxes now formData in
  let payAmount := sanitizeNumber (FormData_get formData "payAmount") None in
  let accepted :=
    num_lt (of_Z 0) payAmount ∧
    ∃ z, formData !! "zipcode" = Some z ∧ zip_regex_test (trim z) = true in
  (invokes_tax_computation taxData trace ↔ accepted) ∧
  (¬ accepted → rejected taxData trace) ∧
  (∀ z, accepted → formData !! "zipcode" = Some z →
     ∃ h d w data,
       let annualIncome :=
         calculateAnnualIncome payAmount (FormData_get formData "payFrequency") h d w in
       trace = [PreventDefault taxData;
                CallCalculateAnnualIncome taxData payAmount
                  (FormData_get formData "payFrequency") h d w;
                CallCalculateAllTaxes taxData annualIncome (trim z);
                UpdateSection taxData "income" data;
                RenderIncomeResults taxData
                  (calculateAllTaxes annualIncome (trim z)) annualIncome]).
Proof.
  intros trace payAmount accepted.
  assert (Hcases :
    (accepted ∧ ∀ z, formData !! "zipcode" = Some z →
       ∃ h d w data,
         trace = [PreventDefault taxData;
                  CallCalculateAnnualIncome taxData payAmount
                    (FormData_get formData "payFrequency") h d w;
                  CallCalculateAllTaxes taxData
                    (calculateAnnualIncome payAmount
                       (FormData_get formData "payFrequency") h d w) (trim z);
                  UpdateSection taxData "income" data;
                  RenderIncomeResults taxData
                    (calculateAllTaxes
                       (calculateAnnualIncome payAmount
                          (FormData_get formData "payFrequency") h d w) (trim z))
                    (calculateAnnualIncome payAmount
                       (FormData_get formData "payFrequency") h d w)]) ∨
    (¬ accepted ∧ rejected taxData trace)).
  { unfold accepted, trace, handleIncomeSubmit. cbv zeta. fold payAmount.
    destruct (js_le payAmount (of_Z 0)) eqn:Hle.
    { right. split; [|by eexists]. intros [Hlt _]. by apply (num_lt_not_le _ _ Hlt). }
    assert (Hlt : num_lt (of_Z 0) payAmount).
    { apply js_le_false_gt; [apply sanitizeNumber_not_NaN|done|done]. }
    destruct (formData !! "zipcode") as [z|] eqn:Hz; simpl.
    2:{ right. split; [|by eexists]. by intros [_ (z & ? & _)]. }
    destruct (zip_regex_test (trim z)) eqn:Hzip.
    - assert (Hne : trim z ≠ "").
      { intros E. rewrite E in Hzip. discriminate Hzip. }
      rewrite bool_decide_eq_false_2 by done. simpl.
      left. split; [by eauto|]. intros z' [= <-]. by repeat eexists.
    - rewrite orb_true_r. right. split; [|by eexists].
      intros [_ (z' & [= <-] & Hz')]. congruence. }
  destruct Hcases as [[Hacc Htr]|[Hrej Htr]].
  - split; [|split]; [|done|by intros z _ Hz; apply Htr].
    split; [done|]. intros _.
    destruct Hacc as [_ (z & Hz & _)].
    destruct (Htr z Hz) as (h & d & w & data & ->).
    eexists. split; [apply list_elem_of_lookup; by exists 1%nat|done].
  - split; [|split]; [|done|done].
    split; [|done]. intros (e & He & Hcall). exfalso.
    destruct Htr as [m Hm]. rewrite Hm in He.
    apply elem_of_cons in He as [->|He]; [done|].
    apply elem_of_cons in He as [->|He]; [done|].
    by apply elem_of_nil in He.
Qed.

(** X3.  Whatever is stored under 'income' is sound: the pay amount is
    above 0, the ZIP code is well formed, and the hours per day, days per
    week and weeks per year are never 0 or NaN, a field that is missing
    being stored as 8, 5 and 52.  The calculation itself was called with
    the sanitised fields, 0 for a missing one. *)
Theorem handleIncomeSubmit_stored (formData : gmap string string)
    (section : string) (data : income_section) :
  UpdateSection taxData section data
    ∈ handleIncomeSubmit taxData netIncome calculateAnnualIncome
        calculateAllTaxes now formData →
  section = "income" ∧
  num_lt (of_Z 0) (payAmount data) ∧
  zip_regex_test (zipcode data) = true ∧
  (hoursPerDay data ≠ NaN ∧ hoursPerDay data ≠ of_Z 0) ∧
  (daysPerWeek data ≠ NaN ∧ daysPerWeek data ≠ of_Z 0) ∧
  (weeksPerYear data ≠ NaN ∧ weeksPerYear data ≠ of_Z 0) ∧
  (formData !! "hoursPerDay" = None → hoursPerDay data = of_Z 8) ∧
  (formData !! "daysPerWeek" = None → daysPerWeek data = of_Z 5) ∧
  (formData !! "weeksPerYear" = None → weeksPerYear data = of_Z 52) ∧
  annualGrossIncome data
    = calculateAnnualIncome (payAmount data) (FormData_get formData "payFrequency")
        (sanitizeNumber (FormData_get formData "hoursPerDay") None)
        (sanitizeNumber (FormData_get formData "daysPerWeek") None)
        (sanitizeNumber (FormData_get formData "weeksPerYear") None).
Proof.
  unfold handleIncomeSubmit. cbv zeta.
  set (p := sanitizeNumber (FormData_get formData "payAmount") None).
  assert (Hor : ∀ x d, d ≠ NaN → d ≠ of_Z 0 → js_or x d ≠ NaN ∧ js_or x d ≠ of_Z 0).
  { intros x d Hd1 Hd2. unfold js_or. case_decide as H; [done|].
    split; intros E; apply H; auto. }
  assert (Hmiss : ∀ field d, formData !! field = None →
            js_or (sanitizeNumber (FormData_get formData field) None) d = d).
  { intros field d Hf. unfold FormData_get. rewrite Hf. done. }
  destruct (js_le p (of_Z 0)) eqn:Hle.
  { intros He. apply elem_of_cons in He as [?|He]; [done|].
    apply elem_of_cons in He as [?|He]; [done|]. by apply elem_of_nil in He. }
  assert (Hlt : num_lt (of_Z 0) p).
  { apply js_le_false_gt; [apply sanitizeNumber_not_NaN|done|done]. }
  destruct (formData !! "zipcode") as [z|] eqn:Hz; simpl.
  2:{ intros He. apply elem_of_cons in He as [?|He]; [done|].
      apply elem_of_cons in He as [?|He]; [done|]. by apply elem_of_nil in He. }
  destruct (bool_decide (trim z = "") || negb (zip_regex_test (trim z))) eqn:Hbad.
  { intros He. apply elem_of_cons in He as [?|He]; [done|].
    apply elem_of_cons in He as [?|He]; [done|]. by apply elem_of_nil in He. }
  apply orb_false_iff in Hbad as [_ Hzip%negb_false_iff].
  intros He.
  apply elem_of_cons in He as [?|He]; [done|].
  apply elem_of_cons in He as [?|He]; [done|].
  apply elem_of_cons in He as [?|He]; [done|].
  apply elem_of_cons in He as [[= -> ->]|He].
  2:{ apply elem_of_cons in He as [?|He]; [done|]. by apply elem_of_nil in He. }
  simpl. split_and!; try done; try (by apply Hor); by apply Hmiss.
Qed.

End IncomeFormMore.

Lemma handleIncomeSubmit_bad_zip_witness :
  num_lt (of_Z 0)
    (sanitizeNumber (FormData_get {[ "payAmount" := "25"; "zipcode" := "1234" ]} "payAmount")
       None) ∧
  zip_invalid {[ "payAmount" := "25"; "zipcode" := "1234" ]} ∧
  let trace := handleIncomeSubmit unit (fun _ => NaN) (fun payAmount _ _ _ _ => payAmount)
                 (fun _ _ => tt) "" {[ "payAmount" := "25"; "zipcode" := "1234" ]} in
  trace = [PreventDefault unit; ShowError unit "Please enter a valid 5-digit ZIP code."] ∧
  ¬ invokes_tax_computation unit trace.
Proof.
  assert (H1 : num_lt (of_Z 0)
    (sanitizeNumber (FormData_get {[ "payAmount" := "25"; "zipcode" := "1234" ]} "payAmount")
       None)) by (vm_compute; reflexivity).
  assert (H2 : zip_invalid {[ "payAmount" := "25"; "zipcode" := "1234" ]})
    by (vm_compute; reflexivity).
  split; [exact H1|]. split; [exact H2|].
  exact (handleIncomeSubmit_bad_zip unit (fun _ => NaN) (fun payAmount _ _ _ _ => payAmount)
           (fun _ _ => tt) "" _ H1 H2).
Defined.

Lemma handleIncomeSubmit_stored_witness :
  ∃ data : income_section,
    UpdateSection unit "income" data
      ∈ handleIncomeSubmit unit (fun _ => NaN) (fun payAmount _ _ _ _ => payAmount)
          (fun _ _ => tt) "" {[ "payAmount" := "25"; "zipcode" := " 12345 " ]} ∧
    hoursPerDay data = of_Z 8 ∧ zipcode data = "12345".
Proof.
  eexists (IncomeSection _ _ _ _ _ _ _ _ _).
  assert (H : ∀ data, UpdateSection unit "income" data
      ∈ handleIncomeSubmit unit (fun _ => NaN) (fun payAmount _ _ _ _ => payAmount)
          (fun _ _ => tt) "" {[ "payAmount" := "25"; "zipcode" := " 12345 " ]} →
      hoursPerDay data = of_Z 8).
  { intros data Hin.
    apply (handleIncomeSubmit_stored unit (fun _ => NaN)
             (fun payAmount _ _ _ _ => payAmount) (fun _ _ => tt) "" _ _ _ Hin).
    vm_compute. reflexivity. }
  assert (Hin : UpdateSection unit "income"
      (IncomeSection (sanitizeNumber (JString "25") None) JNull (of_Z 8) (of_Z 5) (of_Z 52)
         "12345" (NaN / of_Z 12)%js (sanitizeNumber (JString "25") None) "")
      ∈ handleIncomeSubmit unit (fun _ => NaN) (fun payAmount _ _ _ _ => payAmount)
          (fun _ _ => tt) "" {[ "payAmount" := "25"; "zipcode" := " 12345 " ]}).
  { apply list_elem_of_lookup. exists 3%nat. vm_compute. reflexivity. }
  split; [exact Hin|]. split; [exact (H _ Hin)|reflexivity].
Defined.

(** ** The budget form *)

Section BudgetFormFacts.

Variable analysis : Type.
Variable totalExpenses : analysis -> number.
Variable calculateBudgetAnalysis : number -> list (string * number) -> analysis.
Variable now : string.

Lemma sanitizeNumber_zero_amount (v : jsvalue) :
  zero_amount v → sanitizeNumber v None = of_Z 0.
Proof.
  intros (s & -> & Hz).
  destruct (sanitizeNumber_cases (JString s) None) as (Hdef & Hparse).
  destruct (decide (unparsable (JString s))) as [Hu|Hu].
  - by rewrite (Hdef Hu).
  - by destruct (Hparse Hu) as [-> _].
Qed.

(** X4.  A monthly income that is negative, zero, or does not start with
    a number is turned away with 'Please enter a valid monthly income.':
    the budget analysis is not called and nothing is stored. *)
Theorem handleBudgetSubmit_rejects (formData : gmap string string) :
  unparsable (FormData_get formData "monthlyIncome") ∨
  negative_amount (FormData_get formData "monthlyIncome") ∨
  zero_amount (FormData_get formData "monthlyIncome") →
  handleBudgetSubmit analysis totalExpenses calculateBudgetAnalysis now formData
    = [BudgetPreventDefault analysis;
       BudgetShowError analysis "Please enter a valid monthly income."].
Proof.
  intros H. unfold handleBudgetSubmit. cbv zeta.
  assert (Hle : (sanitizeNumber (FormData_get formData "monthlyIncome") None
                 <=? of_Z 0)%js = true).
  { destruct H as [H|[H|H]].
    - apply sanitizeNumber_rejected_amount. by left.
    - apply sanitizeNumber_rejected_amount. by right.
    - by rewrite (sanitizeNumber_zero_amount _ H). }
  by rewrite Hle.
Qed.

(** X5.  A monthly income above 0 is all the handler asks for: the
    analysis is then called once, with the ten expense categories in the
    handler's order, none of them NaN; a category whose field is missing
    or unreadable counts as 0, and any number that was read, a negative
    one too, is passed on as it is.  The same expenses are stored under
    'budget', with the total that the analysis reported. *)
Theorem handleBudgetSubmit_accepts (formData : gmap string string) :
  let monthlyIncome := sanitizeNumber (FormData_get formData "monthlyIncome") None in
  num_lt (of_Z 0) monthlyIncome →
  ∃ expenses,
    let result := calculateBudgetAnalysis monthlyIncome expenses in
    handleBudgetSubmit analysis totalExpenses calculateBudgetAnalysis now formData
      = [BudgetPreventDefault analysis;
         CallCalculateBudgetAnalysis analysis monthlyIncome expenses;
         UpdateBudgetSection analysis "budget"
           (BudgetSection monthlyIncome expenses (totalExpenses result) result now);
         RenderBudgetResults analysis result] ∧
    expenses.*1 = expenseFields ∧
    Forall (λ e, isNaN e.2 = false) expenses ∧
    (∀ field, field ∈ expenseFields → unparsable (FormData_get formData field) →
       (field, of_Z 0) ∈ expenses) ∧
    (∀ field, field ∈ expenseFields → ¬ unparsable (FormData_get formData field) →
       (field, parseFloat (remove_commas (String_ (FormData_get formData field))))
         ∈ expenses).
Proof.
  intros monthlyIncome Hlt.
  exists ((λ field, (field, sanitizeNumber (FormData_get formData field) None))
            <$> expenseFields).
  cbv zeta. split_and!.
  - unfold handleBudgetSubmit. cbv zeta. fold monthlyIncome.
    destruct (js_le monthlyIncome (of_Z 0)) eqn:Hle; [|done].
    exfalso. by apply (num_lt_not_le _ _ Hlt).
  - rewrite <- list_fmap_compose. apply list_fmap_id.
  - apply Forall_fmap, Forall_forall. intros field _. apply sanitizeNumber_not_NaN.
  - intros field Hin Hu. apply list_elem_of_fmap. exists field. split; [|done].
    by rewrite (proj1 (sanitizeNumber_cases _ None) Hu).
  - intros field Hin Hu. apply list_elem_of_fmap. exists field. split; [|done].
    by rewrite (proj1 (proj2 (sanitizeNumber_cases _ None) Hu)).
Qed.

End BudgetFormFacts.

Lemma handleBudgetSubmit_rejects_witness :
  (unparsable (FormData_get {[ "monthlyIncome" := "0.00"; "groceries" := "300" ]} "monthlyIncome") ∨
   negative_amount (FormData_get {[ "monthlyIncome" := "0.00"; "groceries" := "300" ]} "monthlyIncome") ∨
   zero_amount (FormData_get {[ "monthlyIncome" := "0.00"; "groceries" := "300" ]} "monthlyIncome")) ∧
  handleBudgetSubmit unit (fun _ => NaN) (fun _ _ => tt) ""
    {[ "monthlyIncome" := "0.00"; "groceries" := "300" ]}
    = [BudgetPreventDefault unit;
       BudgetShowError unit "Please enter a valid monthly income."].
Proof.
  assert (H : unparsable (FormData_get {[ "monthlyIncome" := "0.00"; "groceries" := "300" ]} "monthlyIncome") ∨
   negative_amount (FormData_get {[ "monthlyIncome" := "0.00"; "groceries" := "300" ]} "monthlyIncome") ∨
   zero_amount (FormData_get {[ "monthlyIncome" := "0.00"; "groceries" := "300" ]} "monthlyIncome")).
  { right. right. exists "0.00". split; [vm_compute; reflexivity|num_closed]. }
  split; [exact H|].
  exact (handleBudgetSubmit_rejects unit (fun _ => NaN) (fun _ _ => tt) "" _ H).
Defined.

Lemma handleBudgetSubmit_accepts_witness :
  num_lt (of_Z 0)
    (sanitizeNumber
       (FormData_get {[ "monthlyIncome" := "5,000"; "groceries" := "-300" ]} "monthlyIncome")
       None) ∧
  ∃ expenses,
    CallCalculateBudgetAnalysis unit (of_Z 5000) expenses
      ∈ handleBudgetSubmit unit (fun _ => NaN) (fun _ _ => tt) ""
          {[ "monthlyIncome" := "5,000"; "groceries" := "-300" ]} ∧
    ("groceries", of_Z (-300)) ∈ expenses ∧ ("utilities", of_Z 0) ∈ expenses.
Proof.
  assert (H : num_lt (of_Z 0)
    (sanitizeNumber
       (FormData_get {[ "monthlyIncome" := "5,000"; "groceries" := "-300" ]} "monthlyIncome")
       None)) by (vm_compute; reflexivity).
  split; [exact H|].
  destruct (handleBudgetSubmit_accepts unit (fun _ => NaN) (fun _ _ => tt) "" _ H)
    as (expenses & Htrace & _ & _ & Hzero & Hread).
  exists expenses. split_and!.
  - rewrite Htrace. apply list_elem_of_lookup. exists 1%nat. simpl. do 2 f_equal.
    num_closed.
  - replace (of_Z (-300)) with
      (parseFloat (remove_commas (String_ (FormData_get
         {[ "monthlyIncome" := "5,000"; "groceries" := "-300" ]} "groceries"))))
      by num_closed.
    apply Hread; [|vm_compute; intuition discriminate].
    apply list_elem_of_lookup. by exists 2%nat.
  - apply Hzero; [|by left].
    apply list_elem_of_lookup. by exists 1%nat.
Defined.

(** ** Category names *)

Lemma letter_not_space (c : ascii) :
  is_upper c || is_lower c = true → Ascii.is_space c = false.
Proof. destruct c as [[] [] [] [] [] [] [] []]; vm_compute; congruence. Qed.

Lemma to_upper_upper (c : ascii) : is_upper c = true → to_upper c = c.
Proof. destruct c as [[] [] [] [] [] [] [] []]; vm_compute; congruence. Qed.

Lemma to_upper_letter (c : ascii) :
  is_upper c || is_lower c = true → is_upper (to_upper c) = true.
Proof. destruct c as [[] [] [] [] [] [] [] []]; vm_compute; congruence. Qed.

Lemma trim_end_space_capitals (c : ascii) (r : string) :
  Ascii.is_space c = false → letters_only r = true →
  trim_end (String c (space_capitals r)) = String c (space_capitals r).
Proof.
  revert c. induction r as [|d r IH]; intros c Hc Hr.
  - simpl. by rewrite Hc.
  - simpl in Hr. apply andb_true_iff in Hr as [Hd Hr].
    pose proof (letter_not_space d Hd) as Hsd.
    pose proof (IH d Hsd Hr) as IHd.
    cbn [space_capitals]. destruct (is_upper d).
    + change (trim_end (String c (String " " (String d (space_capitals r)))))
        with (let r' := trim_end (String " " (String d (space_capitals r))) in
              if decide (r' = "") then (if Ascii.is_space c then "" else String c "")
              else String c r').
      change (trim_end (String " " (String d (space_capitals r))))
        with (let r' := trim_end (String d (space_capitals r)) in
              if decide (r' = "") then (if Ascii.is_space " " then "" else String " " "")
              else String " " r').
      rewrite IHd. cbv zeta. rewrite decide_False by done. by rewrite decide_False.
    + change (trim_end (String c (String d (space_capitals r))))
        with (let r' := trim_end (String d (space_capitals r)) in
              if decide (r' = "") then (if Ascii.is_space c then "" else String c "")
              else String c r').
      rewrite IHd. cbv zeta. by rewrite decide_False.
Qed.

Lemma strip_space_capitals (r : string) :
  letters_only r = true → strip_space (space_capitals r) = r.
Proof.
  induction r as [|d r IH]; [done|]. simpl. intros [Hd Hr]%andb_true_iff.
  pose proof (letter_not_space d Hd) as Hsd.
  destruct (is_upper d); simpl; rewrite Hsd, IH; done.
Qed.

Lemma length_space_capitals (r : string) :
  String.length (space_capitals r) = (String.length r + count_upper r)%nat.
Proof.
  induction r as [|d r IH]; [done|]. simpl.
  destruct (is_upper d); simpl; rewrite IH; lia.
Qed.

(** X6.  For a category key made of letters, formatCategoryName makes the
    first letter a capital and puts one space before every later capital:
    the leading space that a key starting with a capital would get is
    trimmed away again.  No letter is lost or moved, and the result is as
    much longer as the key has capitals after its first letter. *)
Theorem formatCategoryName_letters (c : ascii) (r : string) :
  letters_only (String c r) = true →
  formatCategoryName (String c r) = String (to_upper c) (space_capitals r) ∧
  strip_space (formatCategoryName (String c r)) = String (to_upper c) r ∧
  String.length (formatCategoryName (String c r))
    = (String.length (String c r) + count_upper r)%nat.
Proof.
  intros H. pose proof H as H'. simpl in H'. apply andb_true_iff in H' as [Hc Hr].
  assert (Hup : Ascii.is_space (to_upper c) = false).
  { apply letter_not_space. by rewrite (to_upper_letter c Hc). }
  assert (Hfmt : formatCategoryName (String c r) = String (to_upper c) (space_capitals r)).
  { assert (Hlt : is_line_terminator c = false).
    { pose proof (letter_not_space c Hc) as Hs.
      unfold is_line_terminator. apply bool_decide_eq_false.
      intros [->| ->]; discriminate Hs. }
    unfold formatCategoryName, trim. cbn [space_capitals].
    clear H Hc. destruct (is_upper c) eqn:Hu.
    - cbn [upper_first]. change (is_line_terminator " ") with false. cbv iota.
      change (to_upper " ") with " "%char.
      change (trim_start (String " " (String c (space_capitals r))))
        with (trim_start (String c (space_capitals r))).
      rewrite (to_upper_upper c Hu) in *.
      cbn [trim_start]. rewrite Hup. by apply trim_end_space_capitals.
    - cbn [upper_first]. rewrite Hlt. cbn [trim_start]. rewrite Hup.
      by apply trim_end_space_capitals. }
  rewrite Hfmt. split; [done|]. split.
  - cbn [strip_space]. rewrite Hup. by rewrite strip_space_capitals.
  - simpl. by rewrite length_space_capitals.
Qed.

Lemma formatCategoryName_letters_witness :
  letters_only "rentMortgage" = true ∧
  formatCategoryName "rentMortgage" = "Rent Mortgage".
Proof.
  assert (H : letters_only "rentMortgage" = true) by reflexivity.
  split; [exact H|].
  exact (proj1 (formatCategoryName_letters "r" "entMortgage" H)).
Defined.

(** ** The theme *)

(** X7.  A toggled theme survives a reload: initialising from what
    toggleTheme stored gives back the state that toggleTheme left, theme,
    storage and the 'dark' class of the page alike. *)
Theorem toggleTheme_persists (st : theme_state) :
  initializeTheme (toggleTheme st) = toggleTheme st.
Proof.
  unfold initializeTheme, toggleTheme. cbn [localStorage theme dark_class].
  rewrite lookup_insert_eq.
  by destruct (decide (theme st = "dark")).
Qed.

(** From the dark or the light theme, toggling twice comes back to
    the same theme, with the same theme stored and the 'dark' class set
    for the dark theme only.  From any other theme a toggle leads to
    dark. *)
Theorem toggleTheme_twice (st : theme_state) :
  theme st = "dark" ∨ theme st = "light" →
  theme (toggleTheme (toggleTheme st)) = theme st ∧
  localStorage (toggleTheme (toggleTheme st)) !! STORAGE_KEYS_THEME = Some (theme st) ∧
  (dark_class (toggleTheme (toggleTheme st)) = true ↔ theme st = "dark") ∧
  (∀ st', theme st' ≠ "dark" → theme (toggleTheme st') = "dark").
Proof.
  intros H. unfold toggleTheme. cbn [localStorage theme dark_class].
  split_and!.
  - destruct H as [-> | ->]; reflexivity.
  - rewrite lookup_insert_eq. destruct H as [-> | ->]; reflexivity.
  - destruct H as [-> | ->]; simpl; split; done.
  - intros st' Hst'. by rewrite decide_False.
Qed.

Lemma toggleTheme_twice_witness :
  (theme (ThemeState "light" ∅ false) = "dark" ∨
   theme (ThemeState "light" ∅ false) = "light") ∧
  theme (toggleTheme (toggleTheme (ThemeState "light" ∅ false))) = "light".
Proof.
  assert (H : theme (ThemeState "light" ∅ false) = "dark" ∨
              theme (ThemeState "light" ∅ false) = "light") by (right; reflexivity).
  split; [exact H|].
  exact (proj1 (toggleTheme_twice (ThemeState "light" ∅ false) H)).
Defined.

(** ** Letter case *)

Lemma to_upper_idem (c : ascii) : to_upper (to_upper c) = to_upper c.
Proof. destruct c as [[] [] [] [] [] [] [] []]; reflexivity. Qed.

Lemma to_lower_idem (c : ascii) : to_lower (to_lower c) = to_lower c.
Proof. destruct c as [[] [] [] [] [] [] [] []]; reflexivity. Qed.

Lemma to_upper_to_lower (c : ascii) : to_upper (to_lower c) = to_upper c.
Proof. destruct c as [[] [] [] [] [] [] [] []]; reflexivity. Qed.

Lemma is_space_to_lower (c : ascii) : Ascii.is_space (to_lower c) = Ascii.is_space c.
Proof. destruct c as [[] [] [] [] [] [] [] []]; reflexivity. Qed.

Lemma is_word_char_to_upper (c : ascii) : is_word_char (to_upper c) = is_word_char c.
Proof. destruct c as [[] [] [] [] [] [] [] []]; reflexivity. Qed.

Lemma word_char_not_space (c : ascii) : is_word_char c = true → Ascii.is_space c = false.
Proof. destruct c as [[] [] [] [] [] [] [] []]; vm_compute; congruence. Qed.

Lemma toLowerCase_idem (s : string) : toLowerCase (toLowerCase s) = toLowerCase s.
Proof. induction s as [|c s IH]; [done|]. simpl. by rewrite to_lower_idem, IH. Qed.

Lemma length_toLowerCase (s : string) : String.length (toLowerCase s) = String.length s.
Proof. induction s as [|c s IH]; [done|]. simpl. by rewrite IH. Qed.

Lemma title_scan_idem (in_match : bool) (s : string) :
  title_scan in_match (title_scan in_match s) = title_scan in_match s.
Proof.
  revert in_match. induction s as [|c s IH]; intros in_match; [done|].
  destruct in_match; cbn [title_scan].
  - destruct (Ascii.is_space c) eqn:Hs; cbn [title_scan].
    + by rewrite Hs, IH.
    + by rewrite is_space_to_lower, Hs, to_lower_idem, IH.
  - destruct (is_word_char c) eqn:Hw; cbn [title_scan].
    + by rewrite is_word_char_to_upper, Hw, to_upper_idem, IH.
    + by rewrite Hw, IH.
Qed.

Lemma length_title_scan (in_match : bool) (s : string) :
  String.length (title_scan in_match s) = String.length s.
Proof.
  revert in_match. induction s as [|c s IH]; intros in_match; [done|].
  destruct in_match; cbn [title_scan].
  - destruct (Ascii.is_space c); simpl; by rewrite IH.
  - destruct (is_word_char c); simpl; by rewrite IH.
Qed.

(** X8.  On text of code units below 128, and on every value that is
    not a string, capitalize and toTitleCase are idempotent, and the
    string they return is as long as the one they were given. *)
Theorem capitalize_toTitleCase_idempotent (value : jsdata) :
  ascii_value value →
  capitalize (capitalize value) = capitalize value ∧
  toTitleCase (toTitleCase value) = toTitleCase value ∧
  (∀ s, value = DValue (JString s) →
     ∃ s1 s2, capitalize value = DValue (JString s1) ∧
              toTitleCase value = DValue (JString s2) ∧
              String.length s1 = String.length s ∧
              String.length s2 = String.length s).
Proof.
  intros _. split_and!.
  - destruct value as [[| |s]| | | |]; try done.
    destruct s as [|c s]; [done|]. simpl.
    by rewrite to_upper_idem, toLowerCase_idem.
  - destruct value as [[| |s]| | | |]; try done.
    simpl. unfold toTitleCase_string. by rewrite title_scan_idem.
  - intros s ->. exists (capitalize_string s), (toTitleCase_string s).
    split_and!; [done|done| |apply length_title_scan].
    destruct s as [|c s]; [done|]. simpl. by rewrite length_toLowerCase.
Qed.

Lemma capitalize_toTitleCase_idempotent_witness :
  ascii_value (DValue (JString "hELLO wORLD")) ∧
  capitalize (capitalize (DValue (JString "hELLO wORLD")))
    = DValue (JString "Hello world") ∧
  toTitleCase (toTitleCase (DValue (JString "hELLO wORLD")))
    = DValue (JString "Hello World").
Proof.
  assert (H : ascii_value (DValue (JString "hELLO wORLD"))) by reflexivity.
  split; [exact H|].
  destruct (capitalize_toTitleCase_idempotent (DValue (JString "hELLO wORLD")) H)
    as (H1 & H2 & _).
  split; [rewrite H1|rewrite H2]; reflexivity.
Defined.

(** capitalize looks at the letters only, not at their case: two
    strings that differ in case alone are capitalized to the same
    string. *)
Theorem capitalize_case_insensitive (a b : string) :
  toLowerCase a = toLowerCase b → capitalize_string a = capitalize_string b.
Proof.
  destruct a as [|c a], b as [|d b]; try done. simpl. intros [= Hcd Hab].
  rewrite Hab. f_equal.
  by rewrite <- (to_upper_to_lower c), <- (to_upper_to_lower d), Hcd.
Qed.

Lemma capitalize_case_insensitive_witness :
  toLowerCase "hELLO wORLD" = toLowerCase "Hello World" ∧
  capitalize_string "hELLO wORLD" = capitalize_string "Hello World".
Proof.
  assert (H : toLowerCase "hELLO wORLD" = toLowerCase "Hello World") by reflexivity.
  split; [exact H|]. exact (capitalize_case_insensitive _ _ H).
Defined.

Lemma title_scan_app (in_match : bool) (a b : string) (ws : ascii) :
  Ascii.is_space ws = true →
  title_scan in_match (a +:+ String ws b)
    = title_scan in_match a +:+ String ws (title_scan false b).
Proof.
  intros Hws. revert in_match. induction a as [|c a IH]; intros in_match.
  - change ("" +:+ String ws b) with (String ws b). cbn [title_scan].
    rewrite Hws. destruct in_match; [done|].
    destruct (is_word_char ws) eqn:Hw; [|done].
    apply word_char_not_space in Hw. congruence.
  - rewrite app_cons. destruct in_match; cbn [title_scan].
    + destruct (Ascii.is_space c); rewrite app_cons, IH; done.
    + destruct (is_word_char c); rewrite app_cons, IH; done.
Qed.

(** X9.  toTitleCase treats the words of a text (of code units below
    128) one by one: the text before a white-space character and the text
    after it are converted on their own, and the white space stays where
    it is. *)
Theorem toTitleCase_words (a b : string) (ws : ascii) :
  ascii_only (a +:+ String ws b) = true →
  Ascii.is_space ws = true →
  toTitleCase_string (a +:+ String ws b)
    = toTitleCase_string a +:+ String ws (toTitleCase_string b).
Proof. intros _ Hws. unfold toTitleCase_string. by apply title_scan_app. Qed.

Lemma toTitleCase_words_witness :
  ascii_only ("monthly" +:+ String " " "nET iNCOME") = true ∧
  Ascii.is_space " " = true ∧
  toTitleCase_string ("monthly" +:+ String " " "nET iNCOME")
    = "Monthly" +:+ String " " "Net Income".
Proof.
  assert (H0 : ascii_only ("monthly" +:+ String " " "nET iNCOME") = true) by reflexivity.
  assert (H : Ascii.is_space " " = true) by reflexivity.
  split; [exact H0|]. split; [exact H|].
  exact (toTitleCase_words "monthly" "nET iNCOME" " " H0 H).
Defined.

Lemma title_scan_in_match (s : string) :
  no_space s = true → title_scan true s = toLowerCase s.
Proof.
  induction s as [|c s IH]; [done|]. simpl. intros [Hc Hs]%andb_true_iff.
  apply negb_true_iff in Hc. rewrite Hc. by rewrite IH.
Qed.

(** X10.  On a single word, a text of code units below 128 without
    white space that starts with a letter, a digit or an underscore,
    toTitleCase does what capitalize does: characters such as a hyphen do
    not start a new word. *)
Theorem toTitleCase_word (c : ascii) (r : string) :
  ascii_only (String c r) = true →
  is_word_char c = true → no_space (String c r) = true →
  toTitleCase_string (String c r) = capitalize_string (String c r).
Proof.
  intros _ Hw Hns. simpl in Hns. apply andb_true_iff in Hns as [_ Hr].
  unfold toTitleCase_string. cbn [title_scan capitalize_string]. rewrite Hw.
  by rewrite title_scan_in_match.
Qed.

Lemma toTitleCase_word_witness :
  ascii_only "sELF-eMPLOYED" = true ∧
  is_word_char "s" = true ∧ no_space "sELF-eMPLOYED" = true ∧
  toTitleCase_string "sELF-eMPLOYED" = "Self-employed".
Proof.
  assert (H0 : ascii_only (String "s" "ELF-eMPLOYED") = true) by reflexivity.
  assert (H1 : is_word_char "s" = true) by reflexivity.
  assert (H2 : no_space (String "s" "ELF-eMPLOYED") = true) by reflexivity.
  split; [exact H0|]. split; [exact H1|]. split; [exact H2|].
  exact (toTitleCase_word "s" "ELF-eMPLOYED" H0 H1 H2).
Defined.

(** ** Empty values *)

Lemma trim_end_nonempty (c : ascii) (r : string) :
  Ascii.is_space c = false → trim_end (String c r) ≠ "".
Proof.
  intros Hc. simpl. destruct (decide (trim_end r = "")); [by rewrite Hc|done].
Qed.

Lemma trim_empty_start (s : string) : trim s = "" → trim_start s = "".
Proof.
  unfold trim. induction s as [|c s IH]; [done|]. simpl.
  destruct (Ascii.is_space c) eqn:Hc; [done|].
  intros H. by apply trim_end_nonempty in H.
Qed.

Lemma remove_commas_blank (s : string) :
  trim_start s = "" → trim_start (remove_commas s) = "".
Proof.
  induction s as [|c s IH]; [done|]. simpl.
  destruct (Ascii.is_space c) eqn:Hc; [|done].
  intros H. destruct (decide (c = ","%char)) as [->|_]; [discriminate Hc|].
  simpl. rewrite Hc. by apply IH.
Qed.

(** X11.  What isEmpty calls empty among the values of a form field
    (null, undefined, the empty string, white space only), sanitizeNumber
    replaces by its default. *)
Theorem isEmpty_sanitizeNumber (value : jsvalue) (defaultValue : option number) :
  isEmpty (DValue value) = true →
  sanitizeNumber value defaultValue = default (of_Z 0) defaultValue.
Proof.
  intros H. apply (proj1 (sanitizeNumber_cases value defaultValue)).
  unfold unparsable. destruct value as [| |s]; [by left|by right; left|].
  right. right. right. simpl in H. apply bool_decide_eq_true in H.
  simpl. unfold parseFloat.
  by rewrite (remove_commas_blank s (trim_empty_start s H)).
Qed.

Lemma isEmpty_sanitizeNumber_witness :
  isEmpty (DValue (JString "   ")) = true ∧
  sanitizeNumber (JString "   ") (Some (of_Z 8)) = of_Z 8.
Proof.
  assert (H : isEmpty (DValue (JString "   ")) = true) by reflexivity.
  split; [exact H|]. exact (isEmpty_sanitizeNumber (JString "   ") (Some (of_Z 8)) H).
Defined.

(** ** Random choices *)

Lemma random_index_range (r : Qc) (n : nat) :
  in_unit_range r → (0 < n)%nat → (0 ≤ random_index r n < Z.of_nat n)%Z.
Proof.
  intros [H0 H1] Hn. unfold random_index.
  set (N := Qc_of_Z (Z.of_nat n)).
  assert (HN : 0 < N).
  { unfold N. rewrite <- Z2Qc_inj_0. apply (proj1 (Z2Qc_inj_lt _ _)). lia. }
  assert (Hlo : 0 <= r * N).
  { replace 0 with (0 * N) by ring. apply Qcmult_le_compat_r; [done|].
    by apply Qclt_le_weak. }
  assert (Hhi : r * N < N).
  { replace N with (1 * N) at 2 by ring. by apply Qcmult_lt_compat_r. }
  destruct (Qc_floor_spec (r * N)) as [Hf1 Hf2].
  split.
  - assert (H : (0 < Qc_floor (r * N) + 1)%Z); [|lia].
    apply Z2Qc_inj_lt. rewrite Z2Qc_inj_0, Z2Qc_inj_add, Z2Qc_inj_1.
    revert Hlo Hf2. generalize (Qc_of_Z (Qc_floor (r * N))) (r * N).
    intros f x ??. qc_lra.
  - apply Z2Qc_inj_lt. fold N.
    revert Hhi Hf1. generalize (Qc_of_Z (Qc_floor (r * N))) (r * N).
    intros f x ??. qc_lra.
Qed.

(** X12.  Given a draw in the range of Math.random, getRandomItem
    returns an item of a non-empty array, never undefined or null. *)
Theorem getRandomItem_member {A : Type} (random : Qc) (array : list A) :
  in_unit_range random → array ≠ [] →
  ∃ x, getRandomItem random array = Item x ∧ x ∈ array.
Proof.
  intros Hr Hne. unfold getRandomItem.
  assert (Hlen : (0 < length array)%nat) by (destruct array; [done|simpl; lia]).
  rewrite decide_False by lia.
  pose proof (random_index_range random (length array) Hr Hlen) as [Hi0 Hi1].
  unfold array_get. rewrite decide_False by lia.
  destruct (lookup_lt_is_Some_2 array (Z.to_nat (random_index random (length array))))
    as [x Hx]; [lia|].
  rewrite Hx. exists x. split; [done|]. by eapply list_elem_of_lookup_2.
Qed.

Lemma getRandomItem_member_witness :
  in_unit_range (Q2Qc (1 # 2)) ∧ ["rent"; "food"; "fun"] ≠ [] ∧
  ∃ x, getRandomItem (Q2Qc (1 # 2)) ["rent"; "food"; "fun"] = Item x ∧
       x ∈ ["rent"; "food"; "fun"].
Proof.
  assert (H1 : in_unit_range (Q2Qc (1 # 2))) by (split; by vm_compute).
  assert (H2 : ["rent"; "food"; "fun"] ≠ @nil string) by discriminate.
  split; [exact H1|]. split; [exact H2|].
  exact (getRandomItem_member (Q2Qc (1 # 2)) ["rent"; "food"; "fun"] H1 H2).
Defined.

(** X13.  getRandomItem can return every item of the array: for each
    position there is a draw in the range of Math.random that selects
    it. *)
Theorem getRandomItem_reaches {A : Type} (array : list A) (i : nat) (x : A) :
  array !! i = Some x →
  ∃ random, in_unit_range random ∧ getRandomItem random array = Item x.
Proof.
  intros Hx. pose proof (lookup_lt_Some _ _ _ Hx) as Hi.
  set (N := Qc_of_Z (Z.of_nat (length array))).
  assert (HN : 0 < N).
  { unfold N. rewrite <- Z2Qc_inj_0. apply (proj1 (Z2Qc_inj_lt _ _)). lia. }
  assert (HN0 : N ≠ 0) by (intros E; rewrite E in HN; by apply Qclt_not_eq in HN).
  exists (Qc_of_Z (Z.of_nat i) / N).
  assert (Hmul : Qc_of_Z (Z.of_nat i) / N * N = Qc_of_Z (Z.of_nat i)) by (by field).
  assert (Hidx : random_index (Qc_of_Z (Z.of_nat i) / N) (length array) = Z.of_nat i).
  { unfold random_index. fold N. rewrite Hmul. apply Qc_floor_unique.
    - apply Qcle_refl.
    - rewrite <- Z2Qc_inj_1, <- Z2Qc_inj_add. apply (proj1 (Z2Qc_inj_lt _ _)). lia. }
  split.
  - split.
    + apply Qcmult_lt_0_le_reg_r with N; [done|]. rewrite Hmul.
      replace (0 * N) with 0 by ring.
      rewrite <- Z2Qc_inj_0. apply (proj1 (Z2Qc_inj_le _ _)). lia.
    + destruct (Qclt_le_dec (Qc_of_Z (Z.of_nat i) / N) 1) as [|Hge]; [done|].
      exfalso. apply (Qcmult_le_compat_r _ _ N) in Hge; [|by apply Qclt_le_weak].
      rewrite Hmul in Hge. replace (1 * N) with N in Hge by ring.
      apply Z2Qc_inj_le in Hge. lia.
  - unfold getRandomItem. rewrite decide_False by lia.
    rewrite Hidx. unfold array_get. rewrite decide_False by lia.
    by rewrite Nat2Z.id, Hx.
Qed.

Lemma getRandomItem_reaches_witness :
  ["rent"; "food"; "fun"] !! 2%nat = Some "fun" ∧
  ∃ random, in_unit_range random ∧
    getRandomItem random ["rent"; "food"; "fun"] = Item "fun".
Proof.
  assert (H : ["rent"; "food"; "fun"] !! 2%nat = Some "fun") by reflexivity.
  split; [exact H|]. exact (getRandomItem_reaches ["rent"; "food"; "fun"] 2 "fun" H).
Defined.

(** ** Shuffling *)

Lemma swap_Permutation {A : Type} (l l' : list A) (i j : nat) :
  swap l i j = Some l' → l' ≡ₚ l ∧ length l' = length l.
Proof.
  unfold swap. destruct (l !! i) as [x|] eqn:Hi; [|done].
  destruct (l !! j) as [y|] eqn:Hj; [|done]. simpl. intros [= <-].
  split; [|by rewrite !length_insert].
  destruct (decide (i = j)) as [->|Hne].
  - rewrite list_insert_insert_eq. rewrite list_insert_id; [done|congruence].
  - symmetry. apply Permutation_inj. split; [by rewrite !length_insert|].
    exists (λ k, if decide (k = i) then j else if decide (k = j) then i else k).
    split.
    + intros a b. repeat case_decide; congruence.
    + intros k. repeat case_decide; subst.
      * rewrite list_lookup_insert_eq; [done|].
        rewrite length_insert. by eapply lookup_lt_Some.
      * rewrite list_lookup_insert_ne by done.
        rewrite list_lookup_insert_eq; [done|]. by eapply lookup_lt_Some.
      * by rewrite !list_lookup_insert_ne.
Qed.

Lemma shuffle_loop_Permutation {A : Type} (random : nat → Qc) (i k : nat) (l : list A) :
  (∀ n, in_unit_range (random n)) → (i < length l ∨ i = 0)%nat →
  ∃ l', shuffle_loop random k i l = Some l' ∧ l' ≡ₚ l.
Proof.
  intros Hr. revert k l. induction i as [|i IH]; intros k l Hi.
  - by exists l.
  - cbn [shuffle_loop].
    pose proof (random_index_range (random k) (S i + 1) (Hr k) ltac:(lia)) as [Hj0 Hj1].
    rewrite decide_True by done.
    destruct (lookup_lt_is_Some_2 l (S i)) as [x Hx]; [lia|].
    destruct (lookup_lt_is_Some_2 l (Z.to_nat (random_index (random k) (S i + 1))))
      as [y Hy]; [lia|].
    destruct (swap l (S i) (Z.to_nat (random_index (random k) (S i + 1)))) as [l1|] eqn:Hs.
    2:{ unfold swap in Hs. by rewrite Hx, Hy in Hs. }
    simpl. apply swap_Permutation in Hs as [Hp Hl].
    destruct (IH (S k) l1) as (l' & Hl' & Hp'); [lia|].
    exists l'. split; [done|]. by rewrite Hp'.
Qed.

(** X14.  With draws in the range of Math.random, shuffleArray returns a
    rearrangement of the array: every element is kept, as often as it
    occurred, and the length is the same. *)
Theorem shuffleArray_Permutation {A : Type} (random : nat → Qc) (array : list A) :
  (∀ k, in_unit_range (random k)) →
  ∃ shuffled, shuffleArray random array = Some shuffled ∧
    shuffled ≡ₚ array ∧ length shuffled = length array.
Proof.
  intros Hr. unfold shuffleArray.
  destruct (shuffle_loop_Permutation random (length array - 1) 0 array Hr)
    as (l' & Hl' & Hp); [lia|].
  exists l'. split_and!; [done|done|by rewrite Hp].
Qed.

Lemma shuffleArray_Permutation_witness :
  (∀ k : nat, in_unit_range (Q2Qc (1 # 3))) ∧
  ∃ shuffled, shuffleArray (λ _, Q2Qc (1 # 3)) [1%Z; 2%Z; 3%Z; 4%Z] = Some shuffled ∧
    shuffled ≡ₚ [1%Z; 2%Z; 3%Z; 4%Z] ∧ length shuffled = 4%nat.
Proof.
  assert (H : ∀ k : nat, in_unit_range (Q2Qc (1 # 3))) by (intros _; split; by vm_compute).
  split; [exact H|].
  exact (shuffleArray_Permutation (λ _, Q2Qc (1 # 3)) [1%Z; 2%Z; 3%Z; 4%Z] H).
Defined.

(** ** Retrying *)

Lemma backoff_double (delay : number) (i : nat) :
  backoff (delay * of_Z 2)%js i = backoff delay (S i).
Proof. unfold backoff. by rewrite Nat.iter_succ_r. Qed.

Lemma backoff_shift (delay : number) (k : nat) :
  backoff (delay * of_Z 2)%js <$> seq 0 k = backoff delay <$> seq 1 k.
Proof.
  rewrite <- (fmap_S_seq 0 k), <- list_fmap_compose.
  apply list_fmap_ext. intros _ i _. apply backoff_double.
Qed.

Lemma retry_from_success {V E : Type} (fn : nat → outcome V E) (k : nat) :
  ∀ (k0 retries : nat) (delay : number) (value : V),
    (k ≤ retries)%nat →
    (∀ j, (j < k)%nat → ∃ error, fn (k0 + j)%nat = Rejected error) →
    fn (k0 + k)%nat = Resolved value →
    ∃ trace, retry_from fn k0 retries delay = (trace, Resolved value) ∧
      calls trace = seq k0 (S k) ∧ sleeps trace = backoff delay <$> seq 0 k.
Proof.
  induction k as [|k IH]; intros k0 retries delay value Hk Hfail Hok.
  - rewrite Nat.add_0_r in Hok. exists [CallFn k0]%list.
    destruct retries; simpl; rewrite Hok; done.
  - destruct (Hfail 0%nat) as [error Herr]; [lia|]. rewrite Nat.add_0_r in Herr.
    destruct retries as [|retries]; [lia|].
    destruct (IH (S k0) retries (delay * of_Z 2)%js value) as (trace & Htr & Hc & Hs).
    + lia.
    + intros j Hj. destruct (Hfail (S j)) as [e He]; [lia|].
      exists e. by rewrite <- He, Nat.add_succ_r.
    + by rewrite <- Hok, Nat.add_succ_r.
    + exists (CallFn k0 :: Sleep delay :: trace). split_and!.
      * cbn [retry_from]. by rewrite Herr, Htr.
      * unfold calls in *. cbn [omap list_omap]. by rewrite Hc.
      * unfold sleeps in *. cbn [omap list_omap]. rewrite Hs.
        by rewrite backoff_shift.
Qed.

Lemma retry_from_exhausted {V E : Type} (fn : nat → outcome V E) (retries : nat) :
  ∀ (k0 : nat) (delay : number),
    (∀ j, (j ≤ retries)%nat → ∃ error, fn (k0 + j)%nat = Rejected error) →
    ∃ trace, retry_from fn k0 retries delay = (trace, fn (k0 + retries)%nat) ∧
      calls trace = seq k0 (S retries) ∧ sleeps trace = backoff delay <$> seq 0 retries.
Proof.
  induction retries as [|retries IH]; intros k0 delay Hfail.
  - destruct (Hfail 0%nat) as [error Herr]; [lia|]. rewrite Nat.add_0_r in *.
    exists [CallFn k0]%list. simpl. by rewrite Herr.
  - destruct (Hfail 0%nat) as [error Herr]; [lia|]. rewrite Nat.add_0_r in Herr.
    destruct (IH (S k0) (delay * of_Z 2)%js) as (trace & Htr & Hc & Hs).
    { intros j Hj. destruct (Hfail (S j)) as [e He]; [lia|].
      exists e. by rewrite <- He, Nat.add_succ_r. }
    exists (CallFn k0 :: Sleep delay :: trace). split_and!.
    + cbn [retry_from]. rewrite Herr, Htr. by rewrite Nat.add_succ_r.
    + unfold calls in *. cbn [omap list_omap]. by rewrite Hc.
    + unfold sleeps in *. cbn [omap list_omap]. rewrite Hs.
      by rewrite backoff_shift.
Qed.

Lemma retry_from_bounded {V E : Type} (fn : nat → outcome V E) (retries : nat) :
  ∀ (k0 : nat) (delay : number),
    let trace := (retry_from fn k0 retries delay).1 in
    (1 ≤ length (calls trace) ≤ S retries)%nat ∧
    S (length (sleeps trace)) = length (calls trace).
Proof.
  induction retries as [|retries IH]; intros k0 delay; cbn [retry_from].
  - destruct (fn k0); simpl; lia.
  - destruct (fn k0); [simpl; lia|].
    specialize (IH (S k0) (delay * of_Z 2)%js).
    destruct (retry_from fn (S k0) retries (delay * of_Z 2)%js) as [trace result].
    simpl in *. lia.
Qed.

(** X15.  retry returns the value of the first call of fn that succeeds,
    provided it is among the first retries + 1 calls: fn is called that
    often and no more, and before the retry number i, counted from 0, the
    delay has been doubled i times. *)
Theorem retry_first_success {V E : Type} (fn : nat → outcome V E)
    (retries : option Z) (delay : option number) (k : nat) (value : V) :
  (k ≤ Z.to_nat (default 3%Z retries))%nat →
  (∀ j, (j < k)%nat → ∃ error, fn j = Rejected error) →
  fn k = Resolved value →
  ∃ trace, retry fn retries delay = (trace, Resolved value) ∧
    calls trace = seq 0 (S k) ∧
    sleeps trace = backoff (default (of_Z 1000) delay) <$> seq 0 k.
Proof.
  intros Hk Hfail Hok. unfold retry.
  by apply (retry_from_success fn k 0).
Qed.

(** X16.  When the first retries + 1 calls of fn all fail, retry fails
    with the error of the last of them, after exactly retries + 1 calls
    and retries sleeps.  A negative number of retries leaves one call. *)
Theorem retry_exhausted {V E : Type} (fn : nat → outcome V E)
    (retries : option Z) (delay : option number) :
  let n := Z.to_nat (default 3%Z retries) in
  (∀ j, (j ≤ n)%nat → ∃ error, fn j = Rejected error) →
  ∃ trace error, retry fn retries delay = (trace, Rejected error) ∧
    fn n = Rejected error ∧
    calls trace = seq 0 (S n) ∧
    sleeps trace = backoff (default (of_Z 1000) delay) <$> seq 0 n.
Proof.
  intros n Hfail. unfold retry. fold n.
  destruct (retry_from_exhausted fn n 0 (default (of_Z 1000) delay) Hfail)
    as (trace & Htr & Hc & Hs).
  destruct (Hfail n) as [error Herr]; [lia|].
  exists trace, error. simpl in Htr. by rewrite Htr, Herr.
Qed.

(** X17.  Whatever fn does, retry calls it at least once and at most
    retries + 1 times, and sleeps once between two calls and at no other
    time. *)
Theorem retry_bounded {V E : Type} (fn : nat → outcome V E)
    (retries : option Z) (delay : option number) :
  let trace := (retry fn retries delay).1 in
  (1 ≤ length (calls trace) ≤ S (Z.to_nat (default 3%Z retries)))%nat ∧
  S (length (sleeps trace)) = length (calls trace).
Proof. apply retry_from_bounded. Qed.

Lemma backoff_Fin (d : Qc) (i : nat) : backoff (Fin d) i = Fin (d * 2 ^ i).
Proof.
  unfold backoff. induction i as [|i IH].
  - simpl. f_equal. ring.
  - rewrite Nat.iter_succ, IH. unfold js_mul, of_Z. f_equal.
    change (2 ^ S i) with (2 * 2 ^ i). replace (Qc_of_Z 2) with 2 by qc_closed. ring.
Qed.

Lemma total_backoff (d : Qc) (n k : nat) :
  foldr js_add (of_Z 0) ((λ i, Fin (d * 2 ^ i)) <$> seq k n)
    = Fin (d * 2 ^ k * (2 ^ n - 1)).
Proof.
  revert k. induction n as [|n IH]; intros k.
  - simpl. unfold of_Z. f_equal. rewrite Z2Qc_inj_0. ring.
  - cbn [seq fmap list_fmap foldr]. rewrite IH. unfold js_add. f_equal.
    change (2 ^ S k) with (2 * 2 ^ k). change (2 ^ S n) with (2 * 2 ^ n). ring.
Qed.

(** With a finite first delay d, the sleeps of a retry that fails
    for good add up to d * (2^retries - 1) milliseconds: 7000 with the
    defaults, 3 retries from 1000. *)
Theorem retry_total_sleep {V E : Type} (fn : nat → outcome V E)
    (retries : option Z) (delay : option number) (d : Qc) :
  let n := Z.to_nat (default 3%Z retries) in
  default (of_Z 1000) delay = Fin d →
  (∀ j, (j ≤ n)%nat → ∃ error, fn j = Rejected error) →
  total_sleep (retry fn retries delay).1 = Fin (d * (2 ^ n - 1)).
Proof.
  intros n Hd Hfail.
  destruct (retry_from_exhausted fn n 0 (default (of_Z 1000) delay) Hfail)
    as (trace & Htr & _ & Hs).
  unfold retry. fold n. rewrite Htr. unfold total_sleep. cbn [fst]. rewrite Hs, Hd.
  rewrite (list_fmap_ext (backoff (Fin d)) (λ i, Fin (d * 2 ^ i)) (seq 0 n))
    by (intros; apply backoff_Fin).
  rewrite total_backoff. f_equal. simpl. ring.
Qed.

Lemma retry_first_success_witness :
  ∃ trace,
    retry (λ k, if (k <? 2)%nat then Rejected "timeout" else Resolved 42%Z) None None
      = (trace, Resolved 42%Z) ∧
    calls trace = [0; 1; 2]%nat ∧
    sleeps trace = backoff (of_Z 1000) <$> [0; 1]%nat.
Proof.
  apply (retry_first_success
           (λ k, if (k <? 2)%nat then Rejected "timeout" else Resolved 42%Z)
           None None 2 42%Z).
  - simpl. lia.
  - intros j Hj. exists "timeout". destruct j as [|[|j]]; [reflexivity|reflexivity|lia].
  - reflexivity.
Defined.

Lemma retry_exhausted_witness :
  ∃ trace error,
    retry (λ _ : nat, @Rejected Z string "offline") (Some 2%Z) None
      = (trace, Rejected error) ∧
    error = "offline" ∧ calls trace = [0; 1; 2]%nat.
Proof.
  destruct (retry_exhausted (λ _ : nat, @Rejected Z string "offline") (Some 2%Z) None)
    as (trace & error & Htr & Herr & Hc & _).
  - intros j _. by exists "offline".
  - exists trace, error. split; [exact Htr|]. split; [congruence|exact Hc].
Defined.

Lemma retry_total_sleep_witness :
  total_sleep (retry (λ _ : nat, @Rejected Z string "offline") None None).1
    = Fin (Qc_of_Z 1000 * (2 ^ 3 - 1)).
Proof.
  apply (retry_total_sleep (λ _ : nat, @Rejected Z string "offline") None None
           (Qc_of_Z 1000)).
  - reflexivity.
  - intros j _. by exists "offline".
Defined.

(** ** Ages *)

(** X18.  calculateAge counts the whole years between the two dates: the
    birthday that many years after the birth date is today or already
    past, and the next one is still to come. *)
Theorem calculateAge_whole_years (today birth : date_parts) :
  let age := calculateAge today birth in
  date_le (add_years birth age) today ∧
  ¬ date_le (add_years birth (age + 1)) today.
Proof.
  unfold calculateAge, date_le, add_years. cbv zeta. cbn [fullYear month date].
  destruct today as [yt mt dt], birth as [yb mb db]. cbn [fullYear month date].
  destruct (bool_decide (mt - mb < 0)%Z) eqn:H1;
    [apply bool_decide_eq_true in H1|apply bool_decide_eq_false in H1];
  destruct (bool_decide (mt - mb = 0)%Z) eqn:H2;
    [apply bool_decide_eq_true in H2|apply bool_decide_eq_false in H2
    |apply bool_decide_eq_true in H2|apply bool_decide_eq_false in H2];
  destruct (bool_decide (dt < db)%Z) eqn:H3;
    [apply bool_decide_eq_true in H3|apply bool_decide_eq_false in H3
    |apply bool_decide_eq_true in H3|apply bool_decide_eq_false in H3
    |apply bool_decide_eq_true in H3|apply bool_decide_eq_false in H3
    |apply bool_decide_eq_true in H3|apply bool_decide_eq_false in H3];
  simpl; lia.
Qed.

(** The age never goes down as the days pass, and it is not
    negative from the birth date on. *)
Theorem calculateAge_monotone (today later birth : date_parts) :
  date_le today later →
  (calculateAge today birth ≤ calculateAge later birth)%Z ∧
  (date_le birth today → 0 ≤ calculateAge today birth)%Z.
Proof.
  unfold calculateAge, date_le. cbv zeta.
  destruct today as [yt mt dt], later as [yl ml dl], birth as [yb mb db].
  cbn [fullYear month date]. intros H.
  split; [|clear H; intros H];
  repeat match goal with
  | |- context [bool_decide ?P] =>
      let E := fresh in
      destruct (bool_decide P) eqn:E;
      [apply bool_decide_eq_true in E|apply bool_decide_eq_false in E]
  end; simpl; lia.
Qed.

Lemma calculateAge_monotone_witness :
  date_le (DateParts 2024 1 28) (DateParts 2024 2 1) ∧
  (calculateAge (DateParts 2024 1 28) (DateParts 2000 1 29)
     ≤ calculateAge (DateParts 2024 2 1) (DateParts 2000 1 29))%Z.
Proof.
  assert (H : date_le (DateParts 2024 1 28) (DateParts 2024 2 1)).
  { right. split; [reflexivity|]. left. simpl. lia. }
  split; [exact H|].
  exact (proj1 (calculateAge_monotone _ _ (DateParts 2000 1 29) H)).
Defined.

(** ** Regular expressions: the matcher and the meaning of a pattern *)

Lemma app_eq_empty (a b : string) : a +:+ b = "" → a = "" ∧ b = "".
Proof. destruct a; [done|]. by rewrite app_cons. Qed.

Lemma app_eq_cons (a b : string) (c : ascii) (s : string) :
  a +:+ b = String c s →
  (a = "" ∧ b = String c s) ∨ (∃ a', a = String c a' ∧ s = a' +:+ b).
Proof.
  destruct a as [|d a]; [by left|]. rewrite app_cons. intros [= -> <-].
  right. by exists a.
Qed.

Lemma str_app_assoc (a b c : string) : (a +:+ b) +:+ c = a +:+ (b +:+ c).
Proof. induction a as [|d a IH]; [done|]. by rewrite !app_cons, IH. Qed.

Lemma nullable_Lang (r : regex) : nullable r = true ↔ Lang r "".
Proof.
  split.
  - induction r as [| |p|r1 IH1 r2 IH2|r1 IH1 r2 IH2|r IH]; simpl; intros H.
    + done.
    + constructor.
    + done.
    + apply andb_true_iff in H as [H1 H2].
      change "" with ("" +:+ ""). constructor; auto.
    + apply orb_true_iff in H as [H|H]; [apply Lang_Alt_l|apply Lang_Alt_r]; auto.
    + constructor.
  - intros H. remember "" as s eqn:Hs.
    induction H as [|p c Hp|r1 r2 s1 s2 H1 IH1 H2 IH2|r1 r2 s H IH|r1 r2 s H IH
                   |r|r s1 s2 H1 IH1 H2 IH2]; simpl; try done.
    + apply app_eq_empty in Hs as [-> ->]. by rewrite IH1, IH2.
    + by rewrite IH.
    + rewrite IH by done. by rewrite orb_true_r.
Qed.

Lemma Lang_Star_cons_inv (r : regex) (c : ascii) (s : string) :
  Lang (Star r) (String c s) →
  ∃ s1 s2, s = s1 +:+ s2 ∧ Lang r (String c s1) ∧ Lang (Star r) s2.
Proof.
  intros H. remember (Star r) as r0 eqn:Hr. remember (String c s) as t eqn:Ht.
  revert s Ht.
  induction H as [|p d Hp|r1 r2 s1 s2 H1 IH1 H2 IH2|r1 r2 s' H IH|r1 r2 s' H IH
                 |r'|r' s1 s2 H1 IH1 H2 IH2]; intros s Ht; try done.
  injection Hr as ->.
  apply app_eq_cons in Ht as [[-> ->]|(a' & -> & ->)].
  - by apply IH2.
  - by exists a', s2.
Qed.

Lemma deriv_Lang (c : ascii) (r : regex) (s : string) :
  Lang (deriv c r) s ↔ Lang r (String c s).
Proof.
  revert s. induction r as [| |p|r1 IH1 r2 IH2|r1 IH1 r2 IH2|r IH]; intros s; simpl.
  - split; intros H; inversion H.
  - split; intros H; inversion H.
  - destruct (p c) eqn:Hp; split; intros H; inversion H; subst.
    + by constructor.
    + constructor.
    + congruence.
  - assert (Hcat : Lang (Cat (deriv c r1) r2) s →
                   Lang (Cat r1 r2) (String c s)).
    { intros H. inversion H as [| |? ? s1 s2 H1 H2| | | |]; subst.
      rewrite <- app_cons. constructor; [by apply IH1|done]. }
    assert (Hinv : Lang (Cat r1 r2) (String c s) →
                   (Lang r1 "" ∧ Lang r2 (String c s)) ∨
                   Lang (Cat (deriv c r1) r2) s).
    { intros H. inversion H as [| |? ? s1 s2 H1 H2 [E1 E2] E| | | |]; subst.
      apply app_eq_cons in E as [[-> ->]|(a' & -> & ->)]; [by left|].
      right. constructor; [by apply IH1|done]. }
    destruct (nullable r1) eqn:Hn.
    + split.
      * intros H. inversion H; subst; [by apply Hcat|].
        change (String c s) with ("" +:+ String c s).
        constructor; [by apply nullable_Lang|by apply IH2].
      * intros H. apply Hinv in H as [[_ H]|H];
          [apply Lang_Alt_r; by apply IH2|by apply Lang_Alt_l].
    + split; [done|]. intros H. apply Hinv in H as [[H _]|H]; [|done].
      apply nullable_Lang in H. congruence.
  - split; intros H; inversion H; subst.
    + apply Lang_Alt_l. by apply IH1.
    + apply Lang_Alt_r. by apply IH2.
    + apply Lang_Alt_l. by apply IH1.
    + apply Lang_Alt_r. by apply IH2.
  - split.
    + intros H. inversion H as [| |? ? s1 s2 H1 H2| | | |]; subst.
      rewrite <- app_cons. constructor; [by apply IH|done].
    + intros H. apply Lang_Star_cons_inv in H as (s1 & s2 & -> & H1 & H2).
      constructor; [by apply IH|done].
Qed.

(** The matcher accepts exactly the strings of the pattern. *)
Lemma regex_test_Lang (r : regex) (s : string) : regex_test r s = true ↔ Lang r s.
Proof.
  revert r. induction s as [|c s IH]; intros r; simpl.
  - apply nullable_Lang.
  - rewrite IH. apply deriv_Lang.
Qed.

Lemma Lang_Cat_inv (r1 r2 : regex) (s : string) :
  Lang (Cat r1 r2) s ↔ ∃ s1 s2, s = s1 +:+ s2 ∧ Lang r1 s1 ∧ Lang r2 s2.
Proof.
  split.
  - intros H. inversion H; subst. by eexists _, _.
  - intros (s1 & s2 & -> & H1 & H2). by constructor.
Qed.

Lemma Lang_Class_inv (p : ascii → bool) (s : string) :
  Lang (Class p) s ↔ ∃ c, s = String c "" ∧ p c = true.
Proof.
  split.
  - intros H. inversion H; subst. by eexists.
  - intros (c & -> & Hp). by constructor.
Qed.

Lemma Lang_Chr_inv (c : ascii) (s : string) : Lang (Chr c) s ↔ s = String c "".
Proof.
  unfold Chr. rewrite Lang_Class_inv. split.
  - intros (d & -> & Hd). by apply bool_decide_eq_true in Hd as ->.
  - intros ->. exists c. split; [done|]. by apply bool_decide_eq_true.
Qed.

Lemma Lang_Opt_inv (r : regex) (s : string) : Lang (Opt r) s ↔ s = "" ∨ Lang r s.
Proof.
  unfold Opt. split.
  - intros H. inversion H as [| | |? ? ? H'|? ? ? H'| |]; subst; [|by right].
    inversion H'. by left.
  - intros [->|H]; [apply Lang_Alt_l; constructor|by apply Lang_Alt_r].
Qed.

Lemma Lang_Rep_Class (n : nat) (p : ascii → bool) (s : string) :
  Lang (Rep n (Class p)) s ↔ String.length s = n ∧ all_chars p s = true.
Proof.
  revert s. induction n as [|n IH]; intros s; cbn [Rep].
  - split.
    + intros H. by inversion H.
    + intros [Hl _]. destruct s; [constructor|done].
  - rewrite Lang_Cat_inv. split.
    + intros (s1 & s2 & -> & (c & -> & Hp)%Lang_Class_inv & [Hl Ha]%IH).
      rewrite app_cons. change ("" +:+ s2) with s2. simpl.
      rewrite Hp, Ha. split; [|done]. by rewrite Hl.
    + intros [Hl Ha]. destruct s as [|c s]; [done|]. simpl in *.
      apply andb_true_iff in Ha as [Hp Ha].
      exists (String c ""), s. split_and!; [done|by constructor|].
      apply IH. split; [lia|done].
Qed.

Lemma Lang_RepUpTo_Class (n : nat) (p : ascii → bool) (s : string) :
  Lang (RepUpTo n (Class p)) s ↔ (String.length s ≤ n)%nat ∧ all_chars p s = true.
Proof.
  revert s. induction n as [|n IH]; intros s; cbn [RepUpTo].
  - split.
    + intros H. by inversion H.
    + intros [Hl _]. destruct s; [constructor|simpl in Hl; lia].
  - rewrite Lang_Opt_inv, Lang_Cat_inv. split.
    + intros [->|(s1 & s2 & -> & (c & -> & Hp)%Lang_Class_inv & [Hl Ha]%IH)].
      * split; [simpl; lia|done].
      * rewrite app_cons. change ("" +:+ s2) with s2. simpl.
        rewrite Hp, Ha. split; [lia|done].
    + intros [Hl Ha]. destruct s as [|c s]; [by left|]. right. simpl in *.
      apply andb_true_iff in Ha as [Hp Ha].
      exists (String c ""), s. split_and!; [done|by constructor|].
      apply IH. split; [lia|done].
Qed.

Lemma Lang_Star_Class (p : ascii → bool) (s : string) :
  Lang (Star (Class p)) s ↔ all_chars p s = true.
Proof.
  split.
  - intros H. remember (Star (Class p)) as r eqn:Hr.
    induction H as [|q d Hq|r1 r2 s1 s2 H1 IH1 H2 IH2|r1 r2 s' H IH|r1 r2 s' H IH
                   |r'|r' s1 s2 H1 IH1 H2 IH2]; try done.
    injection Hr as ->. apply Lang_Class_inv in H1 as (c & -> & Hp).
    rewrite app_cons. change ("" +:+ s2) with s2. simpl. rewrite Hp. by apply IH2.
  - induction s as [|c s IH]; simpl; [constructor|].
    intros [Hp Ha]%andb_true_iff.
    change (String c s) with (String c "" +:+ s).
    constructor; [by constructor|by apply IH].
Qed.

Lemma Lang_Plus_Class (p : ascii → bool) (s : string) :
  Lang (Plus (Class p)) s ↔ s ≠ "" ∧ all_chars p s = true.
Proof.
  unfold Plus. rewrite Lang_Cat_inv. split.
  - intros (s1 & s2 & -> & (c & -> & Hp)%Lang_Class_inv & Ha%Lang_Star_Class).
    rewrite app_cons. change ("" +:+ s2) with s2. simpl. by rewrite Hp, Ha.
  - intros [Hne Ha]. destruct s as [|c s]; [done|]. simpl in Ha.
    apply andb_true_iff in Ha as [Hp Ha].
    exists (String c ""), s. split_and!; [done|by constructor|by apply Lang_Star_Class].
Qed.

Lemma all_digits_all_chars (s : string) : all_digits s = all_chars is_digit s.
Proof. induction s as [|c s IH]; [done|]. simpl. by rewrite IH. Qed.

Lemma all_chars_app (p : ascii → bool) (a b : string) :
  all_chars p (a +:+ b) = all_chars p a && all_chars p b.
Proof.
  induction a as [|c a IH]; [done|]. rewrite app_cons. simpl.
  by rewrite IH, andb_assoc.
Qed.

Lemma str_take_app (a b : string) : str_take (String.length a) (a +:+ b) = a.
Proof. induction a as [|c a IH]; [by destruct b|]. rewrite app_cons. simpl. by rewrite IH. Qed.

Lemma str_drop_app (a b : string) : str_drop (String.length a) (a +:+ b) = b.
Proof. induction a as [|c a IH]; [by destruct b|]. rewrite app_cons. simpl. by rewrite IH. Qed.

(** ** The validation rules *)

Lemma bool_eq_iff (a b : bool) : (a = true ↔ b = true) → a = b.
Proof. destruct a, b; intuition congruence. Qed.

Lemma Lang_digits (n : nat) (s : string) :
  Lang (Rep n (Class is_digit)) s ↔ String.length s = n ∧ all_digits s = true.
Proof. by rewrite Lang_Rep_Class, all_digits_all_chars. Qed.

(** The texts of [/^\d{5}(-\d{4})?$/], in words. *)
Lemma zipCode_regex_shape (s : string) :
  Lang zipCode_regex s ↔
  ∃ d5 rest, s = d5 +:+ rest ∧ String.length d5 = 5%nat ∧ all_digits d5 = true ∧
    (rest = "" ∨ ∃ d4, rest = String "-" d4 ∧ String.length d4 = 4%nat ∧
                       all_digits d4 = true).
Proof.
  unfold zipCode_regex. rewrite Lang_Cat_inv. split.
  - intros (d5 & rest & -> & [Hl Hd]%Lang_digits & Hrest%Lang_Opt_inv).
    exists d5, rest. split_and!; [done..|].
    destruct Hrest as [->|Hrest]; [by left|right].
    apply Lang_Cat_inv in Hrest as (h & d4 & -> & ->%Lang_Chr_inv & [Hl4 Hd4]%Lang_digits).
    by exists d4.
  - intros (d5 & rest & -> & Hl & Hd & Hrest). exists d5, rest.
    split_and!; [done|by apply Lang_digits|]. apply Lang_Opt_inv.
    destruct Hrest as [->|(d4 & -> & Hl4 & Hd4)]; [by left|right].
    apply Lang_Cat_inv. exists "-", d4.
    split_and!; [done|by apply Lang_Chr_inv|by apply Lang_digits].
Qed.

Lemma zip_regex_test_shape (s : string) :
  zip_regex_test s = true ↔
  ∃ d5 rest, s = d5 +:+ rest ∧ String.length d5 = 5%nat ∧ all_digits d5 = true ∧
    (rest = "" ∨ ∃ d4, rest = String "-" d4 ∧ String.length d4 = 4%nat ∧
                       all_digits d4 = true).
Proof.
  unfold zip_regex_test. cbv zeta. split.
  - intros H. apply andb_true_iff in H as [H Hrest].
    apply andb_true_iff in H as [Hl%bool_decide_eq_true Hd].
    exists (str_take 5 s), (str_drop 5 s).
    split_and!; [by rewrite str_take_drop|done|done|].
    destruct (str_drop 5 s) as [|c d4]; [by left|right].
    destruct (decide (c = "-"%char)) as [->|Hc].
    + apply andb_true_iff in Hrest as [Hl4%bool_decide_eq_true Hd4]. by exists d4.
    + exfalso. clear -Hrest Hc.
      destruct c as [[] [] [] [] [] [] [] []]; try discriminate Hrest. by apply Hc.
  - intros (d5 & rest & -> & Hl & Hd & Hrest).
    rewrite <- Hl, str_take_app, str_drop_app. rewrite Hl, Hd.
    rewrite bool_decide_eq_true_2 by done. simpl.
    destruct Hrest as [->|(d4 & -> & Hl4 & Hd4)]; [done|].
    by rewrite Hd4, bool_decide_eq_true_2.
Qed.

(** X19.  The zipCode rule of VALIDATION_RULES accepts exactly the texts
    that the ZIP check of the income form accepts: five digits, or five
    digits, a hyphen and four digits.  The form trims the text first, the
    rule does not. *)
Theorem zipCode_rule_agrees (s : string) :
  VALIDATION_RULES.zipCode (JString s) = zip_regex_test s.
Proof.
  apply bool_eq_iff. unfold VALIDATION_RULES.zipCode. simpl.
  by rewrite regex_test_Lang, zipCode_regex_shape, zip_regex_test_shape.
Qed.

Lemma remove_char_app (x : ascii) (a b : string) :
  remove_char x (a +:+ b) = remove_char x a +:+ remove_char x b.
Proof.
  induction a as [|c a IH]; [done|]. rewrite app_cons. simpl.
  destruct (decide (c = x)); [done|]. by rewrite app_cons, IH.
Qed.

Lemma remove_hyphen_digits (a : string) :
  all_digits a = true → remove_char "-" a = a.
Proof.
  induction a as [|c a IH]; [done|]. simpl. intros [Hc Ha]%andb_true_iff.
  destruct (decide (c = "-"%char)) as [->|_]; [discriminate Hc|]. by rewrite IH.
Qed.

(** An optional hyphen. *)
Lemma Lang_Opt_hyphen (s : string) :
  Lang (Opt (Chr "-")) s ↔ ∃ h : bool, s = if h then "-" else "".
Proof.
  rewrite Lang_Opt_inv, Lang_Chr_inv. split.
  - intros [->| ->]; [by exists false|by exists true].
  - intros [[] ->]; [by right|by left].
Qed.

(** X20.  The ssn rule accepts nine digits in groups of three, two and
    four, with a hyphen or nothing between the groups, each hyphen being
    optional on its own; so an accepted text is nine digits once the
    hyphens are taken out. *)
Theorem ssn_rule_shape (s : string) :
  (VALIDATION_RULES.ssn (JString s) = true ↔
   ∃ (a b c : string) (h1 h2 : bool),
     s = a +:+ (if h1 then "-" else "") +:+ b +:+ (if h2 then "-" else "") +:+ c ∧
     (String.length a = 3 ∧ String.length b = 2 ∧ String.length c = 4)%nat ∧
     all_digits a = true ∧ all_digits b = true ∧ all_digits c = true) ∧
  (VALIDATION_RULES.ssn (JString s) = true →
   all_digits (remove_char "-" s) = true ∧
   String.length (remove_char "-" s) = 9%nat).
Proof.
  assert (Hshape : VALIDATION_RULES.ssn (JString s) = true ↔
   ∃ (a b c : string) (h1 h2 : bool),
     s = a +:+ (if h1 then "-" else "") +:+ b +:+ (if h2 then "-" else "") +:+ c ∧
     (String.length a = 3 ∧ String.length b = 2 ∧ String.length c = 4)%nat ∧
     all_digits a = true ∧ all_digits b = true ∧ all_digits c = true).
  { unfold VALIDATION_RULES.ssn, ssn_regex. cbn [String_]. rewrite regex_test_Lang. split.
    - intros (a & s1 & -> & [Hla Hda]%Lang_digits &
              (x1 & s2 & -> & [h1 ->]%Lang_Opt_hyphen &
               (b & s3 & -> & [Hlb Hdb]%Lang_digits &
                (x2 & c & -> & [h2 ->]%Lang_Opt_hyphen &
                 [Hlc Hdc]%Lang_digits)%Lang_Cat_inv)%Lang_Cat_inv)%Lang_Cat_inv)%Lang_Cat_inv.
      by exists a, b, c, h1, h2.
    - intros (a & b & c & h1 & h2 & -> & (Hla & Hlb & Hlc) & Hda & Hdb & Hdc).
      apply Lang_Cat; [by apply Lang_digits|].
      apply Lang_Cat; [apply Lang_Opt_hyphen; by eexists|].
      apply Lang_Cat; [by apply Lang_digits|].
      apply Lang_Cat; [apply Lang_Opt_hyphen; by eexists|].
      by apply Lang_digits. }
  split; [done|]. intros H.
  apply Hshape in H as (a & b & c & h1 & h2 & -> & (Hla & Hlb & Hlc) & Hda & Hdb & Hdc).
  rewrite !remove_char_app, !(remove_hyphen_digits _ Hda), !(remove_hyphen_digits _ Hdb),
    !(remove_hyphen_digits _ Hdc).
  assert (Hh : ∀ h : bool, remove_char "-" (if h then "-" else "") = "") by (by intros []).
  rewrite !Hh. change (a +:+ "" +:+ b +:+ "" +:+ c) with (a +:+ b +:+ c). split.
  - by rewrite !all_digits_app, Hda, Hdb, Hdc.
  - rewrite !length_app. lia.
Qed.

(** X21.  The phone rule accepts an optional plus sign followed by 1 to
    16 digits of which the first is not 0, and nothing else: a space, a
    hyphen, a bracket or a leading 0 makes the number invalid. *)
Theorem phone_rule_shape (s : string) :
  VALIDATION_RULES.phone (JString s) = phone_shape s.
Proof.
  apply bool_eq_iff. unfold VALIDATION_RULES.phone, phone_regex. cbn [String_].
  rewrite regex_test_Lang.
  assert (Hrest : ∀ t, Lang (Cat (Class is_nonzero_digit) (RepUpTo 15 (Class is_digit))) t ↔
            match t with
            | String c r =>
                is_nonzero_digit c && all_digits r
                && bool_decide (String.length r ≤ 15)%nat = true
            | "" => False
            end).
  { intros t. rewrite Lang_Cat_inv. split.
    - intros (s1 & r & -> & (c & -> & Hc)%Lang_Class_inv & [Hl Hd]%Lang_RepUpTo_Class).
      rewrite app_cons. change ("" +:+ r) with r.
      rewrite Hc, all_digits_all_chars, Hd. by rewrite bool_decide_eq_true_2.
    - destruct t as [|c r]; [done|]. intros H.
      apply andb_true_iff in H as [H Hl%bool_decide_eq_true].
      apply andb_true_iff in H as [Hc Hd].
      exists (String c ""), r. split_and!; [done|by constructor|].
      apply Lang_RepUpTo_Class. by rewrite <- all_digits_all_chars. }
  rewrite Lang_Cat_inv. unfold phone_shape. cbv zeta. split.
  - intros (s1 & t & -> & [->| ->%Lang_Chr_inv]%Lang_Opt_inv & Ht%Hrest).
    + change ("" +:+ t) with t. destruct t as [|c r]; [done|].
      destruct (decide (c = "+"%char)) as [->|Hc]; [discriminate Ht|].
      clear -Ht Hc. destruct c as [[] [] [] [] [] [] [] []]; try done.
    + rewrite app_cons. change ("" +:+ t) with t. by destruct t.
  - intros H. destruct s as [|c r]; [done|].
    destruct (decide (c = "+"%char)) as [->|Hc].
    + exists "+", r. split_and!; [done|apply Lang_Opt_inv; right; by apply Lang_Chr_inv|].
      apply Hrest. by destruct r.
    + exists "", (String c r). split_and!; [done|apply Lang_Opt_inv; by left|].
      apply Hrest. clear -H Hc. destruct c as [[] [] [] [] [] [] [] []]; try done.
Qed.

Lemma count_char_app (x : ascii) (a b : string) :
  count_char x (a +:+ b) = (count_char x a + count_char x b)%nat.
Proof.
  induction a as [|c a IH]; [done|]. rewrite app_cons. simpl. rewrite IH. lia.
Qed.

Lemma not_space_or_at_spec (a : string) :
  all_chars not_space_or_at a = true → count_char "@" a = 0%nat ∧ no_space a = true.
Proof.
  induction a as [|c a IH]; [done|]. simpl. intros [Hc Ha]%andb_true_iff.
  destruct (IH Ha) as [IH1 IH2]. unfold not_space_or_at in Hc.
  apply andb_true_iff in Hc as [Hs Hat]. rewrite Hs, IH1, IH2.
  apply negb_true_iff, bool_decide_eq_false in Hat. by rewrite decide_False.
Qed.

(** X22.  Of the texts of code units below 128, the email rule accepts
    those of the form local@domain.tld in which the three parts are not
    empty and hold neither white space nor an at sign; so an accepted
    address has exactly one at sign and no white space.  Nothing more is
    checked. *)
Theorem email_rule_shape (s : string) :
  ascii_only s = true →
  (VALIDATION_RULES.email (JString s) = true ↔
   ∃ local domain tld : string,
     s = local +:+ "@" +:+ domain +:+ "." +:+ tld ∧
     local ≠ "" ∧ domain ≠ "" ∧ tld ≠ "" ∧
     all_chars not_space_or_at local = true ∧
     all_chars not_space_or_at domain = true ∧
     all_chars not_space_or_at tld = true) ∧
  (VALIDATION_RULES.email (JString s) = true →
   count_char "@" s = 1%nat ∧ no_space s = true).
Proof.
  intros _.
  assert (Hshape : VALIDATION_RULES.email (JString s) = true ↔
   ∃ local domain tld : string,
     s = local +:+ "@" +:+ domain +:+ "." +:+ tld ∧
     local ≠ "" ∧ domain ≠ "" ∧ tld ≠ "" ∧
     all_chars not_space_or_at local = true ∧
     all_chars not_space_or_at domain = true ∧
     all_chars not_space_or_at tld = true).
  { unfold VALIDATION_RULES.email, email_regex. cbn [String_]. rewrite regex_test_Lang. split.
    - intros (a & s1 & -> & [Hna Ha]%Lang_Plus_Class &
              (x1 & s2 & -> & ->%Lang_Chr_inv &
               (b & s3 & -> & [Hnb Hb]%Lang_Plus_Class &
                (x2 & c & -> & ->%Lang_Chr_inv &
                 [Hnc Hc]%Lang_Plus_Class)%Lang_Cat_inv)%Lang_Cat_inv)%Lang_Cat_inv)%Lang_Cat_inv.
      by exists a, b, c.
    - intros (a & b & c & -> & Hna & Hnb & Hnc & Ha & Hb & Hc).
      apply Lang_Cat; [by apply Lang_Plus_Class|].
      apply Lang_Cat; [by apply Lang_Chr_inv|].
      apply Lang_Cat; [by apply Lang_Plus_Class|].
      apply Lang_Cat; [by apply Lang_Chr_inv|].
      by apply Lang_Plus_Class. }
  split; [done|]. intros H.
  apply Hshape in H as (a & b & c & -> & _ & _ & _ & Ha & Hb & Hc).
  apply not_space_or_at_spec in Ha as [Ha1 Ha2].
  apply not_space_or_at_spec in Hb as [Hb1 Hb2].
  apply not_space_or_at_spec in Hc as [Hc1 Hc2].
  split.
  - rewrite !count_char_app, Ha1, Hb1, Hc1. reflexivity.
  - rewrite !no_space_app, Ha2, Hb2, Hc2. reflexivity.
Qed.

Lemma email_rule_shape_witness :
  ascii_only "pat@example.com" = true ∧
  VALIDATION_RULES.email (JString "pat@example.com") = true ∧
  count_char "@" "pat@example.com" = 1%nat.
Proof.
  assert (H : ascii_only "pat@example.com" = true) by reflexivity.
  split; [exact H|].
  destruct (email_rule_shape "pat@example.com" H) as [Hiff Hcount].
  assert (Hok : VALIDATION_RULES.email (JString "pat@example.com") = true).
  { apply Hiff. exists "pat", "example", "com". by vm_compute. }
  split; [exact Hok|]. exact (proj1 (Hcount Hok)).
Defined.

(** ** validateInput *)

Lemma validate_rule_acc (value : jsvalue) (acc : list message) (entry : string * rule_value) :
  validate_rule value acc entry = (acc ++ validate_rule value [] entry)%list.
Proof.
  unfold validate_rule. destruct entry as [rule ruleValue].
  repeat match goal with
  | |- context [if ?b then _ else _] => destruct b; [done|]
  end.
  by rewrite app_nil_r.
Qed.

Lemma validate_rule_length (value : jsvalue) (entry : string * rule_value) :
  (length (validate_rule value [] entry) ≤ 1)%nat.
Proof.
  unfold validate_rule. destruct entry as [rule ruleValue].
  repeat match goal with
  | |- context [if ?b then _ else _] => destruct b; [simpl; lia|]
  end.
  simpl. lia.
Qed.

Lemma foldl_validate_rule (value : jsvalue) (acc : list message)
    (rules : list (string * rule_value)) :
  foldl (validate_rule value) acc rules = (acc ++ (rules ≫= validate_rule value []))%list.
Proof.
  revert acc. induction rules as [|entry rules IH]; intros acc; simpl.
  - by rewrite app_nil_r.
  - rewrite IH, (validate_rule_acc value acc entry). by rewrite <- app_assoc.
Qed.

Lemma validateInput_errors (value : jsvalue) (rules : list (string * rule_value)) :
  errors (validateInput value rules) = rules ≫= validate_rule value [].
Proof. unfold validateInput. simpl. by rewrite foldl_validate_rule. Qed.

(** validateInput checks the rules one by one, in the order of the
    rules object, and reports at most one message per rule: the messages
    for two sets of rules taken together are those of the first set
    followed by those of the second, and the value is valid for both
    together exactly when it is valid for each. *)
Theorem validateInput_compose (value : jsvalue) (rules1 rules2 : list (string * rule_value)) :
  errors (validateInput value (rules1 ++ rules2))
    = (errors (validateInput value rules1) ++ errors (validateInput value rules2))%list ∧
  isValid (validateInput value (rules1 ++ rules2))
    = isValid (validateInput value rules1) && isValid (validateInput value rules2) ∧
  (length (errors (validateInput value rules1)) ≤ length rules1)%nat ∧
  (isValid (validateInput value rules1) = true ↔ errors (validateInput value rules1) = []).
Proof.
  assert (Herr : errors (validateInput value (rules1 ++ rules2))
    = (errors (validateInput value rules1) ++ errors (validateInput value rules2))%list).
  { rewrite !validateInput_errors. apply bind_app. }
  split_and!.
  - done.
  - change (isValid (validateInput value (rules1 ++ rules2)))
      with (bool_decide (length (errors (validateInput value (rules1 ++ rules2))) = 0%nat)).
    rewrite Herr.
    change (isValid (validateInput value rules1))
      with (bool_decide (length (errors (validateInput value rules1)) = 0%nat)).
    change (isValid (validateInput value rules2))
      with (bool_decide (length (errors (validateInput value rules2)) = 0%nat)).
    rewrite List.length_app.
    destruct (errors (validateInput value rules1)), (errors (validateInput value rules2)); done.
  - rewrite validateInput_errors. clear Herr.
    induction rules1 as [|entry rules1 IH]; [done|].
    cbn [mbind list_bind length]. rewrite List.length_app.
    pose proof (validate_rule_length value entry). lia.
  - change (isValid (validateInput value rules1))
      with (bool_decide (length (errors (validateInput value rules1)) = 0%nat)).
    destruct (errors (validateInput value rules1)); [done|].
    split; [by intros ?%bool_decide_eq_true|done].
Qed.

(** X23.  A value that is not a number (Number(value) is NaN, as for
    'abc' or undefined) fails every min and every max rule, whatever the
    bound: both messages are reported. *)
Theorem validateInput_not_a_number (value : jsvalue)
    (rules : list (string * rule_value)) (bound : rule_value) :
  isNaN (Number_value value) = true →
  (("min", bound) ∈ rules → MIN_VALUE bound ∈ errors (validateInput value rules)) ∧
  (("max", bound) ∈ rules → MAX_VALUE bound ∈ errors (validateInput value rules)).
Proof.
  intros HNaN. rewrite validateInput_errors.
  assert (HN : Number_value value = NaN) by (by destruct (Number_value value)).
  split; intros Hin; apply list_elem_of_bind; eexists; (split; [|exact Hin]).
  - unfold validate_rule, VALIDATION_RULES.min, js_ge. rewrite HN.
    simpl. destruct (rule_number bound); simpl; apply list_elem_of_here.
  - unfold validate_rule, VALIDATION_RULES.max. rewrite HN.
    simpl. apply list_elem_of_here.
Qed.

Lemma validateInput_not_a_number_witness :
  isNaN (Number_value (JString "abc")) = true ∧
  MIN_VALUE (RNumber (of_Z 0))
    ∈ errors (validateInput (JString "abc")
                [("min", RNumber (of_Z 0)); ("max", RNumber (of_Z 100))]) ∧
  MAX_VALUE (RNumber (of_Z 100))
    ∈ errors (validateInput (JString "abc")
                [("min", RNumber (of_Z 0)); ("max", RNumber (of_Z 100))]).
Proof.
  assert (H : isNaN (Number_value (JString "abc")) = true) by reflexivity.
  split; [exact H|]. split.
  - apply (validateInput_not_a_number (JString "abc") _ (RNumber (of_Z 0)) H).
    apply list_elem_of_here.
  - apply (validateInput_not_a_number (JString "abc") _ (RNumber (of_Z 100)) H).
    apply list_elem_of_further, list_elem_of_here.
Defined.

(** X24.  Only min and max read the value that the rules object gives
    them: required, email, phone, zipCode and ssn are applied whatever
    that value is, so required: false still requires.  A rule under any
    other name, a misspelt one included, is passed over without a
    message. *)
Theorem validateInput_rule_names (value : jsvalue) (rule : string)
    (ruleValue ruleValue' : rule_value) :
  (rule ≠ "min" → rule ≠ "max" →
   validateInput value [(rule, ruleValue)] = validateInput value [(rule, ruleValue')]) ∧
  (rule ∉ ["required"; "min"; "max"; "email"; "phone"; "zipCode"; "ssn"] →
   validateInput value [(rule, ruleValue)] = Validation true []).
Proof.
  split.
  - intros Hmin Hmax. unfold validateInput. simpl.
    rewrite (bool_decide_eq_false_2 (rule = "min")) by done.
    by rewrite (bool_decide_eq_false_2 (rule = "max")).
  - intros Hnot. unfold validateInput. simpl.
    assert (Hname : ∀ name,
              name ∈ ["required"; "min"; "max"; "email"; "phone"; "zipCode"; "ssn"] →
              bool_decide (rule = name) = false).
    { intros name Hin. apply bool_decide_eq_false. by intros ->. }
    rewrite !Hname; [done|..];
      repeat first [apply list_elem_of_here | apply list_elem_of_further].
Qed.

(** ** Rounding keeps the order *)

Lemma Qc_floor_mono (x y : Qc) : x <= y → (Qc_floor x ≤ Qc_floor y)%Z.
Proof. intros H. by apply Qfloor_resp_le. Qed.

Lemma scaled_nearest_mono (f : Z) (a b : Qc) :
  a <= b →
  Qc_of_Z (Qc_floor (a * pow10 f + Q2Qc (1 # 2)))
    <= Qc_of_Z (Qc_floor (b * pow10 f + Q2Qc (1 # 2))).
Proof.
  intros Hab. apply (proj1 (Z2Qc_inj_le _ _)), Qc_floor_mono.
  apply Qcplus_le_compat; [|apply Qcle_refl].
  apply Qcmult_le_compat_r; [done|]. apply Qclt_le_weak, pow10_pos.
Qed.

Lemma scaled_nearest_nonneg (f : Z) (a : Qc) :
  0 <= a → 0 <= Qc_of_Z (Qc_floor (a * pow10 f + Q2Qc (1 # 2))).
Proof.
  intros Ha. rewrite <- Z2Qc_inj_0. apply (proj1 (Z2Qc_inj_le _ _)).
  apply Qc_floor_nonneg, half_scaled_nonneg; [done|]. apply Qclt_le_weak, pow10_pos.
Qed.

(** [Number(x.toFixed(f))] grows with [x]. *)
Lemma fixed_value_mono (f : Z) (q1 q2 : Qc) :
  q1 <= q2 → fixed_value f q1 <= fixed_value f q2.
Proof.
  intros Hq. unfold fixed_value. cbv zeta.
  pose proof (Qclt_le_weak _ _ (pow10_pos (- f))) as HP.
  destruct (decide (q1 < 0)) as [H1|H1], (decide (q2 < 0)) as [H2|H2].
  - rewrite (Qcabs_neg q1), (Qcabs_neg q2) by (by apply Qclt_le_weak).
    apply Qcmult_le_compat_r; [|done]. apply Qcopp_le_compat.
    apply scaled_nearest_mono. by apply Qcopp_le_compat.
  - apply Qcle_trans with (0 * pow10 (- f)).
    + apply Qcmult_le_compat_r; [|done].
      pose proof (scaled_nearest_nonneg f (Qcabs q1) (Qcabs_nonneg q1)) as Hn.
      revert Hn. generalize (Qc_of_Z (Qc_floor (Qcabs q1 * pow10 f + Q2Qc (1 # 2)))).
      intros n Hn. qc_lra.
    + apply Qcmult_le_compat_r; [|done].
      apply scaled_nearest_nonneg, Qcabs_nonneg.
  - exfalso. apply H1. by apply Qcle_lt_trans with q2.
  - apply Qcnot_lt_le in H1, H2. rewrite (Qcabs_pos q1), (Qcabs_pos q2) by done.
    apply Qcmult_le_compat_r; [|done]. by apply scaled_nearest_mono.
Qed.

Lemma fixed_value_0 (f : Z) : fixed_value f 0 = 0.
Proof.
  pose proof (fixed_value_exact f 0) as H.
  replace (Qc_of_Z 0 * pow10 (- f)) with 0 in H; [done|].
  rewrite Z2Qc_inj_0. ring.
Qed.

Lemma pow10_of_nat (f : nat) : pow10 (Z.of_nat f) = Qc_of_Z 10 ^ f.
Proof.
  destruct f as [|f]; [done|].
  change (pow10 (Z.of_nat (S f))) with (Qc_of_Z 10 ^ Pos.to_nat (Pos.of_succ_nat f)).
  by rewrite SuccNat2Pos.id_succ.
Qed.

Lemma pow10_nat (f : nat) : pow10 (Z.of_nat f) = Qc_of_Z (10 ^ Z.of_nat f).
Proof.
  rewrite pow10_of_nat. induction f as [|f IH]; [apply Qc_is_canon; reflexivity|].
  rewrite Nat2Z.inj_succ, Z.pow_succ_r by lia. rewrite Z2Qc_inj_mul, <- IH.
  reflexivity.
Qed.

(** A whole number is a whole number of units [10^-f], for [f] from 0
    on, and so is left as it is. *)
Lemma fixed_value_whole (f k : Z) :
  (0 ≤ f)%Z → fixed_value f (Qc_of_Z k) = Qc_of_Z k.
Proof.
  intros Hf. pose proof (fixed_value_exact f (k * 10 ^ f)) as H.
  assert (E : Qc_of_Z (k * 10 ^ f) * pow10 (- f) = Qc_of_Z k).
  { rewrite Z2Qc_inj_mul. rewrite <- (Z2Nat.id f) at 1 by done.
    rewrite <- pow10_nat, Z2Nat.id by done.
    rewrite <- Qcmult_assoc, pow10_opp. ring. }
  by rewrite E in H.
Qed.

(** ** calculatePercentage *)

(** X25.  A part of a whole is given a percentage from 0 to 100: for
    0 <= value <= total and total > 0 the result lies between 0 and 100,
    whatever the number of decimals from 0 to 100, the rounding
    included. *)
Theorem calculatePercentage_range (v t : Qc) (d : Z) :
  0 <= v → v <= t → 0 < t → (0 ≤ d ≤ 100)%Z →
  ∃ p, calculatePercentage (Fin v) (Fin t) (Some (of_Z d)) = Normal (Fin p) ∧
       0 <= p ∧ p <= Qc_of_Z 100.
Proof.
  intros Hv Hvt Ht Hd.
  assert (Ht0 : t ≠ 0) by (intros ->; by apply Qclt_not_eq in Ht).
  assert (Hq : ((Fin v / Fin t) * of_Z 100)%js = Fin (v / t * Qc_of_Z 100)).
  { unfold js_div, js_mul, of_Z. by rewrite decide_False. }
  unfold calculatePercentage. cbn [default from_option id].
  rewrite js_strict_eq_0, bool_decide_eq_false_2 by done.
  rewrite Hq, Number_toFixed_number by done.
  eexists. split; [done|].
  assert (H100 : 0 <= Qc_of_Z 100) by (by vm_compute).
  assert (Hlo : 0 <= v / t * Qc_of_Z 100).
  { apply Qcmult_nonneg_nonneg; [|done]. unfold Qcdiv.
    apply Qcmult_nonneg_nonneg; [done|]. by apply Qclt_le_weak, Qcinv_pos. }
  assert (Hhi : v / t * Qc_of_Z 100 <= Qc_of_Z 100).
  { rewrite <- (Qcmult_1_l (Qc_of_Z 100)) at 2.
    apply Qcmult_le_compat_r; [|done].
    replace 1 with (t / t) by (by field). unfold Qcdiv.
    apply Qcmult_le_compat_r; [done|]. by apply Qclt_le_weak, Qcinv_pos. }
  split.
  - apply Qcle_trans with (fixed_value d 0); [|by apply fixed_value_mono].
    rewrite fixed_value_0. apply Qcle_refl.
  - apply Qcle_trans with (fixed_value d (Qc_of_Z 100)); [by apply fixed_value_mono|].
    rewrite fixed_value_whole by lia. apply Qcle_refl.
Qed.

Lemma calculatePercentage_range_witness :
  ∃ p, calculatePercentage (Fin (Qc_of_Z 1999)) (Fin (Qc_of_Z 2000)) (Some (of_Z 0))
         = Normal (Fin p) ∧
       0 <= p ∧ p <= Qc_of_Z 100.
Proof.
  apply (calculatePercentage_range (Qc_of_Z 1999) (Qc_of_Z 2000) 0).
  - by vm_compute.
  - by vm_compute.
  - by vm_compute.
  - lia.
Defined.

(** ** The decimals that calculatePercentage accepts *)

Lemma quot_in_range_aux (b q r z : Z) :
  (0 < b)%Z → z = (b * q + r)%Z →
  (0 ≤ z → 0 ≤ r < b)%Z → (z < 0 → - b < r ≤ 0)%Z →
  (0 ≤ q ≤ 100)%Z ↔ (- b < z < 101 * b)%Z.
Proof.
  intros Hb E Hpos Hneg. destruct (Z_le_gt_dec 0 z) as [Hz|Hz].
  - specialize (Hpos Hz). clear Hneg. subst z. split; intros [H1 H2]; split; nia.
  - specialize (Hneg ltac:(lia)). clear Hpos. subst z. split; intros [H1 H2]; split; nia.
Qed.

Lemma quot_in_range (z : Z) (p : positive) :
  (0 ≤ z ÷ Z.pos p ≤ 100)%Z ↔ (- Z.pos p < z < 101 * Z.pos p)%Z.
Proof.
  apply (quot_in_range_aux (Z.pos p) (z ÷ Z.pos p) (Z.rem z (Z.pos p)) z).
  - lia.
  - apply Z.quot_rem'.
  - intros Hz. apply Z.rem_bound_pos; lia.
  - intros Hz. apply Z.rem_bound_pos_neg; lia.
Qed.

Lemma toFixed_throws (x d : number) :
  (fraction_digits_ok d ∧ ∃ s, toFixed x d = Normal s) ∨
  (¬ fraction_digits_ok d ∧ toFixed x d = Throw RangeError).
Proof.
  unfold toFixed, fraction_digits_ok. destruct d as [| | |q]; cbn [ToIntegerOrInfinity].
  - left. split; [done|].
    change (Qc_to_Z 0) with 0%Z. rewrite decide_False by lia. by destruct x; eexists.
  - right. split; [tauto|done].
  - right. split; [tauto|done].
  - change (Qc_to_Z (Qc_of_Z (Qnum q ÷ Z.pos (Qden q)))) with (Qnum q ÷ Z.pos (Qden q))%Z.
    assert (Hiff : (Qc_of_Z (-1) < q ∧ q < Qc_of_Z 101) ↔
                   (0 ≤ Qnum q ÷ Z.pos (Qden q) ≤ 100)%Z).
    { rewrite quot_in_range. unfold Qclt, Qlt. simpl. lia. }
    destruct (decide (Qnum q ÷ Z.pos (Qden q) < 0 ∨ 100 < Qnum q ÷ Z.pos (Qden q))%Z)
      as [H|H].
    + right. split; [|done]. rewrite Hiff. lia.
    + left. split; [apply Hiff; lia|]. by destruct x; eexists.
Qed.

(** X26.  calculatePercentage fails, with a RangeError, exactly when the
    total is not 0 and the number of decimals, its fraction cut off, is
    outside 0..100 (NaN counting as 0); with the decimals left out it
    never fails, and with a total of 0 it returns 0 whatever the
    decimals. *)
Theorem calculatePercentage_throws (value total : number) (decimals : option number) :
  (calculatePercentage value total decimals = Throw RangeError ↔
   (total === of_Z 0)%js = false ∧ ¬ fraction_digits_ok (default (of_Z 2) decimals)) ∧
  (throws (calculatePercentage value total decimals) →
   calculatePercentage value total decimals = Throw RangeError) ∧
  ¬ throws (calculatePercentage value total None).
Proof.
  assert (Hcases :
    ((total === of_Z 0)%js = true ∧
     calculatePercentage value total decimals = Normal (of_Z 0)) ∨
    ((total === of_Z 0)%js = false ∧ fraction_digits_ok (default (of_Z 2) decimals) ∧
     ∃ y, calculatePercentage value total decimals = Normal y) ∨
    ((total === of_Z 0)%js = false ∧ ¬ fraction_digits_ok (default (of_Z 2) decimals) ∧
     calculatePercentage value total decimals = Throw RangeError)).
  { unfold calculatePercentage. cbv zeta.
    destruct (total === of_Z 0)%js; [by left|right].
    destruct (toFixed_throws (value / total * of_Z 100)%js (default (of_Z 2) decimals))
      as [[H [s ->]]|[H ->]].
    - left. split; [done|]. split; [done|]. by eexists.
    - by right. }
  split_and!.
  - destruct Hcases as [[H1 H2]|[(H1 & H2 & y & H3)|(H1 & H2 & H3)]].
    + rewrite H1, H2. split; [done|]. by intros [? _].
    + rewrite H3. split; [done|]. by intros [_ ?].
    + by rewrite H3.
  - intros [[] He]. done.
  - intros [e He]. unfold calculatePercentage in He. cbv zeta in He. simpl in He.
    destruct (total === of_Z 0)%js; [done|].
    destruct (toFixed_throws (value / total * of_Z 100)%js (of_Z 2))
      as [[_ [s Hs]]|[Hbad _]].
    + by rewrite Hs in He.
    + apply Hbad. by vm_compute.
Qed.

(** ** Loans and savings: bounds *)

Lemma Qcle_by_difference (a b t : Qc) : b - a = t → 0 <= t → a <= b.
Proof. intros <- H. apply Qcle_minus_iff. exact H. Qed.

Lemma Qcdiv_nonneg (a d : Qc) : 0 <= a → 0 < d → 0 <= a / d.
Proof.
  intros Ha Hd. unfold Qcdiv. apply Qcmult_nonneg_nonneg; [done|].
  by apply Qclt_le_weak, Qcinv_pos.
Qed.

Lemma Qcpower_ge_1 (b : Qc) (n : nat) : 1 <= b → 1 <= b ^ n.
Proof.
  intros Hb. induction n as [|n IH]; [apply Qcle_refl|].
  change (b ^ S n) with (b * b ^ n).
  apply Qcle_trans with (1 * b ^ n); [by rewrite Qcmult_1_l|].
  apply Qcmult_le_compat_r; [done|]. by apply Qcle_trans with 1.
Qed.

Lemma Qcpower_add (b : Qc) (n m : nat) : b ^ (n + m) = b ^ n * b ^ m.
Proof.
  induction n as [|n IH]; simpl; [by rewrite Qcmult_1_l|].
  by rewrite IH, Qcmult_assoc.
Qed.

(** The interest on [n] payments outweighs the growth of the debt:
    [(1+r)^n - 1 <= n * r * (1+r)^n]. *)
Lemma growth_bound (r : Qc) (n : nat) :
  0 <= r → (1 + r) ^ n - 1 <= Qc_of_Z (Z.of_nat n) * r * (1 + r) ^ n.
Proof.
  intros Hr.
  assert (Hb : 1 <= 1 + r).
  { rewrite <- (Qcplus_0_r 1) at 1. by apply Qcplus_le_compat; [apply Qcle_refl|]. }
  induction n as [|n IH].
  - simpl. replace (1 - 1) with 0 by ring. replace (Qc_of_Z 0 * r * 1) with 0; [done|].
    rewrite Z2Qc_inj_0. ring.
  - rewrite Nat2Z.inj_succ, <- Z.add_1_r, Z2Qc_inj_add, Z2Qc_inj_1.
    change ((1 + r) ^ S n) with ((1 + r) * (1 + r) ^ n).
    pose proof (Qcpower_ge_1 (1 + r) n Hb) as HA.
    revert IH HA. generalize ((1 + r) ^ n) (Qc_of_Z (Z.of_nat n)). intros A N IH HA.
    apply (Qcle_by_difference _ _
             ((1 + r) * (N * r * A - (A - 1)) + r * ((1 + r) * A - 1))); [ring|].
    replace 0 with (0 + 0) by ring. apply Qcplus_le_compat.
    + apply Qcmult_nonneg_nonneg; [by apply Qcle_trans with 1|].
      by apply Qcle_minus_iff in IH.
    + apply Qcmult_nonneg_nonneg; [done|].
      apply (proj1 (Qcle_minus_iff 1 ((1 + r) * A))).
      apply Qcle_trans with (1 * A); [by rewrite Qcmult_1_l|].
      apply Qcmult_le_compat_r; [done|]. by apply Qcle_trans with 1.
Qed.

Section GrowthBounds.

Variable pow_real : Qc → Qc → number.



End GrowthBounds.



(** ** Rate limiting *)

Section RateLimitingFacts.

Context {A : Type}.

Lemma throttle_run_blocked (rest : list A) (events : list (timer_event A)) :
  throttle_run true ((Called <$> rest) ++ events) = throttle_run true events.
Proof. induction rest as [|b rest IH]; [done|]. simpl. exact IH. Qed.

(** X29.  A throttled function runs the first call of every window and
    drops the others for good: of the calls made before the timer runs
    out only the first reaches func, and after the timer has run out the
    same holds anew. *)
Theorem throttle_first_of_window (a : A) (rest : list A) (events : list (timer_event A)) :
  throttle_run false ((Called <$> a :: rest) ++ TimerFired :: events)
    = a :: throttle_run false events ∧
  throttle_run false (Called <$> a :: rest) = [a]%list.
Proof.
  split.
  - cbn [fmap list_fmap app throttle_run throttle_step negb].
    rewrite throttle_run_blocked. reflexivity.
  - cbn [fmap list_fmap app throttle_run throttle_step negb].
    rewrite <- (app_nil_r (Called <$> rest)), throttle_run_blocked. reflexivity.
Qed.

Lemma debounce_run_trailing (pending : option A) (burst : list A) (last : A)
    (events : list (timer_event A)) :
  debounce_run false pending ((Called <$> (burst ++ [last])%list) ++ TimerFired :: events)
    = last :: debounce_run false None events.
Proof.
  revert pending. induction burst as [|b burst IH]; intros pending.
  - reflexivity.
  - cbn [fmap list_fmap app debounce_run debounce_step andb]. apply IH.
Qed.

Lemma debounce_run_leading (pending : A) (rest : list A) (events : list (timer_event A)) :
  debounce_run true (Some pending) ((Called <$> rest) ++ TimerFired :: events)
    = debounce_run true None events.
Proof.
  revert pending. induction rest as [|b rest IH]; intros pending.
  - reflexivity.
  - cbn [fmap list_fmap app debounce_run debounce_step andb].
    rewrite bool_decide_eq_true_2 by (by eexists). apply IH.
Qed.

(** X30.  Of a burst of calls that is followed by the timer running out,
    a debounced function runs exactly one: the last call, when the timer
    runs out, or in immediate mode the first call, at once.  The other
    calls of the burst never reach func. *)
Theorem debounce_one_per_burst (first last : A) (burst : list A)
    (events : list (timer_event A)) :
  debounce_run false None ((Called <$> (burst ++ [last])%list) ++ TimerFired :: events)
    = last :: debounce_run false None events ∧
  debounce_run true None ((Called <$> first :: burst) ++ TimerFired :: events)
    = first :: debounce_run true None events.
Proof.
  split; [apply debounce_run_trailing|].
  cbn [fmap list_fmap app debounce_run debounce_step andb].
  rewrite bool_decide_eq_false_2 by (by intros [? ?]).
  cbn [negb app]. f_equal. apply debounce_run_leading.
Qed.

End RateLimitingFacts.
